(** * Evidexia retrieval-augmented extraction pipeline

    A shallow embedding of [src/lib/document-processor.ts] (text
    normalisation and chunking; further down, file hashing, the processors
    of the five formats and their dispatch) and [src/lib/ai-processor.ts]
    (cosine similarity, top-K retrieval, answer parsing, evidence attribution
    and the orchestration loop), followed by the properties stated about
    them.

    Conventions.
    - A JavaScript string is the list of its UTF-16 code units ([jsstring]);
      [String.prototype.length] is the length of that list.
    - Indices, [maxChars], [overlap], [topK] and priorities are integers ([Z]).
    - Embedding components, similarities and confidences are IEEE-754 binary64
      numbers, the kernel's primitive [float].
    - The two models and the loader are external: they are parameters that
      either return a value or throw ([result]).  So are the browser's
      [File], the Web Crypto digest, pdf.js, mammoth and SheetJS. *)

From Stdlib Require Import List ZArith NArith Bool Lia String Ascii.
From Stdlib Require Import Floats.
From Stdlib Require Uint63.
Import ListNotations.

Local Open Scope Z_scope.

(** ** JavaScript strings *)

Module JS.

Definition char := N.
Definition jsstring := list char.

(** A string literal of the source, for ASCII text. *)
Definition lit (s : string) : jsstring :=
  map N_of_ascii (list_ascii_of_string s).

Definition len (s : jsstring) : Z := Z.of_nat (List.length s).

Definition chr_nl : char := 10%N.
Definition chr_space : char := 32%N.
Definition chr_dot : char := 46%N.
Definition chr_comma : char := 44%N.
Definition chr_percent : char := 37%N.
Definition chr_hyphen : char := 45%N.
Definition chr_euro : char := 8364%N.

Definition between (lo hi c : N) : bool := (N.leb lo c && N.leb c hi)%bool.

(** WhiteSpace and LineTerminator of ECMAScript: what [trim] strips and what
    the regular expression class [\s] matches. *)
Definition is_ws (c : char) : bool :=
  (between 9 13 c || N.eqb c 32 || N.eqb c 160 || N.eqb c 5760
   || between 8192 8202 c || N.eqb c 8232 || N.eqb c 8233 || N.eqb c 8239
   || N.eqb c 8287 || N.eqb c 12288 || N.eqb c 65279)%bool.

(** [\d] *)
Definition is_digit (c : char) : bool := between 48 57 c.

(** [[a-zA-Z]] *)
Definition is_alpha (c : char) : bool := (between 97 122 c || between 65 90 c)%bool.

(** [\w] *)
Definition is_word (c : char) : bool := (is_alpha c || is_digit c || N.eqb c 95)%bool.

(** [c] with ASCII letters folded to lower case. *)
Definition lower (c : char) : char := if between 65 90 c then (c + 32)%N else c.

Fixpoint dropWhile {A} (p : A -> bool) (l : list A) : list A :=
  match l with
  | [] => []
  | x :: t => if p x then dropWhile p t else l
  end.

Definition trimStart (s : jsstring) : jsstring := dropWhile is_ws s.
Definition trimEnd (s : jsstring) : jsstring := rev (dropWhile is_ws (rev s)).

(** [s.trim()] *)
Definition trim (s : jsstring) : jsstring := trimEnd (trimStart s).

(** [s.slice(a, b)]: a negative index counts from the end, both are clamped
    to the string. *)
Definition slice (s : jsstring) (a b : Z) : jsstring :=
  let n := len s in
  let from := if a <? 0 then Z.max (n + a) 0 else Z.min a n in
  let to := if b <? 0 then Z.max (n + b) 0 else Z.min b n in
  firstn (Z.to_nat (to - from)) (skipn (Z.to_nat from) s).

(** Greatest index [i < Z.of_nat (length s)] with [s[i] = c], or [-1]. *)
Fixpoint lastIndexIn (c : char) (s : jsstring) : Z :=
  match s with
  | [] => -1
  | x :: t =>
      let r := lastIndexIn c t in
      if 0 <=? r then r + 1 else if N.eqb x c then 0 else -1
  end.

(** [s.lastIndexOf(c, fromIndex)] for a one-character search string: the
    greatest [i] with [0 <= i <= min(max(fromIndex, 0), length - 1)] and
    [s[i] = c], or [-1].  The position [fromIndex] itself is searched. *)
Definition lastIndexOf (s : jsstring) (c : char) (fromIndex : Z) : Z :=
  lastIndexIn c (firstn (Z.to_nat (Z.max fromIndex 0 + 1)) s).

Definition eqb (s t : jsstring) : bool :=
  if list_eq_dec N.eq_dec s t then true else false.

Fixpoint isPrefix (p s : jsstring) : bool :=
  match p, s with
  | [], _ => true
  | _ :: _, [] => false
  | a :: p', b :: s' => (N.eqb a b && isPrefix p' s')%bool
  end.

(** [s.includes(p)] *)
Fixpoint includes (s p : jsstring) : bool :=
  (isPrefix p s || match s with [] => false | _ :: t => includes t p end)%bool.

(** [parts.join(sep)] *)
Fixpoint join (sep : jsstring) (parts : list jsstring) : jsstring :=
  match parts with
  | [] => []
  | [p] => p
  | p :: rest => p ++ sep ++ join sep rest
  end.

End JS.

(** ** Regular expressions

    A backtracking matcher with the priority order of ECMAScript: [run]
    lists every way the pattern can match a prefix of the input, most
    preferred first, so its head is the match that [RegExp.prototype.exec]
    reports at that position. *)

Module Regex.
Import JS.

Inductive regex : Type :=
| Eps
| Chr (p : char -> bool)
| Seq (r1 r2 : regex)
| Alt (r1 r2 : regex)
| Star (r : regex)
| Group (i : nat) (r : regex)
| Bol.

(** [r+], [r?] (both greedy) and literals. *)
Definition Plus (r : regex) : regex := Seq r (Star r).
Definition Opt (r : regex) : regex := Alt r Eps.
Definition Is (c : char) : regex := Chr (N.eqb c).
(** A letter under the [i] flag. *)
Definition IsI (c : char) : regex := Chr (fun x => N.eqb (lower x) (lower c)).

Fixpoint Word (cs : jsstring) : regex :=
  match cs with
  | [] => Eps
  | [c] => Is c
  | c :: t => Seq (Is c) (Word t)
  end.

Fixpoint WordI (cs : jsstring) : regex :=
  match cs with
  | [] => Eps
  | [c] => IsI c
  | c :: t => Seq (IsI c) (WordI t)
  end.

Definition captures := list (nat * jsstring).

(** [m[i]]: [None] is [undefined] (the group did not take part). *)
Fixpoint group (i : nat) (c : captures) : option jsstring :=
  match c with
  | [] => None
  | (j, s) :: t => if Nat.eqb i j then Some s else group i t
  end.

(** [$i] in a replacement string. *)
Definition sub (i : nat) (c : captures) : jsstring :=
  match group i c with Some s => s | None => [] end.

Definition alt := (jsstring * captures)%type.

(** Greedy iteration; an iteration that consumes nothing is rejected. *)
Fixpoint star (step : jsstring -> captures -> list alt) (fuel : nat)
    (s : jsstring) (c : captures) : list alt :=
  match fuel with
  | O => [(s, c)]
  | S f =>
      flat_map (fun a : alt =>
                  if (List.length (fst a) <? List.length s)%nat
                  then star step f (fst a) (snd a) else [])
               (step s c)
      ++ [(s, c)]
  end.

(** [run n0 r s c]: the matches of [r] at the front of [s], each as the
    input left over and the captures; [n0] is the length of the whole
    subject, so that [^] can tell position 0. *)
Fixpoint run (n0 : nat) (r : regex) (s : jsstring) (c : captures) : list alt :=
  match r with
  | Eps => [(s, c)]
  | Chr p => match s with
             | x :: t => if p x then [(t, c)] else []
             | [] => []
             end
  | Seq r1 r2 => flat_map (fun a : alt => run n0 r2 (fst a) (snd a)) (run n0 r1 s c)
  | Alt r1 r2 => run n0 r1 s c ++ run n0 r2 s c
  | Star r1 => star (run n0 r1) (List.length s) s c
  | Group i r1 =>
      map (fun a : alt =>
             (fst a, (i, firstn (List.length s - List.length (fst a)) s) :: snd a))
          (run n0 r1 s c)
  | Bol => if (List.length s =? n0)%nat then [(s, c)] else []
  end.

(** The match at the front of [s], with group 0 recorded. *)
Definition matchAt (n0 : nat) (r : regex) (s : jsstring) : option alt :=
  hd_error (run n0 (Group 0 r) s []).

(** [s.match(r)] for a pattern without the [g] flag: the captures of the
    leftmost match, or [None] for [null]. *)
Fixpoint exec (n0 : nat) (r : regex) (s : jsstring) : option captures :=
  match matchAt n0 r s with
  | Some a => Some (snd a)
  | None => match s with
            | [] => None
            | _ :: t => exec n0 r t
            end
  end.

Definition match_ (r : regex) (s : jsstring) : option captures :=
  exec (List.length s) r s.

(** [s.replace(r, f)] without the [g] flag: only the leftmost match. *)
Fixpoint replaceFirstFrom (n0 : nat) (r : regex) (f : captures -> jsstring)
    (s : jsstring) : jsstring :=
  match matchAt n0 r s with
  | Some a => f (snd a) ++ fst a
  | None => match s with
            | [] => []
            | x :: t => x :: replaceFirstFrom n0 r f t
            end
  end.

Definition replaceFirst (r : regex) (f : captures -> jsstring) (s : jsstring) : jsstring :=
  replaceFirstFrom (List.length s) r f s.

(** [s.replace(r, f)] with the [g] flag: matches are taken left to right
    without overlap; after an empty match the scan moves on by one. *)
Fixpoint replaceAllFrom (fuel n0 : nat) (r : regex) (f : captures -> jsstring)
    (s : jsstring) : jsstring :=
  match fuel with
  | O => s
  | S k =>
      let skip := match s with
                  | [] => []
                  | x :: t => x :: replaceAllFrom k n0 r f t
                  end in
      match matchAt n0 r s with
      | Some a =>
          if (List.length (fst a) <? List.length s)%nat
          then f (snd a) ++ replaceAllFrom k n0 r f (fst a)
          else f (snd a) ++ skip
      | None => skip
      end
  end.

Definition replaceAll (r : regex) (f : captures -> jsstring) (s : jsstring) : jsstring :=
  replaceAllFrom (S (List.length s)) (List.length s) r f s.

End Regex.

(** ** document-processor.ts *)

Module DocumentProcessor.
Import JS Regex.

Definition ws : regex := Chr is_ws.
Definition digit : regex := Chr is_digit.
Definition word : regex := Chr is_word.

(** [/(\w+)-\s*\n\s*(\w+)/g] *)
Definition re_hyphenation : regex :=
  Seq (Group 1 (Plus word))
      (Seq (Is chr_hyphen)
           (Seq (Star ws) (Seq (Is chr_nl) (Seq (Star ws) (Group 2 (Plus word)))))).

(** [/\s+/g] *)
Definition re_whitespace : regex := Plus ws.

(** [/\n\s*\n\s*\n/g] *)
Definition re_linebreaks : regex :=
  Seq (Is chr_nl) (Seq (Star ws) (Seq (Is chr_nl) (Seq (Star ws) (Is chr_nl)))).

(** [/(\d+),(\d+)\s*(k|K)\s*(tCO2|CO2|tonnes?)/gi] *)
Definition re_units : regex :=
  Seq (Group 1 (Plus digit))
      (Seq (Is chr_comma)
           (Seq (Group 2 (Plus digit))
                (Seq (Star ws)
                     (Seq (Group 3 (Alt (IsI 107%N) (IsI 75%N)))
                          (Seq (Star ws)
                               (Group 4 (Alt (WordI (lit "tCO2"))
                                             (Alt (WordI (lit "CO2"))
                                                  (Seq (WordI (lit "tonne"))
                                                       (Opt (IsI 115%N))))))))))).

(** [\d+(?:\.\d+)?] and [\d+(?:,\d+)*(?:\.\d+)?] *)
Definition decimal : regex := Seq (Plus digit) (Opt (Seq (Is chr_dot) (Plus digit))).
Definition grouped : regex :=
  Seq (Plus digit)
      (Seq (Star (Seq (Is chr_comma) (Plus digit)))
           (Opt (Seq (Is chr_dot) (Plus digit)))).

(** [/(\d+(?:\.\d+)?)\s*%/g] *)
Definition re_percent : regex := Seq (Group 1 decimal) (Seq (Star ws) (Is chr_percent)).

(** [/€\s*(\d+(?:,\d+)*(?:\.\d+)?)/g] *)
Definition re_euro_before : regex := Seq (Is chr_euro) (Seq (Star ws) (Group 1 grouped)).

(** [/(\d+(?:,\d+)*(?:\.\d+)?)\s*€/g] *)
Definition re_euro_after : regex := Seq (Group 1 grouped) (Seq (Star ws) (Is chr_euro)).

(** [parseInt] of a run of decimal digits, and the decimal text of a
    non-negative integer: exact, as in the source for operands below 2^53.
    Above that the source rounds to a double, which these two do not
    follow. *)
Definition parseInt (s : jsstring) : N :=
  fold_left (fun acc d => (acc * 10 + (d - 48))%N) s 0%N.

Fixpoint digitsOf (fuel : nat) (n : N) (acc : jsstring) : jsstring :=
  match fuel with
  | O => acc
  | S k =>
      let acc' := (48 + n mod 10)%N :: acc in
      if (n / 10 =? 0)%N then acc' else digitsOf k (n / 10)%N acc'
  end.

Definition toString (n : N) : jsstring := digitsOf (S (N.to_nat (N.log2 n))) n [].

(** The replacement callback of the unit rule. *)
Definition units_replacement (m : captures) : jsstring :=
  let value := (parseInt (sub 1 m) * 1000 + parseInt (sub 2 m))%N in
  let unit := sub 4 m in
  toString value ++ [chr_space]
  ++ (if JS.eqb (map lower unit) (lit "tco2") then lit "tCO2e" else unit).

Definition normalizeText (text : jsstring) : jsstring :=
  let t1 := replaceAll re_hyphenation (fun m => sub 1 m ++ sub 2 m) text in
  let t2 := replaceAll re_whitespace (fun _ => [chr_space]) t1 in
  let t3 := replaceAll re_linebreaks (fun _ => [chr_nl; chr_nl]) t2 in
  let t4 := replaceAll re_units units_replacement t3 in
  let t5 := replaceAll re_percent (fun m => sub 1 m ++ [chr_percent]) t4 in
  let t6 := replaceAll re_euro_before (fun m => chr_euro :: sub 1 m) t5 in
  let t7 := replaceAll re_euro_after (fun m => chr_euro :: sub 1 m) t6 in
  trim t7.

(** The end of the window that starts at [start]: the raw candidate, or one
    past the last [.] or line break found searching backward from it when
    that lies past the middle of the window. *)
Definition windowEnd (text : jsstring) (maxChars start : Z) : Z :=
  let end_ := Z.min (start + maxChars) (len text) in
  if end_ <? len text then
    let sentenceEnd := lastIndexOf text chr_dot end_ in
    let paragraphEnd := lastIndexOf text chr_nl end_ in
    let breakPoint := Z.max sentenceEnd paragraphEnd in
    (* breakPoint > start + maxChars * 0.5 *)
    if 2 * start + maxChars <? 2 * breakPoint then breakPoint + 1 else end_
  else end_.

Definition nextStart (text : jsstring) (maxChars overlap start : Z) : Z :=
  Z.max (start + 1) (windowEnd text maxChars start - overlap).

(** The [while (start < text.length)] loop; [None] when [fuel] iterations
    were not enough. *)
Fixpoint chunkLoop (fuel : nat) (text : jsstring) (maxChars overlap start : Z)
    (chunks : list jsstring) : option (list jsstring) :=
  if start <? len text then
    match fuel with
    | O => None
    | S fuel' =>
        let end_ := windowEnd text maxChars start in
        chunkLoop fuel' text maxChars overlap
                  (nextStart text maxChars overlap start)
                  (chunks ++ [trim (slice text start end_)])
    end
  else Some chunks.

Definition chunkTextFuel (fuel : nat) (text : jsstring) (maxChars overlap : Z)
    : option (list jsstring) :=
  if len text <=? maxChars then Some [text]
  else option_map (filter (fun chunk => 50 <? len chunk))
                  (chunkLoop fuel text maxChars overlap 0 []).

(** [chunkText]: the loop run with one iteration per character available,
    which [chunkTextFuel_enough] below shows is always enough. *)
Definition chunkText (text : jsstring) (maxChars overlap : Z) : list jsstring :=
  match chunkTextFuel (List.length text) text maxChars overlap with
  | Some chunks => chunks
  | None => []
  end.

End DocumentProcessor.

(** ** ai-processor.ts *)

Module AIProcessor.
Import JS Regex.

(** What a [throw] carries: an [Error] with its message, or anything else. *)
Inductive thrown : Type :=
| Error (message : jsstring)
| NotAnError.

(** The outcome of a call that may throw (or of a promise that may reject). *)
Inductive result (A : Type) : Type :=
| Ok (a : A)
| Err (e : thrown).
Arguments Ok {A} a.
Arguments Err {A} e.

(** [error instanceof Error ? error.message : 'Unknown error'] *)
Definition messageOf (e : thrown) : jsstring :=
  match e with
  | Error m => m
  | NotAnError => lit "Unknown error"
  end.

Module DocumentChunk.
Record t : Type := mk {
  id : jsstring;
  page : option Z;
  startChar : option Z;
  endChar : option Z;
  text : jsstring;
  source : jsstring
}.
End DocumentChunk.

Module EmbeddingResult.
Record t : Type := mk {
  embedding : list float;
  text : jsstring;
  chunkId : jsstring
}.
End EmbeddingResult.

(** An [EmbeddingResult] spread into an object with its [similarity], as
    built inside [findRelevantChunks]. *)
Module Scored.
Record t : Type := mk {
  entry : EmbeddingResult.t;
  similarity : float
}.
End Scored.

Module MetricExtraction.
Record t : Type := mk {
  metricId : jsstring;
  value : option jsstring;
  units : option jsstring;
  confidence : float;
  evidenceChunk : option DocumentChunk.t;
  evidenceSpan : option jsstring;
  isModelled : bool;
  explanation : option jsstring
}.
End MetricExtraction.

Module ExtractionResult.
Record t : Type := mk {
  extractions : list MetricExtraction.t;
  processingTime : Z;
  totalChunks : Z
}.
End ExtractionResult.

(** Modelled from the spec: the type [ESRSMetric] of [./esrs-metrics], which
    is not among the sources; the fields are those of the spec's
    MetricDefinition, of which the code reads [id], [label], [keywords],
    [description], [unit] and [priority]. *)
Module ESRSMetric.
Record t : Type := mk {
  id : jsstring;
  label : jsstring;
  keywords : list jsstring;
  description : jsstring;
  unit : option jsstring;
  priority : Z;
  category : jsstring;
  regulation : jsstring
}.
End ESRSMetric.

(** What the question-answering pipeline hands back: one object or an array
    of them, any field of which may be missing. *)
Module QARaw.
Record t : Type := mk {
  answer : option jsstring;
  text : option jsstring;
  score : option float;
  confidence : option float;
  start : option Z;
  end_ : option Z
}.
End QARaw.

Inductive QAOutput : Type :=
| QASingle (r : QARaw.t)
| QAArray (rs : list QARaw.t).

Module QAResult.
Record t : Type := mk {
  answer : jsstring;
  confidence : float;
  start : Z;
  end_ : Z
}.
End QAResult.

(** Everything outside the program: the model loader [pipeline], the two
    models, the clock, number formatting, and the metric catalog
    [ESRS_METRICS] (a constant of [./esrs-metrics], not among the sources).
    [Ext] is the state of that outside world; every call may change it and
    may throw. *)
Record Environment : Type := {
  Ext : Type;
  EmbeddingModel : Type;
  QAModel : Type;
  pipeline_feature_extraction : Ext -> result EmbeddingModel * Ext;
  pipeline_question_answering : Ext -> result QAModel * Ext;
  call_embedding : EmbeddingModel -> jsstring -> Ext -> result (list float) * Ext;
  call_qa : QAModel -> jsstring -> jsstring -> Ext -> result QAOutput * Ext;
  Date_now : Ext -> Z;
  toFixed1 : float -> jsstring;
  toLowerCase : jsstring -> jsstring;
  ESRS_METRICS : list ESRSMetric.t
}.

(** *** Pure helpers *)

(** [Array.prototype.sort(comparefn)], which is stable: [gt x y] says
    [comparefn(x, y) > 0], that is, [y] has to come before [x]; a
    [comparefn] result of [NaN] counts as [0].  For a consistent
    [comparefn] the sorted order is unique, and this is it.  For an
    inconsistent one (a [NaN] similarity among three or more entries) the
    language leaves the order to the engine; the order computed here is
    then one of the possible ones, and only the length and the members of
    the result are stated about this case. *)
Fixpoint insert {A} (gt : A -> A -> bool) (x : A) (l : list A) : list A :=
  match l with
  | [] => [x]
  | y :: t => if gt x y then y :: insert gt x t else x :: l
  end.

Definition sort {A} (gt : A -> A -> bool) (l : list A) : list A :=
  fold_right (insert gt) [] l.

(** [arr.slice(0, k)] *)
Definition sliceTo {A} (l : list A) (k : Z) : list A :=
  let n := Z.of_nat (List.length l) in
  let to := if k <? 0 then Z.max (n + k) 0 else Z.min k n in
  firstn (Z.to_nat to) l.

(** [arr.find(p)] *)
Definition find {A} (p : A -> bool) (l : list A) : option A := List.find p l.

(** [x || y] on optional strings and numbers: [undefined], [''], [0] and
    [NaN] are falsy. *)
Definition truthy_string (x : option jsstring) : option jsstring :=
  match x with
  | Some (_ :: _) => x
  | _ => None
  end.

Definition truthy_number (x : option float) : option float :=
  match x with
  | Some v => if (PrimFloat.is_zero v || PrimFloat.is_nan v)%bool then None else x
  | None => None
  end.

Definition truthy_int (x : option Z) : option Z :=
  match x with
  | Some 0 => None
  | _ => x
  end.

Definition orElse {A} (x : option A) (d : A) : A :=
  match x with Some v => v | None => d end.

Definition orOpt {A} (x y : option A) : option A :=
  match x with Some _ => x | None => y end.

(** Calculate cosine similarity between embeddings. *)
Definition cosineSimilarity (a b : list float) : result float :=
  if negb (List.length a =? List.length b)%nat then
    Err (Error (lit "Vectors must have the same length"))
  else
    let '(dotProduct, normA, normB) :=
      fold_left
        (fun (acc : float * float * float) (xy : float * float) =>
           let '(dotProduct, normA, normB) := acc in
           let '(x, y) := xy in
           (dotProduct + x * y, normA + x * x, normB + y * y)%float)
        (combine a b) (0, 0, 0)%float in
    Ok (dotProduct / (PrimFloat.sqrt normA * PrimFloat.sqrt normB))%float.

(** [chunkEmbeddings.map(chunk => ({...chunk, similarity: cosineSimilarity(q, chunk.embedding)}))];
    the first throw ends the map. *)
Fixpoint scoreAll (queryEmbedding : list float) (chunkEmbeddings : list EmbeddingResult.t)
    : result (list Scored.t) :=
  match chunkEmbeddings with
  | [] => Ok []
  | chunk :: rest =>
      match cosineSimilarity queryEmbedding (EmbeddingResult.embedding chunk) with
      | Err e => Err e
      | Ok sim =>
          match scoreAll queryEmbedding rest with
          | Err e => Err e
          | Ok l => Ok (Scored.mk chunk sim :: l)
          end
      end
  end.

(** [(a, b) => b.similarity - a.similarity] is positive. *)
Definition bySimilarity (a b : Scored.t) : bool :=
  (0 <? Scored.similarity b - Scored.similarity a)%float.

(** The part of [findRelevantChunks] after the query embedding is known. *)
Definition rankChunks (queryEmbedding : list float)
    (chunkEmbeddings : list EmbeddingResult.t) (topK : Z) : result (list Scored.t) :=
  match scoreAll queryEmbedding chunkEmbeddings with
  | Err e => Err e
  | Ok similarities => Ok (sliceTo (sort bySimilarity similarities) topK)
  end.

Definition baseQuestions : list (jsstring * jsstring) :=
  [ (lit "E1-1", lit "What is the total Scope 1 GHG emissions in tCO2e?");
    (lit "E1-2", lit "What is the total Scope 2 GHG emissions in tCO2e?");
    (lit "E1-3", lit "What is the total Scope 3 GHG emissions in tCO2e?");
    (lit "E1-4", lit "What is the total energy consumption in MWh?");
    (lit "E1-5", lit "What percentage of energy comes from renewable sources?");
    (lit "E3-1", lit "What is the total water consumption in cubic meters?");
    (lit "E5-1", lit "What is the total waste generated in tonnes?");
    (lit "S1-1", lit "How many employees does the company have?");
    (lit "S1-2", lit "What percentage of employees are female?");
    (lit "S1-4", lit "How many workplace injuries occurred?") ].

Fixpoint lookup (k : jsstring) (table : list (jsstring * jsstring)) : option jsstring :=
  match table with
  | [] => None
  | (k', v) :: t => if JS.eqb k k' then Some v else lookup k t
  end.

(** Generate appropriate question for a metric.  The table is an object
    literal in the source; an id that is the name of a member of
    [Object.prototype] (["constructor"], ["toString"]) finds that member
    there and not a question.  The ids of the table are of the form
    ["E1-1"]; [lookup] does not follow the source on an id that is such a
    name. *)
Definition generateQuestionForMetric (lower_ : jsstring -> jsstring)
    (metric : ESRSMetric.t) : jsstring :=
  match truthy_string (lookup (ESRSMetric.id metric) baseQuestions) with
  | Some q => q
  | None =>
      let unit := match truthy_string (ESRSMetric.unit metric) with
                  | Some u => lit " in " ++ u
                  | None => []
                  end in
      lit "What is the " ++ lower_ (ESRSMetric.label metric) ++ unit ++ lit "?"
  end.

(** [/^(the\s+|total\s+|approximately\s+|about\s+)/i] *)
Definition re_prefix : regex :=
  let sp := Plus (Chr is_ws) in
  Seq Bol (Group 1 (Alt (Seq (WordI (lit "the")) sp)
                   (Alt (Seq (WordI (lit "total")) sp)
                   (Alt (Seq (WordI (lit "approximately")) sp)
                        (Seq (WordI (lit "about")) sp))))).

(** [/(\d+(?:,\d+)*(?:\.\d+)?)\s*([a-zA-Z%]+)?/] *)
Definition re_numeric : regex :=
  Seq (Group 1 DocumentProcessor.grouped)
      (Seq (Star (Chr is_ws))
           (Opt (Group 2 (Plus (Chr (fun c => (is_alpha c || N.eqb c chr_percent)%bool)))))).

(** Parse the QA answer to extract structured value and units. *)
Definition parseMetricAnswer (answer : jsstring) (metric : ESRSMetric.t)
    : option jsstring * option jsstring :=
  let cleanAnswer := trim (replaceFirst re_prefix (fun _ => []) answer) in
  match match_ re_numeric cleanAnswer with
  | Some numericMatch =>
      let value := replaceAll (Is chr_comma) (fun _ => []) (sub 1 numericMatch) in
      let units := orOpt (truthy_string (group 2 numericMatch))
                         (ESRSMetric.unit metric) in
      (Some value, units)
  | None => (Some cleanAnswer, None)
  end.

Definition hasId (i : jsstring) (chunk : DocumentChunk.t) : bool :=
  JS.eqb (DocumentChunk.id chunk) i.

(** The [for ... of relevantChunks] loop of [findEvidenceChunk]. *)
Fixpoint firstContaining (answer : jsstring) (documentChunks : list DocumentChunk.t)
    (relevantChunks : list EmbeddingResult.t) : option DocumentChunk.t :=
  match relevantChunks with
  | [] => None
  | relevantChunk :: rest =>
      match find (hasId (EmbeddingResult.chunkId relevantChunk)) documentChunks with
      | Some sourceChunk =>
          if includes (DocumentChunk.text sourceChunk) answer
          then Some sourceChunk
          else firstContaining answer documentChunks rest
      | None => firstContaining answer documentChunks rest
      end
  end.

(** Find the source chunk that contains the evidence. *)
Definition findEvidenceChunk (answer : jsstring) (documentChunks : list DocumentChunk.t)
    (relevantChunks : list EmbeddingResult.t) : option DocumentChunk.t :=
  match firstContaining answer documentChunks relevantChunks with
  | Some sourceChunk => Some sourceChunk
  | None =>
      match relevantChunks with
      | first :: _ => find (hasId (EmbeddingResult.chunkId first)) documentChunks
      | [] => None
      end
  end.

(** The object pushed or returned when a metric could not be extracted. *)
Definition failed (metric : ESRSMetric.t) (why : jsstring) : MetricExtraction.t :=
  MetricExtraction.mk (ESRSMetric.id metric) None None 0%float None None false (Some why).

(** *** The model manager and the pipeline *)

Section Pipeline.
Variable env : Environment.

(** The fields of the singleton [aiModelManager]. *)
Record AIModelManager : Type := {
  embeddingModel : option (EmbeddingModel env);
  qaModel : option (QAModel env);
  isInitialized : bool
}.

Record World : Type := {
  manager : AIModelManager;
  ext : Ext env
}.

(** A computation that reads and changes the manager and the outside world
    and either returns or throws; what it changed before a throw stays
    changed. *)
Definition M (A : Type) : Type := World -> result A * World.

Definition ret {A} (a : A) : M A := fun w => (Ok a, w).
Definition throw {A} (e : thrown) : M A := fun w => (Err e, w).
Definition bind {A B} (m : M A) (k : A -> M B) : M B :=
  fun w => match m w with
           | (Ok a, w') => k a w'
           | (Err e, w') => (Err e, w')
           end.
(** [try { body } catch (error) { handler }] *)
Definition try_ {A} (body : M A) (handler : thrown -> M A) : M A :=
  fun w => match body w with
           | (Ok a, w') => (Ok a, w')
           | (Err e, w') => handler e w'
           end.

Notation "x <- m ;; k" := (bind m (fun x => k))
  (at level 61, m at next level, right associativity).
Notation "m ;;; k" := (bind m (fun _ => k))
  (at level 61, right associativity).

Definition external {A} (call : Ext env -> result A * Ext env) : M A :=
  fun w => let (r, x) := call (ext w) in (r, {| manager := manager w; ext := x |}).

(** A call of the caller's progress callback, which may change the outside
    world and may throw like any other call. *)
Definition notify (callback : Ext env -> result unit * Ext env) : M unit :=
  external callback.

Definition getManager : M AIModelManager := fun w => (Ok (manager w), w).
Definition setManager (m : AIModelManager) : M unit :=
  fun w => (Ok tt, {| manager := m; ext := ext w |}).

Definition initialize : M unit :=
  this <- getManager ;;
  if isInitialized this then ret tt
  else
    try_
      (model <- external (pipeline_feature_extraction env) ;;
       this <- getManager ;;
       setManager {| embeddingModel := Some model; qaModel := qaModel this;
                     isInitialized := isInitialized this |} ;;;
       model <- external (pipeline_question_answering env) ;;
       this <- getManager ;;
       setManager {| embeddingModel := embeddingModel this; qaModel := Some model;
                     isInitialized := isInitialized this |} ;;;
       this <- getManager ;;
       setManager {| embeddingModel := embeddingModel this; qaModel := qaModel this;
                     isInitialized := true |})
      (fun error => throw error).

Definition generateEmbedding (text : jsstring) : M (list float) :=
  this <- getManager ;;
  match embeddingModel this with
  | None => throw (Error (lit "Embedding model not initialized"))
  | Some model => external (call_embedding env model text)
  end.

Definition extractAnswer (question context : jsstring) : M QAResult.t :=
  this <- getManager ;;
  match qaModel this with
  | None => throw (Error (lit "QA model not initialized"))
  | Some model =>
      result <- external (call_qa env model question context) ;;
      (* Array.isArray(result) ? result[0] : result *)
      let qaResult := match result with
                      | QASingle r => Some r
                      | QAArray rs => hd_error rs
                      end in
      match qaResult with
      | None => throw (Error (lit "Cannot read properties of undefined (reading 'answer')"))
      | Some r =>
          ret (QAResult.mk
                 (orElse (orOpt (truthy_string (QARaw.answer r)) (truthy_string (QARaw.text r))) [])
                 (orElse (orOpt (truthy_number (QARaw.score r)) (truthy_number (QARaw.confidence r)))
                         0%float)
                 (orElse (truthy_int (QARaw.start r)) 0)
                 (orElse (truthy_int (QARaw.end_ r)) 0))
      end
  end.

Definition ofNat (n : nat) : float := PrimFloat.of_uint63 (Uint63.of_Z (Z.of_nat n)).

(** The [for] loop of [generateChunkEmbeddings], from index [i] on.  The
    entry is pushed before the callback is called, inside the same [try]:
    when the callback throws, the [catch] finds the entry in [results]. *)
Fixpoint embedFrom (total i : nat) (chunks : list DocumentChunk.t)
    (onProgress : option (float -> Ext env -> result unit * Ext env))
    (results : list EmbeddingResult.t) : M (list EmbeddingResult.t) :=
  match chunks with
  | [] => ret results
  | chunk :: rest =>
      results <-
        try_
          (embedding <- generateEmbedding (DocumentChunk.text chunk) ;;
           let results :=
             results ++ [EmbeddingResult.mk embedding (DocumentChunk.text chunk)
                                            (DocumentChunk.id chunk)] in
           match onProgress with
           | Some callback =>
               try_ (notify (callback (ofNat (i + 1) / ofNat total * 100)%float) ;;;
                     ret results)
                    (fun _ => ret results)
           | None => ret results
           end)
          (fun _ => ret results) ;;
      embedFrom total (S i) rest onProgress results
  end.

(** Generate embeddings for document chunks. *)
Definition generateChunkEmbeddings (chunks : list DocumentChunk.t)
    (onProgress : option (float -> Ext env -> result unit * Ext env))
    : M (list EmbeddingResult.t) :=
  initialize ;;;
  embedFrom (List.length chunks) 0 chunks onProgress [].

(** Find most relevant chunks for a metric. *)
Definition findRelevantChunks (metric : ESRSMetric.t)
    (chunkEmbeddings : list EmbeddingResult.t) (topK : Z) : M (list Scored.t) :=
  initialize ;;;
  let searchQuery :=
    ESRSMetric.label metric ++ lit " "
    ++ join (lit " ") (ESRSMetric.keywords metric) ++ lit " "
    ++ ESRSMetric.description metric in
  queryEmbedding <- generateEmbedding searchQuery ;;
  match rankChunks queryEmbedding chunkEmbeddings topK with
  | Ok ranked => ret ranked
  | Err e => throw e
  end.

(** Extract metric value from relevant chunks using QA. *)
Definition extractMetricValue (metric : ESRSMetric.t)
    (relevantChunks : list EmbeddingResult.t) (documentChunks : list DocumentChunk.t)
    : M MetricExtraction.t :=
  initialize ;;;
  let context := join [chr_nl; chr_nl] (map EmbeddingResult.text relevantChunks) in
  if len (trim context) =? 0 then
    ret (failed metric (lit "No relevant context found"))
  else
    let question := generateQuestionForMetric (toLowerCase env) metric in
    try_
      (qaResult <- extractAnswer question context ;;
       let '(value, units) := parseMetricAnswer (QAResult.answer qaResult) metric in
       let evidenceChunk :=
         findEvidenceChunk (QAResult.answer qaResult) documentChunks relevantChunks in
       ret (MetricExtraction.mk
              (ESRSMetric.id metric) value units (QAResult.confidence qaResult)
              evidenceChunk (Some (QAResult.answer qaResult)) false
              (Some (lit "Extracted from context with "
                     ++ toFixed1 env (QAResult.confidence qaResult * 100)%float
                     ++ lit "% confidence"))))
      (fun error => ret (failed metric (lit "Extraction failed: " ++ messageOf error))).

(** [ESRS_METRICS.filter(m => m.priority <= 2).sort((a, b) => a.priority - b.priority)] *)
Definition byPriority (a b : ESRSMetric.t) : bool :=
  0 <? ESRSMetric.priority a - ESRSMetric.priority b.

Definition priorityMetrics : list ESRSMetric.t :=
  sort byPriority (filter (fun m => ESRSMetric.priority m <=? 2) (ESRS_METRICS env)).

(** The [for] loop of [extractAllMetrics], from index [i] on. *)
Fixpoint extractFrom (total i : nat) (metrics : list ESRSMetric.t)
    (chunkEmbeddings : list EmbeddingResult.t) (documentChunks : list DocumentChunk.t)
    (onProgress : option (jsstring -> float -> Ext env -> result unit * Ext env))
    (extractions : list MetricExtraction.t) : M (list MetricExtraction.t) :=
  match metrics with
  | [] => ret extractions
  | metric :: rest =>
      match onProgress with
      | Some callback =>
          notify (callback (ESRSMetric.label metric) (ofNat i / ofNat total * 100)%float)
      | None => ret tt
      end ;;;
      extractions <-
        try_
          (relevantChunks <- findRelevantChunks metric chunkEmbeddings 3 ;;
           extraction <- extractMetricValue metric (map Scored.entry relevantChunks)
                                            documentChunks ;;
           ret (extractions ++ [extraction]))
          (fun error =>
             ret (extractions
                  ++ [failed metric (lit "Extraction failed: " ++ messageOf error)])) ;;
      extractFrom total (S i) rest chunkEmbeddings documentChunks onProgress extractions
  end.

(** Main extraction pipeline. *)
Definition extractAllMetrics (documentChunks : list DocumentChunk.t)
    (onProgress : option (jsstring -> float -> Ext env -> result unit * Ext env))
    : M ExtractionResult.t :=
  startTime <- (fun w => (Ok (Date_now env (ext w)), w)) ;;
  chunkEmbeddings <-
    generateChunkEmbeddings documentChunks
      (Some (fun progress =>
               match onProgress with
               | Some callback => callback (lit "Generating embeddings") progress
               | None => fun x => (Ok tt, x)
               end)) ;;
  extractions <-
    extractFrom (List.length priorityMetrics) 0 priorityMetrics chunkEmbeddings
                documentChunks onProgress [] ;;
  now <- (fun w => (Ok (Date_now env (ext w)), w)) ;;
  ret (ExtractionResult.mk extractions (now - startTime)
                             (Z.of_nat (List.length documentChunks))).

End Pipeline.

End AIProcessor.

(** * Properties *)

(** ** The chunker *)

Module ChunkerProofs.
Import JS DocumentProcessor.

Lemma nextStart_increases (text : jsstring) (maxChars overlap start : Z) :
  start < nextStart text maxChars overlap start.
Proof. unfold nextStart. lia. Qed.

(** Once the fuel covers the characters left after [start], more fuel
    changes nothing and the loop returns. *)
Lemma chunkLoop_enough (text : jsstring) (maxChars overlap : Z) :
  forall (n fuel : nat) (start : Z) (chunks : list jsstring),
    (Z.to_nat (len text - start) <= n)%nat -> (n <= fuel)%nat ->
    chunkLoop fuel text maxChars overlap start chunks
    = chunkLoop n text maxChars overlap start chunks
    /\ chunkLoop n text maxChars overlap start chunks <> None.
Proof.
  induction n as [|n IH]; intros fuel start chunks Hm Hf.
  - assert (Hdone : (start <? len text) = false) by (apply Z.ltb_ge; lia).
    destruct fuel; simpl; rewrite Hdone; split; congruence.
  - destruct fuel as [|fuel]; [lia|].
    simpl. destruct (start <? len text) eqn:Hlt.
    + apply Z.ltb_lt in Hlt.
      pose proof (nextStart_increases text maxChars overlap start) as Hinc.
      apply IH; lia.
    + split; congruence.
Qed.

Lemma chunkTextFuel_enough (text : jsstring) (maxChars overlap : Z) (fuel : nat) :
  (List.length text <= fuel)%nat ->
  chunkTextFuel fuel text maxChars overlap = Some (chunkText text maxChars overlap).
Proof.
  intros Hf. unfold chunkText, chunkTextFuel.
  destruct (len text <=? maxChars); [reflexivity|].
  assert (Hm : (Z.to_nat (len text - 0) <= List.length text)%nat)
    by (unfold len; lia).
  destruct (chunkLoop_enough text maxChars overlap _ fuel 0 [] Hm Hf) as [-> Hsome].
  destruct (chunkLoop (List.length text) text maxChars overlap 0 []); [reflexivity|congruence].
Qed.

Lemma chunkText_cases (text : jsstring) (maxChars overlap : Z) :
  (len text <= maxChars /\ chunkText text maxChars overlap = [text])
  \/ (maxChars < len text
      /\ exists candidates,
           chunkText text maxChars overlap
           = filter (fun chunk => 50 <? len chunk) candidates).
Proof.
  pose proof (chunkTextFuel_enough text maxChars overlap _ (le_n _)) as H.
  unfold chunkTextFuel in H.
  destruct (len text <=? maxChars) eqn:Hle.
  - left. apply Z.leb_le in Hle. split; [assumption|congruence].
  - right. apply Z.leb_gt in Hle. split; [assumption|].
    destruct (chunkLoop _ text maxChars overlap 0 []) as [candidates|]; simpl in H;
      [|discriminate].
    exists candidates. congruence.
Qed.

(** C9. [chunkText] terminates for every text and every [maxChars] and
    [overlap] (also when [overlap >= maxChars]): each iteration moves the
    window start strictly forward, so one iteration per character of the
    text is enough fuel for the loop to return, and any larger fuel gives
    the same chunks. *)
Theorem chunkText_terminates (text : jsstring) (maxChars overlap : Z) :
  (forall start, start < nextStart text maxChars overlap start)
  /\ (forall fuel, (List.length text <= fuel)%nat ->
        chunkTextFuel fuel text maxChars overlap
        = Some (chunkText text maxChars overlap)).
Proof.
  split.
  - intros start. apply nextStart_increases.
  - intros fuel. apply chunkTextFuel_enough.
Qed.

(** C7, as amended. For every non-empty text and every [maxChars] and
    [overlap], every chunk returned by [chunkText] is a non-empty string;
    for the empty text and every [maxChars >= 0] the early return gives
    the one-element sequence holding the empty string. *)
Theorem chunkText_nonempty (text : jsstring) (maxChars overlap : Z) :
  (text <> [] ->
   Forall (fun chunk => chunk <> []) (chunkText text maxChars overlap))
  /\ (0 <= maxChars -> chunkText [] maxChars overlap = [[]]).
Proof.
  split.
  - intros Htext.
    destruct (chunkText_cases text maxChars overlap) as [[_ ->]|[_ [candidates ->]]].
    + constructor; [assumption|constructor].
    + apply Forall_forall. intros chunk Hin.
      apply filter_In in Hin. destruct Hin as [_ Hlen].
      intros ->. discriminate Hlen.
  - intros Hmax. unfold chunkText, chunkTextFuel.
    replace (len [] <=? maxChars) with true; [reflexivity|].
    symmetry. apply Z.leb_le. exact Hmax.
Qed.

Lemma chunkText_nonempty_witness :
  (lit "short text" <> []
   /\ Forall (fun chunk => chunk <> []) (chunkText (lit "short text") 800 200))
  /\ (0 <= 0 /\ chunkText [] 0 200 = [[]]).
Proof.
  split; (split; [|apply (chunkText_nonempty (lit "short text"))]);
    first [discriminate|lia].
Defined.

(** C7, as stated, fails on the empty text: the early return hands back the
    text itself, so [chunkText("", 800, 200)] is [[""]]. *)
Lemma chunkText_empty_text :
  chunkText [] 800 200 = [[]]
  /\ ~ Forall (fun chunk => chunk <> []) (chunkText [] 800 200).
Proof.
  split; [reflexivity|].
  intros H. inversion H as [|x l Hx _]. apply Hx. reflexivity.
Qed.

(** The text of 50 letters, a full stop and one more letter. *)
Definition overlong_input : jsstring :=
  lit "aaaaaaaaaaaaaaaaaaaaaaaaaaaaaaaaaaaaaaaaaaaaaaaaaa.b".

(** C2. With [maxChars = 50] the first window of [overlong_input] ends at
    index 50, where the full stop is; [lastIndexOf('.', 50)] finds it there,
    the window is snapped to one past it, and the chunk returned has 51
    characters. *)
Theorem chunkText_exceeds_maxChars :
  chunkText overlong_input 50 10 = [firstn 51 overlong_input]
  /\ Exists (fun chunk => 50 < len chunk) (chunkText overlong_input 50 10).
Proof.
  assert (H : chunkText overlong_input 50 10 = [firstn 51 overlong_input])
    by (vm_compute; reflexivity).
  split; [exact H|].
  rewrite H. constructor. vm_compute. reflexivity.
Qed.

End ChunkerProofs.

(** ** The matcher *)

Module RegexFacts.
Import JS Regex.

Definition suffix (t s : jsstring) : Prop := exists pre, s = pre ++ t.

(** Every captured string is made of characters satisfying [P]. *)
Definition caps_ok (P : char -> Prop) (c : captures) : Prop :=
  Forall (fun ic => Forall P (snd ic)) c.

(** No alternative can match without consuming a character of class [p]. *)
Inductive mandatory (p : char -> bool) : regex -> Prop :=
| mand_chr q : (forall x, q x = true -> p x = true) -> mandatory p (Chr q)
| mand_seq_l r1 r2 : mandatory p r1 -> mandatory p (Seq r1 r2)
| mand_seq_r r1 r2 : mandatory p r2 -> mandatory p (Seq r1 r2)
| mand_alt r1 r2 : mandatory p r1 -> mandatory p r2 -> mandatory p (Alt r1 r2)
| mand_group i r : mandatory p r -> mandatory p (Group i r).

(** White space in a tidy string is single spaces, never two in a row. *)
Definition starts_nonws (s : jsstring) : bool :=
  match s with
  | [] => true
  | y :: _ => negb (is_ws y)
  end.

Fixpoint tidy (s : jsstring) : bool :=
  match s with
  | [] => true
  | x :: t => ((if is_ws x then N.eqb x chr_space && starts_nonws t else true) && tidy t)%bool
  end.

(** The equations of [run]. *)
Lemma run_chr_cons n0 p x t c :
  run n0 (Chr p) (x :: t) c = if p x then [(t, c)] else [].
Proof. reflexivity. Qed.

Lemma run_chr_nil n0 p c : run n0 (Chr p) [] c = [].
Proof. reflexivity. Qed.

Lemma run_seq n0 r1 r2 s c :
  run n0 (Seq r1 r2) s c
  = flat_map (fun a : alt => run n0 r2 (fst a) (snd a)) (run n0 r1 s c).
Proof. reflexivity. Qed.

Lemma run_alt n0 r1 r2 s c :
  run n0 (Alt r1 r2) s c = run n0 r1 s c ++ run n0 r2 s c.
Proof. reflexivity. Qed.

Lemma run_star n0 r s c :
  run n0 (Star r) s c = star (run n0 r) (List.length s) s c.
Proof. reflexivity. Qed.

Lemma run_group n0 i r s c :
  run n0 (Group i r) s c
  = map (fun a : alt =>
           (fst a, (i, firstn (List.length s - List.length (fst a)) s) :: snd a))
        (run n0 r s c).
Proof. reflexivity. Qed.

Lemma run_eps n0 s c : run n0 Eps s c = [(s, c)].
Proof. reflexivity. Qed.

Lemma suffix_refl s : suffix s s.
Proof. exists []. reflexivity. Qed.

Lemma suffix_trans a b c : suffix a b -> suffix b c -> suffix a c.
Proof.
  intros [p ->] [q ->]. exists (q ++ p). now rewrite app_assoc.
Qed.

Lemma suffix_tail x t s : suffix (x :: t) s -> suffix t s.
Proof.
  intros [p ->]. exists (p ++ [x]). now rewrite <- app_assoc.
Qed.

Lemma suffix_length t s : suffix t s -> (List.length t <= List.length s)%nat.
Proof. intros [p ->]. rewrite length_app. lia. Qed.

Lemma suffix_Forall (P : char -> Prop) t s : suffix t s -> Forall P s -> Forall P t.
Proof.
  intros [p ->] H. apply Forall_app in H. tauto.
Qed.

Lemma flat_map_nil {A B} (f : A -> list B) (l : list A) :
  (forall a, In a l -> f a = []) -> flat_map f l = [].
Proof.
  induction l as [|a l IH]; intros H; simpl; [reflexivity|].
  rewrite (H a (or_introl eq_refl)), IH; [reflexivity|].
  intros b Hb. apply H. now right.
Qed.

Lemma Forall_firstn {A} (P : A -> Prop) (n : nat) (l : list A) :
  Forall P l -> Forall P (firstn n l).
Proof.
  intros H. rewrite <- (firstn_skipn n l) in H. apply Forall_app in H. tauto.
Qed.

Lemma hd_error_In {A} (l : list A) (a : A) : hd_error l = Some a -> In a l.
Proof. destruct l; simpl; [discriminate|]. intros [= ->]. now left. Qed.

Section Invariant.
Variable P : char -> Prop.
Variable n0 : nat.

(** What one alternative of a match keeps: the rest is a suffix of the
    input, and captures stay within [P] when the input does. *)
Definition keeps (s : jsstring) (c : captures) (a : alt) : Prop :=
  suffix (fst a) s /\ (Forall P s -> caps_ok P c -> caps_ok P (snd a)).

Lemma star_keeps (step : jsstring -> captures -> list alt) :
  (forall s c a, In a (step s c) -> keeps s c a) ->
  forall fuel s c a, In a (star step fuel s c) -> keeps s c a.
Proof.
  intros Hstep. induction fuel as [|fuel IH]; intros s c a Hin; simpl in Hin.
  - destruct Hin as [<-|[]]. split; [apply suffix_refl|tauto].
  - apply in_app_or in Hin. destruct Hin as [Hin|[<-|[]]].
    + apply in_flat_map in Hin. destruct Hin as [b [Hb Hin]].
      destruct (List.length (fst b) <? List.length s)%nat; [|destruct Hin].
      destruct (Hstep _ _ _ Hb) as [Hs1 Hc1].
      destruct (IH _ _ _ Hin) as [Hs2 Hc2].
      split.
      * eapply suffix_trans; eassumption.
      * intros HP Hc. apply Hc2; [eapply suffix_Forall; eassumption|auto].
    + split; [apply suffix_refl|tauto].
Qed.

Lemma run_keeps (r : regex) :
  forall s c a, In a (run n0 r s c) -> keeps s c a.
Proof.
  induction r as [|p|r1 IH1 r2 IH2|r1 IH1 r2 IH2|r1 IH1|i r1 IH1|];
    intros s c a Hin; cbn [run] in Hin.
  - destruct Hin as [<-|[]]. split; [apply suffix_refl|tauto].
  - destruct s as [|x t]; [destruct Hin|].
    destruct (p x); [|destruct Hin]. destruct Hin as [<-|[]].
    split; [exists [x]; reflexivity|tauto].
  - apply in_flat_map in Hin. destruct Hin as [b [Hb Hin]].
    destruct (IH1 _ _ _ Hb) as [Hs1 Hc1].
    destruct (IH2 _ _ _ Hin) as [Hs2 Hc2].
    split.
    + eapply suffix_trans; eassumption.
    + intros HP Hc. apply Hc2; [eapply suffix_Forall; eassumption|auto].
  - apply in_app_or in Hin. destruct Hin; auto.
  - eapply star_keeps; eauto.
  - apply in_map_iff in Hin. destruct Hin as [b [<- Hb]].
    destruct (IH1 _ _ _ Hb) as [Hs1 Hc1]. split; [exact Hs1|].
    intros HP Hc. constructor; [|exact (Hc1 HP Hc)].
    simpl. apply Forall_firstn. exact HP.
  - destruct (List.length s =? n0)%nat; [|destruct Hin].
    destruct Hin as [<-|[]]. split; [apply suffix_refl|tauto].
Qed.

Lemma matchAt_keeps (r : regex) (s : jsstring) (a : alt) :
  matchAt n0 r s = Some a ->
  suffix (fst a) s /\ (Forall P s -> caps_ok P (snd a)).
Proof.
  intros H. apply hd_error_In in H. apply run_keeps in H.
  destruct H as [Hs Hc]. split; [exact Hs|]. intros HP. apply Hc; [exact HP|constructor].
Qed.

Lemma sub_ok (i : nat) (c : captures) : caps_ok P c -> Forall P (sub i c).
Proof.
  unfold sub. induction c as [|[j s] c IH]; intros H; simpl; [constructor|].
  inversion H as [|? ? Hs Hc]; subst.
  destruct (Nat.eqb i j); [exact Hs|auto].
Qed.

(** A global replace keeps the text within [P] when its replacements do. *)
Lemma replaceAllFrom_Forall (r : regex) (f : captures -> jsstring) :
  (forall c, caps_ok P c -> Forall P (f c)) ->
  forall fuel s, Forall P s -> Forall P (replaceAllFrom fuel n0 r f s).
Proof.
  intros Hf. induction fuel as [|fuel IH]; intros s HP; cbn [replaceAllFrom]; [exact HP|].
  assert (Hskip : Forall P match s with
                           | [] => []
                           | x :: t => x :: replaceAllFrom fuel n0 r f t
                           end).
  { destruct s as [|x t]; [constructor|].
    inversion HP; subst. constructor; auto. }
  destruct (matchAt n0 r s) as [a|] eqn:Hm; [|exact Hskip].
  destruct (matchAt_keeps _ _ _ Hm) as [Hs Hc].
  destruct (List.length (fst a) <? List.length s)%nat; apply Forall_app; split; auto.
  apply IH. eapply suffix_Forall; eassumption.
Qed.

End Invariant.

Lemma replaceAll_Forall (P : char -> Prop) (r : regex) (f : captures -> jsstring)
    (s : jsstring) :
  (forall c, caps_ok P c -> Forall P (f c)) ->
  Forall P s -> Forall P (replaceAll r f s).
Proof. intros Hf HP. apply replaceAllFrom_Forall; assumption. Qed.

(** A pattern that needs a character of class [p] finds nothing in a text
    without one, and replacing it changes nothing. *)
Lemma run_mandatory (p : char -> bool) (r : regex) :
  mandatory p r ->
  forall n0 s c, Forall (fun x => p x = false) s -> run n0 r s c = [].
Proof.
  induction 1 as [q Hq|r1 r2 _ IH|r1 r2 _ IH|r1 r2 _ IH1 _ IH2|i r _ IH];
    intros n0 s c HP; cbn [run].
  - destruct s as [|x t]; [reflexivity|].
    inversion HP as [|? ? Hx _]; subst.
    destruct (q x) eqn:Hqx; [|reflexivity].
    apply Hq in Hqx. congruence.
  - now rewrite IH.
  - apply flat_map_nil. intros a Ha.
    apply IH. apply (run_keeps (fun _ => True) n0) in Ha.
    destruct Ha as [Hs _]. eapply suffix_Forall; eassumption.
  - now rewrite IH1, IH2.
  - now rewrite IH.
Qed.

Lemma replaceAllFrom_no_match (p : char -> bool) (r : regex) (f : captures -> jsstring) :
  mandatory p r ->
  forall n0 fuel s, Forall (fun x => p x = false) s -> replaceAllFrom fuel n0 r f s = s.
Proof.
  intros Hr n0. induction fuel as [|fuel IH]; intros s HP; cbn [replaceAllFrom]; [reflexivity|].
  unfold matchAt. rewrite (run_mandatory p); [|now constructor|exact HP].
  simpl. destruct s as [|x t]; [reflexivity|].
  inversion HP; subst. now rewrite IH.
Qed.

Lemma replaceAll_no_match (p : char -> bool) (r : regex) (f : captures -> jsstring)
    (s : jsstring) :
  mandatory p r -> Forall (fun x => p x = false) s -> replaceAll r f s = s.
Proof. intros. eapply replaceAllFrom_no_match; eassumption. Qed.

(** *** [dropWhile] and [trim] *)

Lemma dropWhile_suffix (p : char -> bool) (s : jsstring) : suffix (dropWhile p s) s.
Proof.
  induction s as [|x t IH]; simpl; [apply suffix_refl|].
  destruct (p x); [|apply suffix_refl].
  destruct IH as [pre Hpre]. exists (x :: pre). simpl. now f_equal.
Qed.

Lemma dropWhile_idem {A} (p : A -> bool) (l : list A) :
  dropWhile p (dropWhile p l) = dropWhile p l.
Proof.
  induction l as [|x t IH]; simpl; [reflexivity|].
  destruct (p x) eqn:Hx; [exact IH|]. simpl. now rewrite Hx.
Qed.

Lemma starts_nonws_dropWhile (s : jsstring) : starts_nonws (dropWhile is_ws s) = true.
Proof.
  induction s as [|x t IH]; simpl; [reflexivity|].
  destruct (is_ws x) eqn:Hx; [exact IH|]. simpl. now rewrite Hx.
Qed.

Lemma dropWhile_nonws (s : jsstring) : starts_nonws s = true -> dropWhile is_ws s = s.
Proof.
  destruct s as [|x t]; simpl; [reflexivity|].
  intros H. apply negb_true_iff in H. now rewrite H.
Qed.

Lemma trimEnd_prefix (s : jsstring) : exists post, s = trimEnd s ++ post.
Proof.
  unfold trimEnd. destruct (dropWhile_suffix is_ws (rev s)) as [pre Hpre].
  exists (rev pre). rewrite <- rev_app_distr, <- Hpre. now rewrite rev_involutive.
Qed.

Lemma trim_Forall (P : char -> Prop) (s : jsstring) : Forall P s -> Forall P (trim s).
Proof.
  intros H. unfold trim, trimEnd, trimStart.
  apply Forall_rev.
  eapply suffix_Forall; [apply dropWhile_suffix|].
  apply Forall_rev.
  eapply suffix_Forall; [apply dropWhile_suffix|exact H].
Qed.

Lemma starts_nonws_trim (s : jsstring) : starts_nonws (trim s) = true.
Proof.
  unfold trim. pose proof (starts_nonws_dropWhile s) as H. fold (trimStart s) in H.
  destruct (trimEnd_prefix (trimStart s)) as [post Hpost].
  destruct (trimEnd (trimStart s)) as [|x t]; [reflexivity|].
  rewrite Hpost in H. exact H.
Qed.

Lemma trim_trim (s : jsstring) : trim (trim s) = trim s.
Proof.
  unfold trim at 1. unfold trimStart.
  rewrite (dropWhile_nonws _ (starts_nonws_trim s)).
  unfold trim, trimEnd. rewrite rev_involutive, dropWhile_idem. reflexivity.
Qed.

(** *** Tidy strings *)

Lemma tidy_app_r (a b : jsstring) : tidy (a ++ b) = true -> tidy b = true.
Proof.
  induction a as [|x a IH]; simpl; [tauto|].
  intros H. apply andb_true_iff in H. tauto.
Qed.

Lemma tidy_app_l (a b : jsstring) : tidy (a ++ b) = true -> tidy a = true.
Proof.
  induction a as [|x a IH]; simpl; [reflexivity|].
  intros H. apply andb_true_iff in H. destruct H as [Hx Ht].
  rewrite (IH Ht), andb_true_r.
  destruct (is_ws x); [|reflexivity].
  apply andb_true_iff in Hx. destruct Hx as [-> Hn]. simpl.
  destruct a; [reflexivity|exact Hn].
Qed.

Lemma tidy_suffix (t s : jsstring) : suffix t s -> tidy s = true -> tidy t = true.
Proof. intros [pre ->]. apply tidy_app_r. Qed.

Lemma tidy_trim (s : jsstring) : tidy s = true -> tidy (trim s) = true.
Proof.
  intros H. unfold trim.
  destruct (trimEnd_prefix (trimStart s)) as [post Hpost].
  apply (tidy_app_l _ post). rewrite <- Hpost.
  eapply tidy_suffix; [apply dropWhile_suffix|exact H].
Qed.

Lemma tidy_ws_is_space (s : jsstring) :
  tidy s = true -> Forall (fun x => is_ws x = true -> x = chr_space) s.
Proof.
  induction s as [|x t IH]; simpl; intros H; constructor.
  - intros Hx. rewrite Hx in H.
    apply andb_true_iff in H. destruct H as [H _].
    apply andb_true_iff in H. destruct H as [H _]. now apply N.eqb_eq.
  - apply IH. apply andb_true_iff in H. tauto.
Qed.

Lemma tidy_no_linebreak (s : jsstring) :
  tidy s = true -> Forall (fun x => N.eqb chr_nl x = false) s.
Proof.
  intros H. apply tidy_ws_is_space in H.
  eapply Forall_impl; [|exact H]. intros x Hx. simpl in Hx.
  apply N.eqb_neq. intros <-. discriminate (Hx eq_refl).
Qed.

(** *** The first match of [p+] *)

Lemma hd_error_app_some {A} (l l' : list A) (a : A) :
  hd_error l = Some a -> hd_error (l ++ l') = Some a.
Proof. destruct l; simpl; [discriminate|tauto]. Qed.

Lemma star_chr_hd (n0 : nat) (p : char -> bool) :
  forall fuel s c, (List.length s <= fuel)%nat ->
    hd_error (star (run n0 (Chr p)) fuel s c) = Some (dropWhile p s, c).
Proof.
  induction fuel as [|fuel IH]; intros s c Hlen.
  - destruct s; [reflexivity|simpl in Hlen; lia].
  - cbn [star]. destruct s as [|x t]; [reflexivity|].
    rewrite run_chr_cons. simpl dropWhile. destruct (p x); [|reflexivity].
    cbn [flat_map fst snd]. rewrite app_nil_r.
    replace (List.length t <? List.length (x :: t))%nat with true
      by (symmetry; apply Nat.ltb_lt; simpl; lia).
    apply hd_error_app_some. apply IH. simpl in Hlen. lia.
Qed.

Lemma matchAt_plus_chr (n0 : nat) (p : char -> bool) (s : jsstring) :
  option_map fst (matchAt n0 (Plus (Chr p)) s)
  = match s with
    | x :: t => if p x then Some (dropWhile p t) else None
    | [] => None
    end.
Proof.
  unfold matchAt, Plus. rewrite run_group, run_seq.
  destruct s as [|x t]; [reflexivity|].
  rewrite run_chr_cons. destruct (p x); [|reflexivity].
  cbn [flat_map fst snd]. rewrite app_nil_r, run_star.
  pose proof (star_chr_hd n0 p (List.length t) t [] (le_n _)) as H.
  destruct (star (run n0 (Chr p)) (List.length t) t []) as [|a l]; [discriminate|].
  simpl in H. injection H as ->. reflexivity.
Qed.

End RegexFacts.

(** ** The normalizer *)

Module NormalizerProofs.
Import JS Regex DocumentProcessor RegexFacts.

Create HintDb mand.
#[local] Hint Constructors mandatory : mand.

Lemma mand_is (c : char) : mandatory (N.eqb c) (Is c).
Proof. constructor. auto. Qed.
#[local] Hint Resolve mand_is : mand.

Lemma mand_hyphenation : mandatory (N.eqb chr_nl) re_hyphenation.
Proof. unfold re_hyphenation. eauto 10 with mand. Qed.

Lemma mand_linebreaks : mandatory (N.eqb chr_nl) re_linebreaks.
Proof. unfold re_linebreaks. eauto with mand. Qed.

Lemma mand_units : mandatory (N.eqb chr_comma) re_units.
Proof. unfold re_units. eauto with mand. Qed.

Lemma mand_euro_before : mandatory (N.eqb chr_euro) re_euro_before.
Proof. unfold re_euro_before. eauto with mand. Qed.

Lemma mand_euro_after : mandatory (N.eqb chr_euro) re_euro_after.
Proof. unfold re_euro_after. eauto with mand. Qed.

(** *** Collapsing white space *)

Definition collapse (fuel n0 : nat) (s : jsstring) : jsstring :=
  replaceAllFrom fuel n0 re_whitespace (fun _ => [chr_space]) s.

Lemma collapse_nil fuel n0 : collapse fuel n0 [] = [].
Proof. destruct fuel; reflexivity. Qed.

Lemma collapse_cons fuel n0 x t :
  collapse (S fuel) n0 (x :: t)
  = if is_ws x then chr_space :: collapse fuel n0 (dropWhile is_ws t)
    else x :: collapse fuel n0 t.
Proof.
  unfold collapse. cbn [replaceAllFrom].
  pose proof (matchAt_plus_chr n0 is_ws (x :: t)) as H.
  unfold re_whitespace, ws.
  destruct (matchAt n0 (Plus (Chr is_ws)) (x :: t)) as [a|];
    destruct (is_ws x); simpl in H; try discriminate; [|reflexivity].
  injection H as H. rewrite H.
  pose proof (suffix_length _ _ (dropWhile_suffix is_ws t)) as Hlen.
  replace (List.length (dropWhile is_ws t) <? List.length (x :: t))%nat with true
    by (symmetry; apply Nat.ltb_lt; simpl; lia).
  reflexivity.
Qed.

Lemma collapse_starts fuel n0 s :
  starts_nonws s = true -> starts_nonws (collapse fuel n0 s) = true.
Proof.
  destruct fuel; [tauto|]. destruct s as [|x t]; [reflexivity|].
  rewrite collapse_cons. simpl. intros H.
  apply negb_true_iff in H. rewrite H. simpl. now rewrite H.
Qed.

Lemma collapse_tidy n0 :
  forall fuel s, (List.length s < fuel)%nat -> tidy (collapse fuel n0 s) = true.
Proof.
  induction fuel as [|fuel IH]; intros s Hlen; [lia|].
  destruct s as [|x t]; [reflexivity|].
  rewrite collapse_cons. simpl in Hlen.
  destruct (is_ws x) eqn:Hx.
  - pose proof (suffix_length _ _ (dropWhile_suffix is_ws t)) as Hd.
    simpl. rewrite IH by lia.
    rewrite collapse_starts by apply starts_nonws_dropWhile. reflexivity.
  - simpl. rewrite Hx. apply IH. lia.
Qed.

Lemma collapse_id n0 :
  forall fuel s, tidy s = true -> collapse fuel n0 s = s.
Proof.
  induction fuel as [|fuel IH]; intros s Hs; [reflexivity|].
  destruct s as [|x t]; [reflexivity|].
  rewrite collapse_cons. simpl in Hs.
  apply andb_true_iff in Hs. destruct Hs as [Hx Ht].
  destruct (is_ws x).
  - apply andb_true_iff in Hx. destruct Hx as [Hx Hn].
    apply N.eqb_eq in Hx. subst x.
    rewrite (dropWhile_nonws _ Hn), (IH _ Ht). reflexivity.
  - now rewrite (IH _ Ht).
Qed.

Lemma whitespace_tidy (s : jsstring) :
  tidy (replaceAll re_whitespace (fun _ => [chr_space]) s) = true.
Proof.
  unfold replaceAll. fold (collapse (S (List.length s)) (List.length s) s).
  apply collapse_tidy. lia.
Qed.

Lemma whitespace_id (s : jsstring) :
  tidy s = true -> replaceAll re_whitespace (fun _ => [chr_space]) s = s.
Proof.
  unfold replaceAll. fold (collapse (S (List.length s)) (List.length s) s).
  apply collapse_id.
Qed.

(** *** The replacements stay within a class of characters *)

Lemma digitsOf_Forall (P : char -> Prop) :
  (forall d, (48 <= d <= 57)%N -> P d) ->
  forall fuel n acc, Forall P acc -> Forall P (digitsOf fuel n acc).
Proof.
  intros HP. induction fuel as [|fuel IH]; intros n acc Hacc; cbn [digitsOf]; [exact Hacc|].
  assert (Hd : P (48 + n mod 10)%N).
  { apply HP. assert (Hlt : (n mod 10 < 10)%N) by (apply N.mod_lt; discriminate).
    revert Hlt. generalize (n mod 10)%N. intros d Hlt. lia. }
  destruct (n / 10 =? 0)%N; [|apply IH]; constructor; assumption.
Qed.

Lemma units_replacement_Forall (P : char -> Prop) (m : captures) :
  (forall d, (48 <= d <= 57)%N -> P d) ->
  P chr_space -> Forall P (lit "tCO2e") ->
  caps_ok P m -> Forall P (units_replacement m).
Proof.
  intros Hd Hsp Hunit Hm. unfold units_replacement.
  apply Forall_app. split.
  - unfold toString. apply digitsOf_Forall; [exact Hd|constructor].
  - apply Forall_app. split; [constructor; [exact Hsp|constructor]|].
    destruct (JS.eqb _ _); [exact Hunit|now apply sub_ok].
Qed.

(** What the rewrites after white-space collapsing keep: a property of
    characters that digits, the space, [%], [€] and the letters of [tCO2e]
    have. *)
Definition kept (P : char -> Prop) : Prop :=
  (forall d, (48 <= d <= 57)%N -> P d)
  /\ P chr_space /\ P chr_percent /\ P chr_euro /\ Forall P (lit "tCO2e").

Lemma units_Forall (P : char -> Prop) (s : jsstring) :
  kept P -> Forall P s -> Forall P (replaceAll re_units units_replacement s).
Proof.
  intros (Hd & Hsp & _ & _ & Hu). apply replaceAll_Forall.
  intros c Hc. now apply units_replacement_Forall.
Qed.

Lemma percent_Forall (P : char -> Prop) (s : jsstring) :
  kept P -> Forall P s ->
  Forall P (replaceAll re_percent (fun m => sub 1 m ++ [chr_percent]) s).
Proof.
  intros (_ & _ & Hp & _). apply replaceAll_Forall.
  intros c Hc. apply Forall_app. split; [now apply sub_ok|].
  constructor; [exact Hp|constructor].
Qed.

Lemma euro_Forall (P : char -> Prop) (r : regex) (s : jsstring) :
  kept P -> Forall P s ->
  Forall P (replaceAll r (fun m => chr_euro :: sub 1 m) s).
Proof.
  intros (_ & _ & _ & He & _). apply replaceAll_Forall.
  intros c Hc. constructor; [exact He|now apply sub_ok].
Qed.

Lemma kept_no_linebreak : kept (fun x => N.eqb chr_nl x = false).
Proof.
  repeat split; try reflexivity.
  - intros d Hd. apply N.eqb_neq. intros <-. unfold chr_nl in Hd. lia.
  - repeat constructor.
Qed.

(** No output of [normalizeText] holds a line break: the white-space rule
    has replaced each of them by a space before the line-break rule runs. *)
Lemma normalizeText_no_linebreak (text : jsstring) :
  Forall (fun x => N.eqb chr_nl x = false) (normalizeText text).
Proof.
  unfold normalizeText.
  set (t1 := replaceAll re_hyphenation _ text).
  set (t2 := replaceAll re_whitespace _ t1).
  assert (H2 : Forall (fun x => N.eqb chr_nl x = false) t2)
    by (apply tidy_no_linebreak, whitespace_tidy).
  rewrite (replaceAll_no_match _ _ _ t2 mand_linebreaks H2).
  apply trim_Forall.
  apply euro_Forall; [apply kept_no_linebreak|].
  apply euro_Forall; [apply kept_no_linebreak|].
  apply percent_Forall; [apply kept_no_linebreak|].
  apply units_Forall; [apply kept_no_linebreak|exact H2].
Qed.

(** C5. [normalizeText] leaves no line break in any output, so a run of
    three line breaks is never rewritten into two: ["a\n\n\nb"] becomes
    ["a b"]. *)
Theorem normalizeText_drops_line_breaks :
  normalizeText (lit "a" ++ [chr_nl; chr_nl; chr_nl] ++ lit "b") = lit "a b"
  /\ forall text, ~ In chr_nl (normalizeText text).
Proof.
  split; [vm_compute; reflexivity|].
  intros text Hin.
  pose proof (normalizeText_no_linebreak text) as H.
  apply (proj1 (Forall_forall _ _) H) in Hin. discriminate Hin.
Qed.


End NormalizerProofs.

(** ** The answer parser *)

Module ParserProofs.
Import JS Regex AIProcessor.

(** C3. For the answer ["1,250 tCO2e"] the value is ["1250"], and the
    units are ["tCO"], whatever the metric: the unit class [[a-zA-Z%]] has
    no digit, so the unit token stops before the [2]. *)
Theorem parseMetricAnswer_scenario_B (metric : ESRSMetric.t) :
  parseMetricAnswer (lit "1,250 tCO2e") metric
  = (Some (lit "1250"), Some (lit "tCO")).
Proof. vm_compute. reflexivity. Qed.

End ParserProofs.

(** ** Sample worlds, for the concrete cases below *)

Module Samples.
Import JS AIProcessor.

Definition scope1 : ESRSMetric.t :=
  ESRSMetric.mk (lit "E1-1") (lit "Scope 1 GHG emissions") [lit "scope 1"; lit "direct"]
                (lit "Gross Scope 1 greenhouse gas emissions") (Some (lit "tCO2e")) 1
                (lit "Environment") (lit "ESRS E1").

Definition headcount : ESRSMetric.t :=
  ESRSMetric.mk (lit "S1-1") (lit "Employees") [lit "headcount"]
                (lit "Number of employees") None 2
                (lit "Social") (lit "ESRS S1").

Definition biodiversity : ESRSMetric.t :=
  ESRSMetric.mk (lit "E4-1") (lit "Sites near sensitive areas") []
                (lit "Sites in or near biodiversity-sensitive areas") None 3
                (lit "Environment") (lit "ESRS E4").

Definition catalog : list ESRSMetric.t := [biodiversity; headcount; scope1].

Definition answer1250 : QARaw.t :=
  QARaw.mk (Some (lit "1,250 tCO2e")) None (Some 0.875%float) None (Some 33) (Some 44).

(** Both models load; every text embeds to [(1, 0)]; the QA model always
    answers ["1,250 tCO2e"] with score 0.875. *)
Definition working : Environment :=
  {| Ext := unit;
     EmbeddingModel := unit;
     QAModel := unit;
     pipeline_feature_extraction := fun x => (Ok tt, x);
     pipeline_question_answering := fun x => (Ok tt, x);
     call_embedding := fun _ _ x => (Ok [1; 0]%float, x);
     call_qa := fun _ _ _ x => (Ok (QASingle answer1250), x);
     Date_now := fun _ => 0;
     toFixed1 := fun _ => lit "87.5";
     toLowerCase := map lower;
     ESRS_METRICS := catalog |}.

(** The embedding model cannot be loaded. *)
Definition offline : Environment :=
  {| Ext := unit;
     EmbeddingModel := unit;
     QAModel := unit;
     pipeline_feature_extraction := fun x => (Err (Error (lit "Failed to fetch")), x);
     pipeline_question_answering := fun x => (Ok tt, x);
     call_embedding := fun _ _ x => (Ok [1; 0]%float, x);
     call_qa := fun _ _ _ x => (Ok (QASingle answer1250), x);
     Date_now := fun _ => 0;
     toFixed1 := fun _ => lit "87.5";
     toLowerCase := map lower;
     ESRS_METRICS := catalog |}.

(** The manager before anything was loaded. *)
Definition fresh (env : Environment) (x : Ext env) : World env :=
  {| manager := {| embeddingModel := None; qaModel := None; isInitialized := false |};
     ext := x |}.

Definition chunkA : DocumentChunk.t :=
  DocumentChunk.mk (lit "doc-chunk-0") None (Some 0) (Some 600)
                   (lit "Total Scope 1 GHG emissions were 1,250 tCO2e in 2023")
                   (lit "report.txt").

Definition chunkB : DocumentChunk.t :=
  DocumentChunk.mk (lit "doc-chunk-1") None (Some 600) (Some 1200)
                   (lit "The company employs 310 people") (lit "report.txt").

Definition embedded (chunk : DocumentChunk.t) (v : list float) : EmbeddingResult.t :=
  EmbeddingResult.mk v (DocumentChunk.text chunk) (DocumentChunk.id chunk).

End Samples.

(** ** Evidence attribution and coverage *)

Module ExtractionProofs.
Import JS AIProcessor.

Lemma find_In {A} (p : A -> bool) (l : list A) (x : A) : find p l = Some x -> In x l.
Proof. intros H. apply List.find_some in H. tauto. Qed.

Lemma firstContaining_In answer documentChunks relevantChunks chunk :
  firstContaining answer documentChunks relevantChunks = Some chunk ->
  In chunk documentChunks.
Proof.
  induction relevantChunks as [|r rest IH]; simpl; [discriminate|].
  destruct (find _ documentChunks) as [sourceChunk|] eqn:Hfind; [|exact IH].
  destruct (includes _ answer); [|exact IH].
  intros [= <-]. eapply find_In; eassumption.
Qed.

Lemma findEvidenceChunk_In answer documentChunks relevantChunks chunk :
  findEvidenceChunk answer documentChunks relevantChunks = Some chunk ->
  In chunk documentChunks.
Proof.
  unfold findEvidenceChunk.
  destruct (firstContaining _ _ _) as [c|] eqn:Hfirst.
  - intros [= <-]. eapply firstContaining_In; eassumption.
  - destruct relevantChunks as [|first rest]; [discriminate|]. apply find_In.
Qed.

(** The source chunks of the retrieved entries, none of which contains
    the answer. *)
Definition noneContains (answer : jsstring) (documentChunks : list DocumentChunk.t)
    (relevantChunks : list EmbeddingResult.t) : Prop :=
  forall r sourceChunk,
    In r relevantChunks ->
    find (hasId (EmbeddingResult.chunkId r)) documentChunks = Some sourceChunk ->
    includes (DocumentChunk.text sourceChunk) answer = false.

Lemma firstContaining_none answer documentChunks relevantChunks :
  noneContains answer documentChunks relevantChunks ->
  firstContaining answer documentChunks relevantChunks = None.
Proof.
  unfold noneContains.
  induction relevantChunks as [|r rest IH]; intros H; simpl; [reflexivity|].
  destruct (find _ documentChunks) as [sourceChunk|] eqn:Hfind.
  - rewrite (H r sourceChunk (or_introl eq_refl) Hfind).
    apply IH. intros r' sc Hin. apply H. now right.
  - apply IH. intros r' sc Hin. apply H. now right.
Qed.

(** [chunk] is the chunk that the id [i] refers to: the first of
    [documentChunks] whose id is [i]. *)
Definition named (i : jsstring) (documentChunks : list DocumentChunk.t)
    (chunk : DocumentChunk.t) : Prop :=
  exists before after,
    documentChunks = before ++ chunk :: after
    /\ DocumentChunk.id chunk = i
    /\ Forall (fun c => DocumentChunk.id c <> i) before.

Lemma hasId_true i chunk : hasId i chunk = true <-> DocumentChunk.id chunk = i.
Proof.
  unfold hasId, JS.eqb.
  destruct (list_eq_dec N.eq_dec (DocumentChunk.id chunk) i); split;
    congruence || discriminate.
Qed.

Lemma find_named i documentChunks chunk :
  find (hasId i) documentChunks = Some chunk <-> named i documentChunks chunk.
Proof.
  split.
  - induction documentChunks as [|c rest IH]; [discriminate|].
    change (find (hasId i) (c :: rest))
      with (if hasId i c then Some c else find (hasId i) rest).
    destruct (hasId i c) eqn:Hc.
    + intros [= <-]. exists [], rest. repeat split; [|constructor].
      apply hasId_true. exact Hc.
    + intros H. destruct (IH H) as (before & after & -> & Hid & Hbefore).
      exists (c :: before), after. repeat split; [exact Hid|].
      constructor; [|exact Hbefore].
      intros Heq. apply hasId_true in Heq. congruence.
  - intros (before & after & -> & Hid & Hbefore).
    induction Hbefore as [|c before Hc _ IH]; cbn [app].
    + change (find (hasId i) (chunk :: after))
        with (if hasId i chunk then Some chunk else find (hasId i) after).
      rewrite (proj2 (hasId_true i chunk) Hid). reflexivity.
    + change (find (hasId i) (c :: before ++ chunk :: after))
        with (if hasId i c then Some c else find (hasId i) (before ++ chunk :: after)).
      destruct (hasId i c) eqn:Hh; [|exact IH].
      apply hasId_true in Hh. contradiction.
Qed.

(** No retrieved entry refers to a chunk whose text contains [answer]. *)
Definition unmatched (answer : jsstring) (documentChunks : list DocumentChunk.t)
    (relevantChunks : list EmbeddingResult.t) : Prop :=
  forall r chunk,
    In r relevantChunks ->
    named (EmbeddingResult.chunkId r) documentChunks chunk ->
    includes (DocumentChunk.text chunk) answer = false.

Lemma unmatched_noneContains answer documentChunks relevantChunks :
  unmatched answer documentChunks relevantChunks ->
  noneContains answer documentChunks relevantChunks.
Proof.
  intros H r sourceChunk Hin Hfind. apply (H r sourceChunk Hin).
  apply find_named. exact Hfind.
Qed.

Section WithEnvironment.
Variable env : Environment.

(** What [extractMetricValue] can return: the record of a failure, or the
    record built from a QA answer. *)
Lemma extractMetricValue_cases metric relevantChunks documentChunks w e w' :
  extractMetricValue env metric relevantChunks documentChunks w = (Ok e, w') ->
  (exists why, e = failed metric why)
  \/ (exists answer value units confidence explanation,
        e = MetricExtraction.mk (ESRSMetric.id metric) (Some value) units confidence
              (findEvidenceChunk answer documentChunks relevantChunks)
              (Some answer) false (Some explanation)).
Proof.
  unfold extractMetricValue, bind, try_, ret.
  destruct (initialize env w) as [[[]|err] w1]; [|discriminate].
  destruct (len (trim _) =? 0).
  - intros [= <- _]. left. eauto.
  - destruct (extractAnswer env _ _ w1) as [[qa|err] w2].
    + unfold parseMetricAnswer.
      destruct (Regex.match_ re_numeric _); intros [= <- _]; right; eauto 10.
    + intros [= <- _]. left. eauto.
Qed.

(** C8. If [extractMetricValue] returns an extraction with an
    [evidenceChunk], that chunk is one of the document chunks it was given;
    and if no retrieved entry refers to a chunk whose text contains the
    answer (the [evidenceSpan]), the [evidenceChunk] is the chunk that the
    first, most similar, retrieved entry refers to: the first document
    chunk with that entry's [chunkId], and none if there is no such
    chunk. *)
Theorem evidenceChunk_of_run metric relevantChunks documentChunks w e w' :
  extractMetricValue env metric relevantChunks documentChunks w = (Ok e, w') ->
  (forall chunk, MetricExtraction.evidenceChunk e = Some chunk -> In chunk documentChunks)
  /\ (forall answer first rest,
        MetricExtraction.evidenceSpan e = Some answer ->
        relevantChunks = first :: rest ->
        unmatched answer documentChunks relevantChunks ->
        forall chunk,
          MetricExtraction.evidenceChunk e = Some chunk
          <-> named (EmbeddingResult.chunkId first) documentChunks chunk).
Proof.
  intros H. apply extractMetricValue_cases in H.
  destruct H as [[why ->]|(answer & value & units & confidence & explanation & ->)]; simpl.
  - split; [discriminate|]. intros answer first rest; discriminate.
  - split.
    + intros chunk. apply findEvidenceChunk_In.
    + intros a first rest [= <-] -> Hnone chunk. unfold findEvidenceChunk.
      rewrite (firstContaining_none _ _ _ (unmatched_noneContains _ _ _ Hnone)).
      apply find_named.
Qed.

(** *** Coverage *)

Definition ready (w : World env) : Prop := isInitialized env (manager env w) = true.



Lemma initialize_ready w : ready w -> initialize env w = (Ok tt, w).
Proof.
  unfold ready, initialize, bind, getManager. intros H. now rewrite H.
Qed.

Lemma initialize_ok w u w' : initialize env w = (Ok u, w') -> ready w'.
Proof.
  unfold ready, initialize, bind, try_, getManager, setManager, external, ret, throw.
  destruct (isInitialized env (manager env w)) eqn:Hinit.
  - intros [= _ <-]. exact Hinit.
  - simpl.
    destruct (pipeline_feature_extraction env (ext env w)) as [[model|err] x1]; simpl;
      [|discriminate].
    destruct (pipeline_question_answering env x1) as [[model'|err] x2]; simpl;
      [|discriminate].
    intros [= _ <-]. reflexivity.
Qed.

Lemma generateEmbedding_manager text w r w' :
  generateEmbedding env text w = (r, w') -> manager env w' = manager env w.
Proof.
  unfold generateEmbedding, bind, getManager, throw, external.
  destruct (embeddingModel env (manager env w)) as [model|].
  - destruct (call_embedding env model text (ext env w)) as [r' x].
    intros [= _ <-]. reflexivity.
  - intros [= _ <-]. reflexivity.
Qed.









End WithEnvironment.

(** The witnesses and counterexamples run the pipeline in the sample
    worlds. *)

Definition chunkC : DocumentChunk.t :=
  DocumentChunk.mk (lit "doc-chunk-2") None (Some 1200) (Some 1800)
                   (lit "Water use fell by a tenth") (lit "report.txt").

(** One run of [extractMetricValue]: the QA model answers [1,250 tCO2e],
    which is in neither retrieved chunk; the first retrieved entry is that
    of the second document chunk. *)
Definition sample_run : result MetricExtraction.t * World Samples.working :=
  extractMetricValue Samples.working Samples.scope1
    [Samples.embedded chunkC [1; 0]%float;
     Samples.embedded Samples.chunkB [1; 0]%float]
    [Samples.chunkB; chunkC; Samples.chunkA]
    (Samples.fresh Samples.working tt).

Definition sample_extraction : MetricExtraction.t :=
  match fst sample_run with
  | Ok e => e
  | Err _ => failed Samples.scope1 []
  end.

Lemma evidenceChunk_of_run_witness :
  sample_run = (Ok sample_extraction, snd sample_run)
  /\ MetricExtraction.evidenceSpan sample_extraction = Some (lit "1,250 tCO2e")
  /\ MetricExtraction.evidenceChunk sample_extraction = Some chunkC
  /\ forall chunk, MetricExtraction.evidenceChunk sample_extraction = Some chunk ->
                   In chunk [Samples.chunkB; chunkC; Samples.chunkA].
Proof.
  assert (Hrun : sample_run = (Ok sample_extraction, snd sample_run))
    by (vm_compute; reflexivity).
  assert (Hspan : MetricExtraction.evidenceSpan sample_extraction
                  = Some (lit "1,250 tCO2e")) by (vm_compute; reflexivity).
  destruct (evidenceChunk_of_run Samples.working Samples.scope1 _ _
              (Samples.fresh Samples.working tt) _ _ Hrun) as [Hmember Hfirst].
  split; [exact Hrun|]. split; [exact Hspan|]. split; [|exact Hmember].
  apply (Hfirst _ _ _ Hspan eq_refl).
  - intros r chunk Hin Hnamed. apply find_named in Hnamed. revert Hnamed.
    destruct Hin as [<-|[<-|[]]]; vm_compute; intros [= <-]; reflexivity.
  - exists [Samples.chunkB], [Samples.chunkA]. split; [reflexivity|].
    split; [reflexivity|]. constructor; [|constructor].
    vm_compute. discriminate.
Defined.





End ExtractionProofs.

(** ** Cosine similarity on a zero vector *)

Module CosineProofs.
Import JS AIProcessor.

(** Every component is [0] or [-0]. *)
Definition allZero (v : list float) : Prop :=
  Forall (fun x => PrimFloat.is_zero x = true) v.

(** Zero or NaN. *)
Definition zn (x : spec_float) : Prop :=
  match x with
  | S754_zero _ | S754_nan => True
  | _ => False
  end.

Lemma SFmul_zn_l x y : zn x -> zn (SFmul prec emax x y).
Proof. destruct x, y; simpl; tauto. Qed.

Lemma SFmul_zn_r x y : zn y -> zn (SFmul prec emax x y).
Proof. destruct x, y; simpl; tauto. Qed.

Lemma SFadd_zn x y : zn x -> zn y -> zn (SFadd prec emax x y).
Proof. destruct x as [[]| | |], y as [[]| | |]; simpl; tauto. Qed.

Lemma SFsqrt_zn x : zn x -> zn (SFsqrt prec emax x).
Proof. destruct x; simpl; tauto. Qed.

Lemma SFdiv_zn x y : zn x -> zn y -> SFdiv prec emax x y = S754_nan.
Proof. destruct x, y; simpl; tauto. Qed.

Lemma is_zero_zn (x : float) : PrimFloat.is_zero x = true -> zn (Prim2SF x).
Proof.
  unfold PrimFloat.is_zero. rewrite eqb_spec.
  change (Prim2SF 0) with (S754_zero false).
  destruct (Prim2SF x) as [s|s| |s m e]; simpl; try tauto; try discriminate;
    destruct s; discriminate.
Qed.

Lemma nan_is_nan (x : float) : Prim2SF x = S754_nan -> PrimFloat.is_nan x = true.
Proof.
  intros H. unfold PrimFloat.is_nan. rewrite eqb_spec, H. reflexivity.
Qed.

(** The three accumulators of the loop of [cosineSimilarity]. *)
Definition step (acc : float * float * float) (xy : float * float) : float * float * float :=
  let '(dotProduct, normA, normB) := acc in
  let '(x, y) := xy in
  (dotProduct + x * y, normA + x * x, normB + y * y)%float.

Lemma loop_zero_left (l : list (float * float)) :
  Forall (fun xy => PrimFloat.is_zero (fst xy) = true) l ->
  forall d na nb d' na' nb',
    zn (Prim2SF d) -> zn (Prim2SF na) ->
    fold_left step l (d, na, nb) = (d', na', nb') ->
    zn (Prim2SF d') /\ zn (Prim2SF na').
Proof.
  induction 1 as [|[x y] l Hx _ IH]; intros d na nb d' na' nb' Hd Hna; simpl.
  - intros [= <- <- _]. tauto.
  - apply IH; rewrite add_spec, mul_spec; apply SFadd_zn; try assumption;
      apply SFmul_zn_l, is_zero_zn, Hx.
Qed.

Lemma loop_zero_right (l : list (float * float)) :
  Forall (fun xy => PrimFloat.is_zero (snd xy) = true) l ->
  forall d na nb d' na' nb',
    zn (Prim2SF d) -> zn (Prim2SF nb) ->
    fold_left step l (d, na, nb) = (d', na', nb') ->
    zn (Prim2SF d') /\ zn (Prim2SF nb').
Proof.
  induction 1 as [|[x y] l Hy _ IH]; intros d na nb d' na' nb' Hd Hnb; simpl.
  - intros [= <- _ <-]. tauto.
  - apply IH; rewrite add_spec, mul_spec; apply SFadd_zn; try assumption;
      apply SFmul_zn_r, is_zero_zn, Hy.
Qed.

Lemma combine_zero_left (a b : list float) :
  allZero a -> Forall (fun xy => PrimFloat.is_zero (fst xy) = true) (combine a b).
Proof.
  intros H. revert b. induction H as [|x a Hx _ IH]; intros [|y b]; simpl;
    constructor; auto.
Qed.

Lemma combine_zero_right (a b : list float) :
  allZero b -> Forall (fun xy => PrimFloat.is_zero (snd xy) = true) (combine a b).
Proof.
  intros H. revert a. induction H as [|y b Hy _ IH]; intros [|x a]; simpl;
    constructor; auto.
Qed.

Lemma cosineSimilarity_eq (a b : list float) :
  List.length a = List.length b ->
  exists d na nb,
    fold_left step (combine a b) (0, 0, 0)%float = (d, na, nb)
    /\ cosineSimilarity a b = Ok (d / (PrimFloat.sqrt na * PrimFloat.sqrt nb))%float.
Proof.
  intros Hlen. unfold cosineSimilarity.
  rewrite (proj2 (Nat.eqb_eq _ _) Hlen). simpl negb. cbv iota.
  fold step.
  destruct (fold_left step (combine a b) (0, 0, 0)%float) as [[d na] nb].
  exists d, na, nb. split; reflexivity.
Qed.

Lemma cosineSimilarity_nan (a b : list float) :
  List.length a = List.length b -> allZero a \/ allZero b ->
  exists r, cosineSimilarity a b = Ok r /\ PrimFloat.is_nan r = true.
Proof.
  intros Hlen Hzero.
  destruct (cosineSimilarity_eq a b Hlen) as (d & na & nb & Hloop & ->).
  eexists. split; [reflexivity|].
  apply nan_is_nan. rewrite div_spec, mul_spec, !sqrt_spec.
  assert (Hz : zn (Prim2SF 0)) by exact I.
  destruct Hzero as [Ha|Hb].
  - destruct (loop_zero_left _ (combine_zero_left a b Ha) _ _ _ _ _ _ Hz Hz Hloop)
      as [Hd Hna].
    apply SFdiv_zn; [exact Hd|]. apply SFmul_zn_l, SFsqrt_zn, Hna.
  - destruct (loop_zero_right _ (combine_zero_right a b Hb) _ _ _ _ _ _ Hz Hz Hloop)
      as [Hd Hnb].
    apply SFdiv_zn; [exact Hd|]. apply SFmul_zn_r, SFsqrt_zn, Hnb.
Qed.

(** C10. For two vectors of equal length of which one is all zeros,
    [cosineSimilarity] does not throw and returns NaN, and ranking a chunk
    with such an embedding returns it with that NaN as its similarity. *)
Theorem cosineSimilarity_zero_vector (a b : list float) (text chunkId : jsstring) :
  List.length a = List.length b -> allZero a \/ allZero b ->
  exists r,
    cosineSimilarity a b = Ok r
    /\ PrimFloat.is_nan r = true
    /\ rankChunks a [EmbeddingResult.mk b text chunkId] 1
       = Ok [Scored.mk (EmbeddingResult.mk b text chunkId) r].
Proof.
  intros Hlen Hzero.
  destruct (cosineSimilarity_nan a b Hlen Hzero) as (r & Hcos & Hnan).
  exists r. repeat split; try assumption.
  unfold rankChunks. simpl. rewrite Hcos. reflexivity.
Qed.

Lemma cosineSimilarity_zero_vector_witness :
  exists r,
    cosineSimilarity [1; 2]%float [0; 0]%float = Ok r
    /\ PrimFloat.is_nan r = true
    /\ rankChunks [1; 2]%float [Samples.embedded Samples.chunkA [0; 0]%float] 1
       = Ok [Scored.mk (Samples.embedded Samples.chunkA [0; 0]%float) r].
Proof.
  apply (cosineSimilarity_zero_vector [1; 2]%float [0; 0]%float).
  - reflexivity.
  - right. repeat constructor.
Defined.

End CosineProofs.

(** ** Finite binary64 numbers are ordered by their value

    What the comparator of the ranking needs of IEEE arithmetic, from the
    specification of the primitive floats: comparisons of finite numbers
    agree with the comparison of their values, and the sign of a computed
    difference is the sign of the exact one. *)

Module FloatOrder.

(** Zero or a finite number, as a specification float. *)
Definition fin (x : spec_float) : Prop :=
  match x with
  | S754_zero _ | S754_finite _ _ _ => True
  | _ => False
  end.

(** The value of a finite binary64 number, in units of [2^-1074]. *)
Definition Zval (x : spec_float) : Z :=
  match x with
  | S754_finite s m e => cond_Zopp s (Zpos m * 2 ^ (e + 1074))
  | _ => 0
  end.

Lemma digits2_pos_bounds (m : positive) :
  2 ^ (Zpos (digits2_pos m) - 1) <= Zpos m < 2 ^ Zpos (digits2_pos m).
Proof.
  induction m as [m IH|m IH|]; cbn [digits2_pos].
  - rewrite Pos2Z.inj_succ.
    replace (Z.succ (Zpos (digits2_pos m)) - 1) with (Z.succ (Zpos (digits2_pos m) - 1)) by lia.
    rewrite !Z.pow_succ_r by lia. lia.
  - rewrite Pos2Z.inj_succ.
    replace (Z.succ (Zpos (digits2_pos m)) - 1) with (Z.succ (Zpos (digits2_pos m) - 1)) by lia.
    rewrite !Z.pow_succ_r by lia. lia.
  - simpl. lia.
Qed.

(** What validity says of a finite number. *)
Lemma bounded_inv (m : positive) (e : Z) :
  bounded prec emax m e = true ->
  -1074 <= e
  /\ Zpos m < 2 ^ 53
  /\ (e = -1074 \/ 2 ^ 52 <= Zpos m).
Proof.
  unfold bounded, canonical_mantissa, fexp, SpecFloat.emin, prec, emax.
  intros H. apply andb_true_iff in H. destruct H as [H _].
  apply Z.eqb_eq in H.
  pose proof (digits2_pos_bounds m) as [Hlo Hhi].
  set (d := Zpos (digits2_pos m)) in *.
  assert (Hd : 0 < d) by (subst d; lia).
  assert (He : -1074 <= e) by lia.
  assert (Hd53 : d <= 53) by lia.
  split; [exact He|]. split.
  - eapply Z.lt_le_trans; [exact Hhi|]. apply Z.pow_le_mono_r; lia.
  - destruct (Z.eq_dec e (-1074)) as [|Hne]; [now left|right].
    assert (d = 53) by lia.
    replace 52 with (d - 1) by lia. exact Hlo.
Qed.

Lemma scaled_lt (m1 m2 e1 e2 : Z) :
  0 < m1 < 2 ^ 53 -> 2 ^ 52 <= m2 -> -1074 <= e1 < e2 ->
  m1 * 2 ^ (e1 + 1074) < m2 * 2 ^ (e2 + 1074).
Proof.
  change (2 ^ 53) with 9007199254740992.
  change (2 ^ 52) with 4503599627370496.
  intros H1 H2 He.
  replace (e2 + 1074) with ((e1 + 1074) + (e2 - e1)) by lia.
  rewrite (Z.pow_add_r 2 (e1 + 1074) (e2 - e1)) by lia.
  assert (HP : 0 < 2 ^ (e1 + 1074)) by (apply Z.pow_pos_nonneg; lia).
  assert (HQ : 2 ^ 1 <= 2 ^ (e2 - e1)) by (apply Z.pow_le_mono_r; lia).
  change (2 ^ 1) with 2 in HQ.
  revert HP HQ. generalize (2 ^ (e1 + 1074)) (2 ^ (e2 - e1)). intros P Q HP HQ.
  assert (A1 : m1 * P < 9007199254740992 * P) by (apply Z.mul_lt_mono_pos_r; lia).
  assert (A2 : P * 2 <= P * Q) by (apply Z.mul_le_mono_nonneg_l; lia).
  assert (A3 : 4503599627370496 * (P * Q) <= m2 * (P * Q))
    by (apply Z.mul_le_mono_nonneg_r; lia).
  lia.
Qed.

Lemma Zval_finite_pos (m : positive) (e : Z) :
  bounded prec emax m e = true -> 0 < Zpos m * 2 ^ (e + 1074).
Proof.
  intros H. apply bounded_inv in H.
  apply Z.mul_pos_pos; [lia|apply Z.pow_pos_nonneg; lia].
Qed.

Lemma compare_Zval (x y : spec_float) :
  valid_binary x = true -> valid_binary y = true ->
  fin x -> fin y ->
  SFcompare x y = Some (Zval x ?= Zval y).
Proof.
  destruct x as [sx|sx| |sx mx ex], y as [sy|sy| |sy my ey];
    cbn [SFcompare Zval fin SpecFloat.valid_binary];
    intros Hx Hy Fx Fy; try tauto; f_equal.
  - pose proof (Zval_finite_pos _ _ Hy) as P.
    destruct sy; cbn [cond_Zopp]; symmetry;
      [apply Z.compare_gt_iff|apply Z.compare_lt_iff]; lia.
  - pose proof (Zval_finite_pos _ _ Hx) as P.
    destruct sx; cbn [cond_Zopp]; symmetry;
      [apply Z.compare_lt_iff|apply Z.compare_gt_iff]; lia.
  - pose proof (Zval_finite_pos _ _ Hx) as Px.
    pose proof (Zval_finite_pos _ _ Hy) as Py.
    apply bounded_inv in Hx, Hy.
    destruct Hx as (Hex & Hmx & Hnx), Hy as (Hey & Hmy & Hny).
    assert (Hlt : forall m1 e1 m2 e2,
               -1074 <= e1 -> Zpos m1 < 2 ^ 53 -> (e2 = -1074 \/ 2 ^ 52 <= Zpos m2) ->
               e1 < e2 -> Zpos m1 * 2 ^ (e1 + 1074) < Zpos m2 * 2 ^ (e2 + 1074)).
    { intros m1 e1 m2 e2 H1 H2 H3 H4. apply scaled_lt; lia. }
    assert (Heq : forall m1 m2 e, -1074 <= e ->
               (Zpos m1 * 2 ^ (e + 1074) ?= Zpos m2 * 2 ^ (e + 1074)) = (m1 ?= m2)%positive).
    { intros m1 m2 e He. rewrite Pos2Z.inj_compare.
      symmetry. apply Zmult_compare_compat_r. apply Z.lt_gt, Z.pow_pos_nonneg; lia. }
    destruct sx, sy; cbn [cond_Zopp].
    + destruct (Z.compare_spec ex ey) as [->|He|He].
      * rewrite Z.compare_opp, Heq by lia.
        change (PosDef.Pos.compare_cont Eq mx my) with (mx ?= my)%positive.
        symmetry. apply Pos.compare_antisym.
      * symmetry. apply Z.compare_gt_iff.
        pose proof (Hlt mx ex my ey Hex Hmx Hny He). lia.
      * symmetry. apply Z.compare_lt_iff.
        pose proof (Hlt my ey mx ex Hey Hmy Hnx He). lia.
    + symmetry. apply Z.compare_lt_iff. lia.
    + symmetry. apply Z.compare_gt_iff. lia.
    + destruct (Z.compare_spec ex ey) as [->|He|He].
      * rewrite Heq by lia. reflexivity.
      * symmetry. apply Z.compare_lt_iff. apply Hlt; assumption.
      * symmetry. apply Z.compare_gt_iff. apply Hlt; assumption.
Qed.



(** *** Rounding a positive number never gives zero *)

Lemma shr_1_m (mrs : shr_record) :
  0 <= shr_m mrs -> shr_m (shr_1 mrs) = Z.div2 (shr_m mrs).
Proof.
  destruct mrs as [m r s]. cbn [shr_m shr_1].
  destruct m as [|p|p]; [reflexivity| |lia].
  intros _. destruct p; reflexivity.
Qed.

Lemma iter_shr_1_m (p : positive) :
  forall mrs, 0 <= shr_m mrs ->
    shr_m (iter_pos shr_1 p mrs) = shr_m mrs / 2 ^ Zpos p.
Proof.
  assert (Hhalf : forall mrs, 0 <= shr_m mrs ->
             shr_m (shr_1 mrs) = shr_m mrs / 2 ^ 1 /\ 0 <= shr_m (shr_1 mrs)).
  { intros mrs H. rewrite shr_1_m by exact H. rewrite Z.div2_div.
    split; [reflexivity|]. apply Z.div_pos; lia. }
  induction p as [p IH|p IH|]; intros mrs H; cbn [iter_pos].
  - destruct (Hhalf mrs H) as [E1 P1].
    rewrite IH; [rewrite IH by exact P1|rewrite IH by exact P1; apply Z.div_pos; [lia|apply Z.pow_pos_nonneg; lia]].
    rewrite E1, !Z.div_div by (try apply Z.pow_pos_nonneg; lia).
    f_equal. rewrite <- !Z.pow_add_r by lia. f_equal. lia.
  - rewrite IH; [rewrite IH by exact H|rewrite IH by exact H; apply Z.div_pos; [lia|apply Z.pow_pos_nonneg; lia]].
    rewrite Z.div_div by (try apply Z.pow_pos_nonneg; lia).
    f_equal. rewrite <- Z.pow_add_r by lia. f_equal. lia.
  - apply Hhalf. exact H.
Qed.

Lemma shr_record_of_loc_m (m : Z) (l : location) : shr_m (shr_record_of_loc m l) = m.
Proof. destruct l as [|[]]; reflexivity. Qed.

Lemma shr_fexp_pos (p : positive) (e : Z) (l : location) :
  -1074 <= e ->
  0 < shr_m (fst (shr_fexp prec emax (Zpos p) e l))
  /\ -1074 <= snd (shr_fexp prec emax (Zpos p) e l).
Proof.
  intros He. unfold shr_fexp, shr, fexp, SpecFloat.emin, prec, emax.
  cbn [Zdigits2].
  pose proof (digits2_pos_bounds p) as [Hlo _].
  set (d := Zpos (digits2_pos p)) in *.
  assert (Hd : 0 < d) by (subst d; lia).
  destruct (Z.max (d + e - 53) (3 - 1024 - 53) - e) as [|q|q] eqn:Hn;
    cbn [fst snd]; rewrite ?shr_record_of_loc_m; try (split; lia).
  rewrite iter_shr_1_m by (rewrite shr_record_of_loc_m; lia).
  rewrite shr_record_of_loc_m. split; [|lia].
  assert (Hq : Zpos q = d - 53) by lia.
  apply Z.div_str_pos. split; [apply Z.pow_pos_nonneg; lia|].
  eapply Z.le_trans; [|exact Hlo]. apply Z.pow_le_mono_r; lia.
Qed.

Lemma round_nearest_even_pos (m : Z) (l : location) :
  0 < m -> 0 < round_nearest_even m l.
Proof.
  intros H. unfold round_nearest_even.
  destruct l as [|[]]; try lia. destruct (Z.even m); lia.
Qed.

(** A strictly positive result: a positive finite number or [+infinity]. *)
Definition positive_sf (x : spec_float) : Prop :=
  match x with
  | S754_finite false _ _ | S754_infinity false => True
  | _ => False
  end.

Lemma binary_round_aux_pos (p : positive) (e : Z) (l : location) :
  -1074 <= e -> positive_sf (binary_round_aux prec emax false (Zpos p) e l).
Proof.
  intros He. unfold binary_round_aux.
  destruct (shr_fexp_pos p e l He) as [H1 H2].
  destruct (shr_fexp prec emax (Zpos p) e l) as [mrs' e'].
  cbn [fst snd] in H1, H2.
  pose proof (round_nearest_even_pos _ (loc_of_shr_record mrs') H1) as H3.
  destruct (round_nearest_even (shr_m mrs') (loc_of_shr_record mrs')) as [|p'|p'];
    try lia.
  destruct (shr_fexp_pos p' e' loc_Exact H2) as [H4 _].
  destruct (shr_fexp prec emax (Zpos p') e' loc_Exact) as [mrs'' e''].
  cbn [fst] in H4.
  destruct (shr_m mrs''); try lia.
  destruct (e'' <=? emax - prec); exact I.
Qed.

Lemma binary_round_pos (m : positive) (e : Z) :
  -1074 <= e -> positive_sf (binary_round prec emax false m e).
Proof.
  intros He. unfold binary_round, shl_align.
  set (e' := fexp prec emax (Zpos (digits2_pos m) + e)).
  assert (He' : -1074 <= e')
    by (subst e'; unfold fexp, SpecFloat.emin, prec, emax; lia).
  destruct (e' - e); apply binary_round_aux_pos; assumption.
Qed.

Lemma binary_round_aux_neg (m e : Z) (l : location) :
  SFltb (S754_zero false) (binary_round_aux prec emax true m e l) = false.
Proof.
  unfold binary_round_aux.
  destruct (shr_fexp prec emax m e l) as [mrs' e'].
  destruct (shr_fexp prec emax _ e' loc_Exact) as [mrs'' e''].
  destruct (shr_m mrs''); try reflexivity.
  destruct (e'' <=? emax - prec); reflexivity.
Qed.

Lemma binary_round_neg (m : positive) (e : Z) :
  SFltb (S754_zero false) (binary_round prec emax true m e) = false.
Proof.
  unfold binary_round.
  destruct (shl_align m e _) as [mz ez]. apply binary_round_aux_neg.
Qed.

Lemma positive_sf_ltb (x : spec_float) :
  positive_sf x -> SFltb (S754_zero false) x = true.
Proof. destruct x as [| [] | | [] ]; simpl; tauto. Qed.



(** *** The sign of a difference *)

Lemma iter_xO (d : positive) (m : positive) :
  Zpos (Pos.iter xO m d) = Zpos m * 2 ^ Zpos d.
Proof.
  induction d as [|d IH] using Pos.peano_ind.
  - cbn [Pos.iter]. rewrite Pos2Z.inj_xO. change (2 ^ 1) with 2. lia.
  - rewrite Pos.iter_succ, Pos2Z.inj_xO, IH, Pos2Z.inj_succ, Z.pow_succ_r by lia. lia.
Qed.

Lemma shl_align_fst (m : positive) (e ez : Z) :
  ez <= e -> Zpos (fst (shl_align m e ez)) = Zpos m * 2 ^ (e - ez).
Proof.
  intros H. unfold shl_align.
  destruct (ez - e) as [|d|d] eqn:Hd; cbn [fst]; try lia.
  - replace (e - ez) with 0 by lia. lia.
  - rewrite iter_xO. f_equal. f_equal. lia.
Qed.

Lemma aligned_Zval (s : bool) (m : positive) (e ez : Z) :
  -1074 <= ez <= e ->
  cond_Zopp s (Zpos (fst (shl_align m e ez))) * 2 ^ (ez + 1074)
  = Zval (S754_finite s m e).
Proof.
  intros H. rewrite shl_align_fst by lia. cbn [Zval].
  replace (e + 1074) with ((e - ez) + (ez + 1074)) by lia.
  rewrite (Z.pow_add_r 2 (e - ez) (ez + 1074)) by lia.
  destruct s; cbn [cond_Zopp]; lia.
Qed.

Lemma SFsub_sign (x y : spec_float) :
  valid_binary x = true -> valid_binary y = true -> fin x -> fin y ->
  SFltb (S754_zero false) (SFsub prec emax y x) = (Zval x <? Zval y).
Proof.
  destruct x as [sx|sx| |sx mx ex], y as [sy|sy| |sy my ey];
    cbn [fin SpecFloat.valid_binary]; intros Hx Hy Fx Fy; try tauto.
  - cbn [Zval]. destruct sx, sy; reflexivity.
  - pose proof (Zval_finite_pos _ _ Hy) as P.
    cbn [SFsub Zval]. destruct sy; cbn [cond_Zopp]; symmetry;
      [apply Z.ltb_ge|apply Z.ltb_lt]; lia.
  - pose proof (Zval_finite_pos _ _ Hx) as P.
    cbn [SFsub Zval]. destruct sx; cbn [cond_Zopp negb]; symmetry;
      [apply Z.ltb_lt|apply Z.ltb_ge]; lia.
  - pose proof (bounded_inv _ _ Hx) as (Hex & _).
    pose proof (bounded_inv _ _ Hy) as (Hey & _).
    cbn [SFsub].
    set (ez := Z.min ey ex).
    assert (Hez : -1074 <= ez <= ex /\ ez <= ey) by (subst ez; lia).
    pose proof (aligned_Zval sx mx ex ez ltac:(lia)) as Ax.
    pose proof (aligned_Zval sy my ey ez ltac:(lia)) as Ay.
    set (a := cond_Zopp sx (Zpos (fst (shl_align mx ex ez)))) in *.
    set (b := cond_Zopp sy (Zpos (fst (shl_align my ey ez)))) in *.
    assert (HP : 0 < 2 ^ (ez + 1074)) by (apply Z.pow_pos_nonneg; lia).
    rewrite <- Ax, <- Ay.
    revert HP. generalize (2 ^ (ez + 1074)). intros P HP.
    unfold binary_normalize.
    destruct (b - a) as [|p|p] eqn:Hd.
    + symmetry. apply Z.ltb_ge. assert (a = b) by lia. subst. lia.
    + rewrite positive_sf_ltb by (apply binary_round_pos; lia).
      symmetry. apply Z.ltb_lt. apply Z.mul_lt_mono_pos_r; lia.
    + rewrite binary_round_neg.
      symmetry. apply Z.ltb_ge. apply Z.mul_le_mono_nonneg_r; lia.
Qed.

(** *** Finite primitive floats are ordered by their value *)

Definition finite (x : float) : Prop := PrimFloat.is_finite x = true.

(** The value of a finite float, in units of [2^-1074]. *)
Definition val (x : float) : Z := Zval (Prim2SF x).

Lemma finite_fin (x : float) : finite x -> fin (Prim2SF x).
Proof.
  unfold finite, PrimFloat.is_finite, PrimFloat.is_nan, PrimFloat.is_infinity.
  rewrite !eqb_spec, abs_spec.
  change (Prim2SF infinity) with (S754_infinity false).
  destruct (Prim2SF x) as [s|s| |s m e]; cbn [fin]; try tauto.
  - destruct s; cbv; discriminate.
  - cbv. discriminate.
Qed.

Lemma compare_val (x y : float) :
  finite x -> finite y ->
  SFcompare (Prim2SF x) (Prim2SF y) = Some (val x ?= val y).
Proof.
  intros Hx Hy. apply compare_Zval; auto using Prim2SF_valid, finite_fin.
Qed.

Lemma ltb_val (x y : float) :
  finite x -> finite y -> (x <? y)%float = (val x <? val y).
Proof.
  intros Hx Hy. rewrite ltb_spec. unfold SFltb, Z.ltb.
  rewrite (compare_val x y Hx Hy). reflexivity.
Qed.

Lemma leb_val (x y : float) :
  finite x -> finite y -> (x <=? y)%float = (val x <=? val y).
Proof.
  intros Hx Hy. rewrite leb_spec. unfold SFleb, Z.leb.
  rewrite (compare_val x y Hx Hy). destruct (val x ?= val y); reflexivity.
Qed.

Lemma eqb_val (x y : float) :
  finite x -> finite y -> (x =? y)%float = (val x =? val y).
Proof.
  intros Hx Hy. rewrite eqb_spec. unfold SFeqb.
  rewrite (compare_val x y Hx Hy).
  destruct (Z.compare_spec (val x) (val y)) as [->|H|H]; symmetry.
  - apply Z.eqb_refl.
  - apply Z.eqb_neq. lia.
  - apply Z.eqb_neq. lia.
Qed.

(** An equality test between a finite float and one that is not is false. *)
Lemma fin_finite (x : float) : fin (Prim2SF x) -> finite x.
Proof.
  unfold finite, PrimFloat.is_finite, PrimFloat.is_nan, PrimFloat.is_infinity.
  rewrite !eqb_spec, abs_spec.
  change (Prim2SF infinity) with (S754_infinity false).
  destruct (Prim2SF x) as [s|s| |s m e]; cbn [fin]; try tauto; intros _.
  destruct s; unfold SFeqb; cbn [SFabs SFcompare];
    rewrite Z.compare_refl, Pos.compare_cont_refl; reflexivity.
Qed.

(** An equality test between a finite float and one that is not is false. *)
Lemma eqb_not_finite (x v : float) :
  finite x -> PrimFloat.is_finite v = false -> (x =? v)%float = false.
Proof.
  intros Hx Hv. apply finite_fin in Hx.
  assert (Fv : ~ fin (Prim2SF v)).
  { intros F. apply fin_finite in F. unfold finite in F. congruence. }
  rewrite eqb_spec. unfold SFeqb.
  destruct (Prim2SF x) as [s|s| |s m e], (Prim2SF v) as [s'|s'| |s' m' e'];
    cbn [fin] in *; try tauto; cbn [SFcompare]; try reflexivity;
    destruct s'; try destruct s; reflexivity.
Qed.

(** The comparator [(a, b) => b - a] of a descending sort is positive
    exactly when [a < b]. *)
Lemma sub_pos_val (a b : float) :
  finite a -> finite b -> (0 <? b - a)%float = (val a <? val b).
Proof.
  intros Ha Hb. rewrite ltb_spec, sub_spec.
  change (Prim2SF 0) with (S754_zero false).
  apply SFsub_sign; auto using Prim2SF_valid, finite_fin.
Qed.

End FloatOrder.

(** ** The sort *)

From Stdlib Require Import Sorting.Sorted Sorting.Permutation.

Module SortFacts.
Import AIProcessor.

Section Sorting.
Variable A : Type.
Variable gt : A -> A -> bool.

Lemma insert_perm (x : A) (l : list A) : Permutation (insert gt x l) (x :: l).
Proof.
  induction l as [|y t IH]; simpl; [reflexivity|].
  destruct (gt x y); [|reflexivity].
  rewrite IH. apply perm_swap.
Qed.

Lemma sort_perm (l : list A) : Permutation (sort gt l) l.
Proof.
  induction l as [|x t IH]; simpl; [reflexivity|].
  rewrite insert_perm. now constructor.
Qed.

Lemma sort_length (l : list A) : List.length (sort gt l) = List.length l.
Proof. apply Permutation_length, sort_perm. Qed.

(** On the elements of [D] the comparator is the strict order of a key. *)
Variable key : A -> Z.
Variable D : A -> Prop.
Hypothesis gt_key : forall x y, D x -> D y -> gt x y = (key x <? key y).

(** Descending keys. *)
Definition descending : list A -> Prop :=
  StronglySorted (fun a b => key b <= key a).

Lemma insert_descending (x : A) (l : list A) :
  D x -> Forall D l -> descending l -> descending (insert gt x l).
Proof.
  intros Dx. induction l as [|y t IH]; intros Dl Hs; simpl.
  - repeat constructor.
  - inversion Dl as [|? ? Dy Dt]; subst.
    inversion Hs as [|? ? Hst Hy]; subst.
    rewrite (gt_key x y Dx Dy).
    destruct (key x <? key y) eqn:Hlt.
    + apply Z.ltb_lt in Hlt. constructor; [apply IH; assumption|].
      eapply Permutation_Forall; [symmetry; apply insert_perm|].
      constructor; [lia|exact Hy].
    + apply Z.ltb_ge in Hlt. constructor; [exact Hs|].
      constructor; [exact Hlt|].
      eapply Forall_impl; [|exact Hy]. simpl. intros b Hb. lia.
Qed.

Lemma sort_Forall (P : A -> Prop) (l : list A) : Forall P l -> Forall P (sort gt l).
Proof. apply Permutation_Forall. symmetry. apply sort_perm. Qed.

Lemma sort_descending (l : list A) : Forall D l -> descending (sort gt l).
Proof.
  induction 1 as [|x t Dx Dt IH]; simpl; [constructor|].
  apply insert_descending; [exact Dx|apply sort_Forall; exact Dt|exact IH].
Qed.

(** Elements of equal key keep their order. *)
Lemma insert_stable (k : Z) (x : A) (l : list A) :
  D x -> Forall D l ->
  filter (fun a => key a =? k) (insert gt x l)
  = filter (fun a => key a =? k) (x :: l).
Proof.
  intros Dx. induction l as [|y t IH]; intros Dl; [reflexivity|].
  inversion Dl as [|? ? Dy Dt]; subst.
  cbn [insert]. rewrite (gt_key x y Dx Dy).
  destruct (key x <? key y) eqn:Hlt; [|reflexivity].
  apply Z.ltb_lt in Hlt.
  cbn [filter]. rewrite (IH Dt). cbn [filter].
  destruct (key x =? k) eqn:Hx; [|reflexivity].
  apply Z.eqb_eq in Hx.
  replace (key y =? k) with false by (symmetry; apply Z.eqb_neq; lia).
  reflexivity.
Qed.

Lemma sort_stable (k : Z) (l : list A) :
  Forall D l ->
  filter (fun a => key a =? k) (sort gt l) = filter (fun a => key a =? k) l.
Proof.
  induction 1 as [|x t Dx Dt IH]; [reflexivity|].
  cbn [sort fold_right]. fold (sort gt t).
  rewrite insert_stable by (try apply sort_Forall; assumption).
  cbn [filter]. now rewrite IH.
Qed.

End Sorting.

Lemma descending_firstn {A} (key : A -> Z) (n : nat) (l : list A) :
  descending A key l -> descending A key (firstn n l).
Proof.
  unfold descending. intros H. revert n.
  induction H as [|a l Hl IH Ha]; intros [|n]; simpl; try constructor.
  - apply IH.
  - apply Forall_forall. intros b Hb.
    apply (proj1 (Forall_forall _ _) Ha).
    rewrite <- (firstn_skipn n l). apply in_or_app. now left.
Qed.

End SortFacts.

(** ** Retrieval *)

Module RankingProofs.
Import JS AIProcessor FloatOrder SortFacts.

(** The search string of [findRelevantChunks]. *)
Definition searchQueryOf (metric : ESRSMetric.t) : jsstring :=
  ESRSMetric.label metric ++ lit " "
  ++ join (lit " ") (ESRSMetric.keywords metric) ++ lit " "
  ++ ESRSMetric.description metric.

(** The first two steps of [findRelevantChunks]: initialize, then embed the
    search string. *)
Definition queryEmbedding (env : Environment) (metric : ESRSMetric.t)
    : M env (list float) :=
  bind env (initialize env) (fun _ => generateEmbedding env (searchQueryOf metric)).

Definition mismatch : thrown := Error (lit "Vectors must have the same length").

Lemma findRelevantChunks_unfold env metric chunkEmbeddings topK w :
  findRelevantChunks env metric chunkEmbeddings topK w
  = match queryEmbedding env metric w with
    | (Ok q, w1) => match rankChunks q chunkEmbeddings topK with
                    | Ok ranked => (Ok ranked, w1)
                    | Err e => (Err e, w1)
                    end
    | (Err e, w1) => (Err e, w1)
    end.
Proof.
  unfold findRelevantChunks, queryEmbedding, bind, searchQueryOf.
  destruct (initialize env w) as [[[]|e] w0]; [|reflexivity].
  destruct (generateEmbedding env _ w0) as [[q|e] w1]; [|reflexivity].
  destruct (rankChunks q chunkEmbeddings topK); reflexivity.
Qed.

Lemma cosineSimilarity_cases (a b : list float) :
  (List.length a = List.length b /\ exists v, cosineSimilarity a b = Ok v)
  \/ (List.length a <> List.length b /\ cosineSimilarity a b = Err mismatch).
Proof.
  unfold cosineSimilarity.
  destruct (List.length a =? List.length b)%nat eqn:Hlen; simpl.
  - left. apply Nat.eqb_eq in Hlen. split; [exact Hlen|].
    destruct (fold_left _ (combine a b) _) as [[d na] nb]. eauto.
  - right. apply Nat.eqb_neq in Hlen. split; [exact Hlen|reflexivity].
Qed.

Lemma scoreAll_ok q chunkEmbeddings :
  Forall (fun c => List.length (EmbeddingResult.embedding c) = List.length q)
         chunkEmbeddings ->
  exists scored, scoreAll q chunkEmbeddings = Ok scored.
Proof.
  induction 1 as [|c rest Hc _ [scored IH]]; simpl; [eauto|].
  destruct (cosineSimilarity_cases q (EmbeddingResult.embedding c))
    as [[_ [v ->]]|[Hne _]]; [|congruence].
  rewrite IH. eauto.
Qed.

Lemma scoreAll_mismatch q chunkEmbeddings :
  Exists (fun c => List.length (EmbeddingResult.embedding c) <> List.length q)
         chunkEmbeddings ->
  scoreAll q chunkEmbeddings = Err mismatch.
Proof.
  induction 1 as [c rest Hc|c rest _ IH]; simpl.
  - destruct (cosineSimilarity_cases q (EmbeddingResult.embedding c))
      as [[Heq _]|[_ ->]]; [congruence|reflexivity].
  - destruct (cosineSimilarity_cases q (EmbeddingResult.embedding c))
      as [[_ [v ->]]|[_ ->]]; [|reflexivity].
    now rewrite IH.
Qed.

Lemma scoreAll_entries q chunkEmbeddings scored :
  scoreAll q chunkEmbeddings = Ok scored ->
  map Scored.entry scored = chunkEmbeddings
  /\ Forall (fun s => cosineSimilarity q (EmbeddingResult.embedding (Scored.entry s))
                      = Ok (Scored.similarity s)) scored.
Proof.
  revert scored. induction chunkEmbeddings as [|c rest IH]; intros scored; simpl.
  - intros [= <-]. split; constructor.
  - destruct (cosineSimilarity q (EmbeddingResult.embedding c)) as [v|] eqn:Hv;
      [|discriminate].
    destruct (scoreAll q rest) as [l|]; [|discriminate].
    intros [= <-]. destruct (IH l eq_refl) as [Hm Hs].
    split; simpl; [now rewrite Hm|constructor; assumption].
Qed.

Lemma sliceTo_nonneg {A} (l : list A) (k : Z) :
  0 <= k -> sliceTo l k = firstn (Z.to_nat k) l.
Proof.
  intros Hk. unfold sliceTo.
  replace (k <? 0) with false by (symmetry; apply Z.ltb_ge; lia).
  destruct (Z.le_gt_cases k (Z.of_nat (List.length l))).
  - now rewrite Z.min_l.
  - rewrite Z.min_r by lia. rewrite Nat2Z.id.
    rewrite !firstn_all2; try reflexivity; lia.
Qed.

Lemma sliceTo_length {A} (l : list A) (k : Z) :
  Z.of_nat (List.length (sliceTo l k))
  = if k <? 0 then Z.max (Z.of_nat (List.length l) + k) 0
    else Z.min k (Z.of_nat (List.length l)).
Proof.
  unfold sliceTo. rewrite length_firstn.
  destruct (k <? 0) eqn:Hk; [apply Z.ltb_lt in Hk|apply Z.ltb_ge in Hk]; lia.
Qed.

Lemma sliceTo_split {A} (l : list A) (k : Z) :
  exists rest, l = sliceTo l k ++ rest.
Proof. unfold sliceTo. eexists. symmetry. apply firstn_skipn. Qed.

(** The comparator of the ranking, on finite similarities. *)
Lemma bySimilarity_val (a b : Scored.t) :
  finite (Scored.similarity a) -> finite (Scored.similarity b) ->
  bySimilarity a b = (val (Scored.similarity a) <? val (Scored.similarity b)).
Proof. intros Ha Hb. unfold bySimilarity. now apply sub_pos_val. Qed.

Section WithEnvironment.
Variable env : Environment.

(** When the query embedding is [q]: an indexed embedding of another
    length makes [findRelevantChunks] throw, whatever [topK] is; when all
    have the length of [q] it returns. *)
Theorem findRelevantChunks_dimensions metric chunkEmbeddings topK w q w1 :
  queryEmbedding env metric w = (Ok q, w1) ->
  (Exists (fun c => List.length (EmbeddingResult.embedding c) <> List.length q)
          chunkEmbeddings ->
   findRelevantChunks env metric chunkEmbeddings topK w = (Err mismatch, w1))
  /\ (Forall (fun c => List.length (EmbeddingResult.embedding c) = List.length q)
             chunkEmbeddings ->
      exists ranked,
        findRelevantChunks env metric chunkEmbeddings topK w = (Ok ranked, w1)).
Proof.
  intros Hq. rewrite findRelevantChunks_unfold, Hq. unfold rankChunks. split.
  - intros H. now rewrite (scoreAll_mismatch _ _ H).
  - intros H. destruct (scoreAll_ok _ _ H) as [scored ->]. eauto.
Qed.

(** Whatever [topK] is, the entries returned are entries of the index,
    each taken at most once, and their number is [min(topK, n)] for
    [topK >= 0] and [max(n + topK, 0)] for a negative [topK]. *)
Theorem findRelevantChunks_members metric chunkEmbeddings topK w ranked w' :
  findRelevantChunks env metric chunkEmbeddings topK w = (Ok ranked, w') ->
  (exists rest, Permutation (map Scored.entry ranked ++ rest) chunkEmbeddings)
  /\ Z.of_nat (List.length ranked)
     = if topK <? 0
       then Z.max (Z.of_nat (List.length chunkEmbeddings) + topK) 0
       else Z.min topK (Z.of_nat (List.length chunkEmbeddings)).
Proof.
  rewrite findRelevantChunks_unfold.
  destruct (queryEmbedding env metric w) as [[q|e] w1]; [|discriminate].
  unfold rankChunks.
  destruct (scoreAll q chunkEmbeddings) as [scored|] eqn:Hs; [|discriminate].
  intros [= <- _].
  destruct (scoreAll_entries _ _ _ Hs) as [Hm _].
  split.
  - destruct (sliceTo_split (sort bySimilarity scored) topK) as [rest Hrest].
    exists (map Scored.entry rest).
    rewrite <- map_app, <- Hrest, <- Hm.
    apply Permutation_map, sort_perm.
  - rewrite sliceTo_length, sort_length, <- Hm, length_map. reflexivity.
Qed.

(** When [topK >= 0] and every similarity computed is finite, the result
    is the first [topK] entries of the full ranking, which is in descending
    order of similarity and keeps entries of equal similarity in their
    insertion order. *)
Theorem findRelevantChunks_ranked metric chunkEmbeddings topK w q w1 scored :
  queryEmbedding env metric w = (Ok q, w1) ->
  scoreAll q chunkEmbeddings = Ok scored ->
  Forall (fun s => finite (Scored.similarity s)) scored ->
  0 <= topK ->
  let ranking := sort bySimilarity scored in
  findRelevantChunks env metric chunkEmbeddings topK w
  = (Ok (firstn (Z.to_nat topK) ranking), w1)
  /\ StronglySorted
       (fun a b => (Scored.similarity b <=? Scored.similarity a)%float = true)
       ranking
  /\ (forall v,
        filter (fun s => (Scored.similarity s =? v)%float) ranking
        = filter (fun s => (Scored.similarity s =? v)%float) scored).
Proof.
  intros Hq Hs Hfin Hk ranking.
  set (key := fun s => val (Scored.similarity s)).
  set (D := fun s => finite (Scored.similarity s)).
  assert (Hgt : forall x y, D x -> D y -> bySimilarity x y = (key x <? key y))
    by (intros x y; apply bySimilarity_val).
  assert (Hrank : Forall D ranking) by (apply sort_Forall; exact Hfin).
  split; [|split].
  - rewrite findRelevantChunks_unfold, Hq. unfold rankChunks. rewrite Hs.
    now rewrite sliceTo_nonneg.
  - pose proof (sort_descending _ bySimilarity key D Hgt scored Hfin) as Hd.
    fold ranking in Hd. unfold descending in Hd.
    clear -Hd Hrank. induction Hd as [|a l Hl IH Ha]; constructor.
    + apply IH. now inversion Hrank.
    + inversion Hrank as [|? ? Da Dl]; subst.
      apply Forall_forall. intros b Hb.
      unfold D in *. rewrite leb_val; [|exact (proj1 (Forall_forall _ _) Dl b Hb)|exact Da].
      apply Z.leb_le. exact (proj1 (Forall_forall _ _) Ha b Hb).
  - intros v. destruct (PrimFloat.is_finite v) eqn:Hv.
    + pose proof (sort_stable _ bySimilarity key D Hgt (val v) scored Hfin) as Hst.
      fold ranking in Hst.
      assert (Heq : forall l, Forall D l ->
                 filter (fun s => (Scored.similarity s =? v)%float) l
                 = filter (fun a => key a =? val v) l).
      { intros l Hl. apply filter_ext_in. intros s Hin.
        apply eqb_val; [exact (proj1 (Forall_forall _ _) Hl s Hin)|exact Hv]. }
      rewrite (Heq _ Hrank), (Heq _ Hfin). exact Hst.
    + assert (Hnone : forall l, Forall D l ->
                 filter (fun s => (Scored.similarity s =? v)%float) l = []).
      { intros l Hl. induction Hl as [|s l Ds _ IH]; [reflexivity|].
        cbn [filter]. now rewrite (eqb_not_finite _ _ Ds Hv). }
      now rewrite (Hnone _ Hrank), (Hnone _ Hfin).
Qed.

End WithEnvironment.

(** *** The ranking *)

(** No entry comes before a more similar one. *)
Definition nonincreasing (l : list Scored.t) : Prop :=
  StronglySorted
    (fun a b => (Scored.similarity b <=? Scored.similarity a)%float = true) l.

Lemma sort_ranked (scored : list Scored.t) :
  Forall (fun s => finite (Scored.similarity s)) scored ->
  nonincreasing (sort bySimilarity scored).
Proof.
  intros Hfin.
  set (key := fun s => val (Scored.similarity s)).
  set (D := fun s => finite (Scored.similarity s)).
  assert (Hgt : forall x y, D x -> D y -> bySimilarity x y = (key x <? key y))
    by (intros x y; apply bySimilarity_val).
  assert (Hrank : Forall D (sort bySimilarity scored)) by (apply sort_Forall; exact Hfin).
  pose proof (sort_descending _ bySimilarity key D Hgt scored Hfin) as Hd.
  unfold descending in Hd. unfold nonincreasing.
  induction Hd as [|a l Hl IH Ha]; constructor.
  - apply IH. now inversion Hrank.
  - inversion Hrank as [|? ? Da Dl]; subst.
    apply Forall_forall. intros b Hb.
    unfold D in *. rewrite leb_val; [|exact (proj1 (Forall_forall _ _) Dl b Hb)|exact Da].
    apply Z.leb_le. exact (proj1 (Forall_forall _ _) Ha b Hb).
Qed.

Lemma sort_ties (scored : list Scored.t) (v : float) :
  Forall (fun s => finite (Scored.similarity s)) scored ->
  filter (fun s => (Scored.similarity s =? v)%float) (sort bySimilarity scored)
  = filter (fun s => (Scored.similarity s =? v)%float) scored.
Proof.
  intros Hfin.
  set (key := fun s => val (Scored.similarity s)).
  set (D := fun s => finite (Scored.similarity s)).
  assert (Hgt : forall x y, D x -> D y -> bySimilarity x y = (key x <? key y))
    by (intros x y; apply bySimilarity_val).
  assert (Hrank : Forall D (sort bySimilarity scored)) by (apply sort_Forall; exact Hfin).
  destruct (PrimFloat.is_finite v) eqn:Hv.
  - pose proof (sort_stable _ bySimilarity key D Hgt (val v) scored Hfin) as Hst.
    assert (Heq : forall l, Forall D l ->
               filter (fun s => (Scored.similarity s =? v)%float) l
               = filter (fun a => key a =? val v) l).
    { intros l Hl. apply filter_ext_in. intros s Hin.
      apply eqb_val; [exact (proj1 (Forall_forall _ _) Hl s Hin)|exact Hv]. }
    rewrite (Heq _ Hrank), (Heq _ Hfin). exact Hst.
  - assert (Hnone : forall l, Forall D l ->
               filter (fun s => (Scored.similarity s =? v)%float) l = []).
    { intros l Hl. induction Hl as [|s l Ds _ IH]; [reflexivity|].
      cbn [filter]. now rewrite (eqb_not_finite _ _ Ds Hv). }
    now rewrite (Hnone _ Hrank), (Hnone _ Hfin).
Qed.

Lemma ranked_app (a b : list Scored.t) :
  nonincreasing (a ++ b) ->
  nonincreasing a
  /\ forall x y, In x a -> In y b ->
                 (Scored.similarity y <=? Scored.similarity x)%float = true.
Proof.
  unfold nonincreasing. induction a as [|h a IH]; cbn [app]; intros H.
  - split; [constructor|]. intros x y [].
  - inversion H as [|? ? Hs Hh]; subst. destruct (IH Hs) as [Ha Hab].
    apply Forall_app in Hh. destruct Hh as [Hha Hhb].
    split; [constructor; assumption|].
    intros x y [<-|Hx] Hy.
    + exact (proj1 (Forall_forall _ _) Hhb y Hy).
    + now apply Hab.
Qed.

Section TopK.
Variable env : Environment.

(** C6, as amended. When [topK >= 0], the query is embedded, every indexed
    embedding has its length and every similarity computed is finite,
    [findRelevantChunks] returns [min(topK, n)] entries, so at most
    [topK]; each carries its cosine similarity to the query embedding; no
    entry comes before a more similar one; entries of equal similarity
    are in the order they have in the index; and an entry left out is no
    more similar than any entry returned. *)
Theorem findRelevantChunks_topK metric chunkEmbeddings topK w q w1 scored :
  queryEmbedding env metric w = (Ok q, w1) ->
  scoreAll q chunkEmbeddings = Ok scored ->
  Forall (fun s => finite (Scored.similarity s)) scored ->
  0 <= topK ->
  exists top rest,
    findRelevantChunks env metric chunkEmbeddings topK w = (Ok top, w1)
    /\ Z.of_nat (List.length top) = Z.min topK (Z.of_nat (List.length chunkEmbeddings))
    /\ Z.of_nat (List.length top) <= topK
    /\ Permutation (top ++ rest) scored
    /\ map Scored.entry scored = chunkEmbeddings
    /\ Forall (fun s => cosineSimilarity q (EmbeddingResult.embedding (Scored.entry s))
                        = Ok (Scored.similarity s)) scored
    /\ nonincreasing top
    /\ (forall x y, In x top -> In y rest ->
                    (Scored.similarity y <=? Scored.similarity x)%float = true)
    /\ (forall v,
          filter (fun s => (Scored.similarity s =? v)%float) scored
          = filter (fun s => (Scored.similarity s =? v)%float) top
            ++ filter (fun s => (Scored.similarity s =? v)%float) rest).
Proof.
  intros Hq Hs Hfin Hk.
  set (ranking := sort bySimilarity scored).
  exists (firstn (Z.to_nat topK) ranking), (skipn (Z.to_nat topK) ranking).
  destruct (scoreAll_entries _ _ _ Hs) as [Hm Hcos].
  pose proof (sort_ranked scored Hfin) as Hr. fold ranking in Hr.
  rewrite <- (firstn_skipn (Z.to_nat topK) ranking) in Hr.
  destruct (ranked_app _ _ Hr) as [Htop Hrest].
  assert (Hlen : Z.of_nat (List.length (firstn (Z.to_nat topK) ranking))
                 = Z.min topK (Z.of_nat (List.length chunkEmbeddings))).
  { rewrite length_firstn. unfold ranking.
    rewrite sort_length, <- Hm, length_map. lia. }
  split.
  { rewrite findRelevantChunks_unfold, Hq. unfold rankChunks. rewrite Hs.
    now rewrite sliceTo_nonneg. }
  split; [exact Hlen|]. split; [lia|].
  split; [rewrite firstn_skipn; apply sort_perm|].
  split; [exact Hm|]. split; [exact Hcos|]. split; [exact Htop|].
  split; [exact Hrest|].
  intros v. rewrite <- filter_app, firstn_skipn. symmetry. now apply sort_ties.
Qed.

End TopK.

End RankingProofs.

(** ** More about the chunker *)

Module ChunkerFacts.
Import JS DocumentProcessor RegexFacts ChunkerProofs.

(** [p] occurs in [s]. *)
Definition factor (p s : jsstring) : Prop := exists a b, s = a ++ p ++ b.

Lemma isPrefix_app (p b : jsstring) : isPrefix p (p ++ b) = true.
Proof.
  induction p as [|x p IH]; simpl; [reflexivity|].
  now rewrite N.eqb_refl, IH.
Qed.

Lemma includes_factor (p s : jsstring) : factor p s -> includes s p = true.
Proof.
  intros (a & b & ->). induction a as [|x a IH].
  - simpl app. destruct (p ++ b) eqn:E; simpl; rewrite <- ?E, isPrefix_app; reflexivity.
  - simpl. rewrite IH. apply orb_true_r.
Qed.

Lemma factor_refl (s : jsstring) : factor s s.
Proof. exists [], []. now rewrite app_nil_r. Qed.

Lemma factor_trans (a b c : jsstring) : factor a b -> factor b c -> factor a c.
Proof.
  intros (p & q & ->) (p' & q' & ->).
  exists (p' ++ p), (q ++ q'). now rewrite !app_assoc.
Qed.

Lemma factor_slice (s : jsstring) (a b : Z) : factor (slice s a b) s.
Proof.
  unfold slice. cbv zeta.
  match goal with
  | |- factor (firstn ?n (skipn ?k s)) s =>
      exists (firstn k s), (skipn n (skipn k s))
  end.
  now rewrite firstn_skipn, firstn_skipn.
Qed.

Lemma factor_trim (s : jsstring) : factor (trim s) s.
Proof.
  unfold trim.
  destruct (trimEnd_prefix (trimStart s)) as [post Hpost].
  destruct (dropWhile_suffix is_ws s) as [pre Hpre].
  exists pre, post. fold (trimStart s) in Hpre. now rewrite <- Hpost.
Qed.

Lemma factor_length (p s : jsstring) : factor p s -> len p <= len s.
Proof.
  intros (a & b & ->). unfold len. rewrite !length_app. lia.
Qed.

Lemma slice_length (s : jsstring) (a b : Z) :
  0 <= a -> 0 <= b -> len (slice s a b) <= Z.max 0 (b - a).
Proof.
  intros Ha Hb. unfold slice, len.
  replace (a <? 0) with false by (symmetry; apply Z.ltb_ge; lia).
  replace (b <? 0) with false by (symmetry; apply Z.ltb_ge; lia).
  rewrite length_firstn. fold (len s). lia.
Qed.

Lemma lastIndexIn_bound (c : char) (s : jsstring) :
  -1 <= lastIndexIn c s < len s.
Proof.
  unfold len. induction s as [|x t IH]; cbn [lastIndexIn List.length]; [lia|].
  destruct (0 <=? lastIndexIn c t) eqn:H; [apply Z.leb_le in H; lia|].
  destruct (N.eqb x c); lia.
Qed.

Lemma lastIndexOf_bound (s : jsstring) (c : char) (fromIndex : Z) :
  -1 <= lastIndexOf s c fromIndex <= Z.max fromIndex 0.
Proof.
  unfold lastIndexOf.
  pose proof (lastIndexIn_bound c (firstn (Z.to_nat (Z.max fromIndex 0 + 1)) s)) as H.
  unfold len in H. rewrite length_firstn in H. lia.
Qed.

(** The window that starts at [start] ends after [start] and at most one
    character past [start + maxChars]. *)
Lemma windowEnd_bounds (text : jsstring) (maxChars start : Z) :
  0 <= maxChars -> 0 <= start < len text ->
  start <= windowEnd text maxChars start <= start + maxChars + 1
  /\ windowEnd text maxChars start <= len text.
Proof.
  intros Hm Hs. unfold windowEnd.
  set (end_ := Z.min (start + maxChars) (len text)).
  destruct (end_ <? len text) eqn:Hlt; [|lia].
  apply Z.ltb_lt in Hlt.
  pose proof (lastIndexOf_bound text chr_dot end_) as Hd.
  pose proof (lastIndexOf_bound text chr_nl end_) as Hn.
  destruct (2 * start + maxChars <? 2 * Z.max _ _) eqn:Hb;
    [apply Z.ltb_lt in Hb|]; lia.
Qed.

(** What holds of every window's chunk holds of every candidate chunk. *)
Lemma chunkLoop_Forall (P : jsstring -> Prop) (text : jsstring) (maxChars overlap : Z) :
  (forall start, 0 <= start < len text ->
     P (trim (slice text start (windowEnd text maxChars start)))) ->
  forall fuel start chunks result,
    0 <= start -> Forall P chunks ->
    chunkLoop fuel text maxChars overlap start chunks = Some result ->
    Forall P result.
Proof.
  intros HP. induction fuel as [|fuel IH]; intros start chunks result Hs Hc; simpl.
  - destruct (start <? len text); [discriminate|]. now intros [= <-].
  - destruct (start <? len text) eqn:Hlt; [|now intros [= <-]].
    apply Z.ltb_lt in Hlt.
    pose proof (nextStart_increases text maxChars overlap start).
    apply IH; [lia|].
    apply Forall_app. split; [exact Hc|].
    constructor; [apply HP; lia|constructor].
Qed.

Lemma chunkText_Forall (P : jsstring -> Prop) (text : jsstring) (maxChars overlap : Z) :
  (len text <= maxChars -> P text) ->
  (maxChars < len text ->
   forall start, 0 <= start < len text ->
     let chunk := trim (slice text start (windowEnd text maxChars start)) in
     50 < len chunk -> P chunk) ->
  Forall P (chunkText text maxChars overlap).
Proof.
  intros Hshort Hlong.
  pose proof (chunkTextFuel_enough text maxChars overlap _ (le_n _)) as H.
  unfold chunkTextFuel in H.
  destruct (len text <=? maxChars) eqn:Hle.
  - apply Z.leb_le in Hle. injection H as <-. constructor; [auto|constructor].
  - apply Z.leb_gt in Hle.
    destruct (chunkLoop _ text maxChars overlap 0 []) as [candidates|] eqn:Hloop;
      [|discriminate].
    injection H as <-.
    apply (chunkLoop_Forall (fun c => 50 < len c -> P c)) in Hloop;
      [|intros start Hs; apply Hlong; assumption|lia|constructor].
    apply Forall_forall. intros c Hin. apply filter_In in Hin.
    destruct Hin as [Hin Hlen]. apply Z.ltb_lt in Hlen.
    exact (proj1 (Forall_forall _ _) Hloop c Hin Hlen).
Qed.

Lemma chunkText_bounded (text : jsstring) (maxChars overlap : Z) :
  0 <= maxChars ->
  Forall (fun chunk => len chunk <= maxChars + 1) (chunkText text maxChars overlap).
Proof.
  intros Hm. apply chunkText_Forall.
  - lia.
  - intros _ start Hs chunk _. subst chunk.
    pose proof (windowEnd_bounds text maxChars start Hm Hs) as [Hw _].
    pose proof (factor_length _ _ (factor_trim (slice text start (windowEnd text maxChars start)))).
    pose proof (slice_length text start (windowEnd text maxChars start)).
    lia.
Qed.

(** Every chunk is a piece of the text, verbatim. *)
Theorem chunkText_verbatim (text : jsstring) (maxChars overlap : Z) :
  Forall (fun chunk => includes text chunk = true) (chunkText text maxChars overlap).
Proof.
  apply chunkText_Forall.
  - intros _. apply includes_factor, factor_refl.
  - intros _ start _ chunk _. subst chunk.
    apply includes_factor.
    eapply factor_trans; [apply factor_trim|apply factor_slice].
Qed.

Lemma chunkText_trimmed (text : jsstring) (maxChars overlap : Z) :
  maxChars < len text ->
  Forall (fun chunk => trim chunk = chunk /\ 50 < len chunk)
         (chunkText text maxChars overlap).
Proof.
  intros Hlong. apply chunkText_Forall; [lia|].
  intros _ start _ chunk Hlen. subst chunk. split; [apply trim_trim|exact Hlen].
Qed.

(** For [maxChars >= 0] no chunk is longer than [maxChars + 1]. *)
Theorem chunkText_length_bound (text : jsstring) (maxChars overlap : Z) :
  0 <= maxChars ->
  Forall (fun chunk => len chunk <= maxChars + 1) (chunkText text maxChars overlap).
Proof. apply chunkText_bounded. Qed.

(** When the text is longer than [maxChars], every chunk is trimmed and has
    more than 50 characters. *)
Theorem chunkText_long_text (text : jsstring) (maxChars overlap : Z) :
  maxChars < len text ->
  Forall (fun chunk => trim chunk = chunk /\ 50 < len chunk)
         (chunkText text maxChars overlap).
Proof. apply chunkText_trimmed. Qed.

(** With [0 <= maxChars < 50] a text longer than [maxChars] gives no chunk
    at all. *)
Theorem chunkText_small_maxChars (text : jsstring) (maxChars overlap : Z) :
  0 <= maxChars < 50 -> maxChars < len text ->
  chunkText text maxChars overlap = [].
Proof.
  intros Hm Hlong.
  pose proof (chunkText_bounded text maxChars overlap (proj1 Hm)) as Hb.
  pose proof (chunkText_trimmed text maxChars overlap Hlong) as Hl.
  destruct (chunkText text maxChars overlap) as [|c l]; [reflexivity|].
  inversion Hb; inversion Hl; subst. lia.
Qed.

Lemma chunkText_length_bound_witness :
  Forall (fun chunk => len chunk <= 50 + 1) (chunkText overlong_input 50 10).
Proof. apply chunkText_length_bound. lia. Defined.

Lemma chunkText_long_text_witness :
  Forall (fun chunk => trim chunk = chunk /\ 50 < len chunk)
         (chunkText overlong_input 50 10).
Proof. apply chunkText_long_text. vm_compute. reflexivity. Defined.

Lemma chunkText_small_maxChars_witness :
  chunkText overlong_input 10 3 = [].
Proof. apply chunkText_small_maxChars; [lia|vm_compute; reflexivity]. Defined.

End ChunkerFacts.

(** ** More about the pipeline *)

Module PipelineFacts.
Import JS AIProcessor FloatOrder SortFacts CosineProofs ExtractionProofs.

(** *** Cosine similarity is symmetric *)

Lemma SFmul_comm (x y : spec_float) : SFmul prec emax x y = SFmul prec emax y x.
Proof.
  destruct x as [sx|sx| |sx mx ex], y as [sy|sy| |sy my ey]; cbn [SFmul];
    rewrite ?(xorb_comm sx sy); try reflexivity.
  now rewrite Pos.mul_comm, Z.add_comm.
Qed.

Lemma mul_comm (x y : float) : (x * y = y * x)%float.
Proof. apply Prim2SF_inj. rewrite !mul_spec. apply SFmul_comm. Qed.

Lemma loop_swap (l : list (float * float)) :
  forall d na nb,
    fold_left step (map (fun xy => (snd xy, fst xy)) l) (d, nb, na)
    = let '(d', na', nb') := fold_left step l (d, na, nb) in (d', nb', na').
Proof.
  induction l as [|[x y] l IH]; intros d na nb; [reflexivity|].
  cbn [map fold_left step fst snd]. rewrite (mul_comm y x). apply IH.
Qed.

Lemma combine_swap {A B} (a : list A) (b : list B) :
  combine b a = map (fun xy => (snd xy, fst xy)) (combine a b).
Proof.
  revert b. induction a as [|x a IH]; intros [|y b]; simpl; try reflexivity.
  now rewrite IH.
Qed.

(** [cosineSimilarity(a, b)] and [cosineSimilarity(b, a)] are the same
    result, bit for bit: the same number, or the same error. *)
Theorem cosineSimilarity_symmetric (a b : list float) :
  cosineSimilarity a b = cosineSimilarity b a.
Proof.
  destruct (Nat.eq_dec (List.length a) (List.length b)) as [Hlen|Hlen].
  - destruct (cosineSimilarity_eq a b Hlen) as (d & na & nb & Hab & ->).
    destruct (cosineSimilarity_eq b a (eq_sym Hlen)) as (d' & nb' & na' & Hba & ->).
    rewrite combine_swap, loop_swap, Hab in Hba.
    injection Hba as <- <- <-.
    now rewrite (mul_comm (PrimFloat.sqrt na) (PrimFloat.sqrt nb)).
  - unfold cosineSimilarity.
    rewrite (proj2 (Nat.eqb_neq _ _) Hlen).
    rewrite (proj2 (Nat.eqb_neq _ _) (fun H => Hlen (eq_sym H))). reflexivity.
Qed.

(** *** The selection of metrics *)

(** The selected metrics are the catalog metrics of priority at most 2, by
    ascending priority, those of equal priority in catalog order. *)
Theorem priorityMetrics_order (env : Environment) :
  let selected := filter (fun m => ESRSMetric.priority m <=? 2) (ESRS_METRICS env) in
  Permutation (priorityMetrics env) selected
  /\ Forall (fun m => ESRSMetric.priority m <= 2) (priorityMetrics env)
  /\ StronglySorted (fun a b => ESRSMetric.priority a <= ESRSMetric.priority b)
                    (priorityMetrics env)
  /\ (forall p, filter (fun m => ESRSMetric.priority m =? p) (priorityMetrics env)
                = filter (fun m => ESRSMetric.priority m =? p) selected).
Proof.
  intros selected. unfold priorityMetrics. fold selected.
  set (key := fun m => - ESRSMetric.priority m).
  assert (Hgt : forall x y : ESRSMetric.t, True -> True ->
                  byPriority x y = (key x <? key y)).
  { intros x y _ _. unfold byPriority, key.
    destruct (0 <? ESRSMetric.priority x - ESRSMetric.priority y) eqn:H;
      symmetry; [apply Z.ltb_lt; apply Z.ltb_lt in H|apply Z.ltb_ge; apply Z.ltb_ge in H];
      lia. }
  assert (Hall : Forall (fun _ : ESRSMetric.t => True) selected)
    by (apply Forall_forall; auto).
  repeat split.
  - apply sort_perm.
  - apply sort_Forall. apply Forall_forall. intros m Hm.
    apply filter_In in Hm. destruct Hm as [_ Hm]. now apply Z.leb_le.
  - pose proof (sort_descending _ byPriority key _ Hgt selected Hall) as Hd.
    unfold descending, key in Hd.
    induction Hd as [|a l _ IH Ha]; constructor; [exact IH|].
    eapply Forall_impl; [|exact Ha]. simpl. intros b Hb. lia.
  - intros p.
    pose proof (sort_stable _ byPriority key _ Hgt (- p) selected Hall) as Hs.
    assert (Heq : forall l : list ESRSMetric.t,
               filter (fun m => ESRSMetric.priority m =? p) l
               = filter (fun m => key m =? - p) l).
    { intros l. apply filter_ext. intros m. unfold key.
      destruct (ESRSMetric.priority m =? p) eqn:H; symmetry;
        [apply Z.eqb_eq; apply Z.eqb_eq in H|apply Z.eqb_neq; apply Z.eqb_neq in H]; lia. }
    rewrite !Heq. exact Hs.
Qed.

Section WithEnvironment.
Variable env : Environment.

(** *** Initialization *)

(** After [initialize] has succeeded, calling it again loads nothing and
    changes nothing; after it has thrown, the manager is still not
    initialized. *)
Theorem initialize_once w r w1 :
  initialize env w = (r, w1) ->
  match r with
  | Ok _ => initialize env w1 = (Ok tt, w1)
  | Err _ => isInitialized env (manager env w1) = false
  end.
Proof.
  intros H. destruct r as [u|e].
  - apply initialize_ready. eapply initialize_ok. exact H.
  - revert H.
    unfold initialize, bind, try_, getManager, setManager, external, ret, throw.
    destruct (isInitialized env (manager env w)) eqn:Hinit; [discriminate|].
    simpl.
    destruct (pipeline_feature_extraction env (ext env w)) as [[model|err] x1]; simpl.
    + destruct (pipeline_question_answering env x1) as [[model'|err] x2]; simpl;
        [discriminate|].
      intros [= _ <-]. exact Hinit.
    + intros [= _ <-]. exact Hinit.
Qed.

(** *** The QA answer *)

Lemma truthy_number_not_nan (x : option float) (v : float) :
  truthy_number x = Some v -> PrimFloat.is_nan v = false.
Proof.
  unfold truthy_number. destruct x as [y|]; [|discriminate].
  destruct (PrimFloat.is_zero y || PrimFloat.is_nan y)%bool eqn:H; [discriminate|].
  intros [= <-]. apply orb_false_iff in H. tauto.
Qed.

Lemma extractAnswer_not_nan question context w r w' :
  extractAnswer env question context w = (Ok r, w') ->
  PrimFloat.is_nan (QAResult.confidence r) = false.
Proof.
  unfold extractAnswer, bind, getManager, throw, external, ret.
  destruct (qaModel env (manager env w)) as [model|]; [|discriminate].
  destruct (call_qa env model question context (ext env w)) as [[out|err] x];
    [|discriminate].
  destruct (match out with QASingle r0 => Some r0 | QAArray rs => hd_error rs end)
    as [raw|]; [|discriminate].
  intros [= <- _]. cbn [QAResult.confidence].
  destruct (truthy_number (QARaw.score raw)) as [v|] eqn:Hs; cbn [orOpt orElse].
  - eapply truthy_number_not_nan; eassumption.
  - destruct (truthy_number (QARaw.confidence raw)) as [v|] eqn:Hc; cbn [orElse].
    + eapply truthy_number_not_nan; eassumption.
    + reflexivity.
Qed.

(** The number [v] is there and is neither zero nor NaN. *)
Definition usable (x : option float) (v : float) : Prop :=
  x = Some v /\ PrimFloat.is_zero v = false /\ PrimFloat.is_nan v = false.

(** The number is missing, zero or NaN. *)
Definition unusable (x : option float) : Prop :=
  x = None
  \/ exists v, x = Some v /\ (PrimFloat.is_zero v = true \/ PrimFloat.is_nan v = true).

Lemma truthy_number_usable x v : usable x v -> truthy_number x = Some v.
Proof. intros (-> & Hz & Hn). unfold truthy_number. now rewrite Hz, Hn. Qed.

Lemma truthy_number_unusable x : unusable x -> truthy_number x = None.
Proof.
  intros [->|(v & -> & [H|H])]; [reflexivity| |]; unfold truthy_number; rewrite H;
    [reflexivity|rewrite orb_true_r; reflexivity].
Qed.

(** The object that [extractAnswer] reads: the result itself, or the first
    element when the result is an array. *)
Definition read (out : QAOutput) (raw : QARaw.t) : Prop :=
  out = QASingle raw \/ exists rest, out = QAArray (raw :: rest).

(** When [extractAnswer] returns, the QA model was called and returned; the
    confidence is the [score] of what it returned when that is there and
    is neither zero nor NaN, else the [confidence] field under the same
    condition, else 0; it is never NaN. *)
Theorem extractAnswer_confidence question context w r w' :
  extractAnswer env question context w = (Ok r, w') ->
  exists model out x raw,
    qaModel env (manager env w) = Some model
    /\ call_qa env model question context (ext env w) = (Ok out, x)
    /\ read out raw
    /\ (forall v, usable (QARaw.score raw) v -> QAResult.confidence r = v)
    /\ (forall v, unusable (QARaw.score raw) -> usable (QARaw.confidence raw) v ->
                  QAResult.confidence r = v)
    /\ (unusable (QARaw.score raw) -> unusable (QARaw.confidence raw) ->
        QAResult.confidence r = 0%float)
    /\ PrimFloat.is_nan (QAResult.confidence r) = false.
Proof.
  intros Hrun. pose proof (extractAnswer_not_nan _ _ _ _ _ Hrun) as Hnan.
  revert Hrun. unfold extractAnswer, bind, getManager, throw, external, ret.
  destruct (qaModel env (manager env w)) as [model|] eqn:Hmodel; [|discriminate].
  destruct (call_qa env model question context (ext env w)) as [[out|err] x] eqn:Hcall;
    [|discriminate].
  intros Hrun.
  assert (Hraw : exists raw,
             read out raw
             /\ QAResult.confidence r
                = orElse (orOpt (truthy_number (QARaw.score raw))
                                (truthy_number (QARaw.confidence raw))) 0%float).
  { destruct out as [raw|[|raw rest]]; cbn [hd_error] in Hrun; [|discriminate|];
      injection Hrun as <- _; exists raw; (split; [|reflexivity]).
    - left. reflexivity.
    - right. exists rest. reflexivity. }
  destruct Hraw as (raw & Hread & Hconf).
  exists model, out, x, raw. repeat split; try assumption.
  - intros v Hv. rewrite Hconf, (truthy_number_usable _ _ Hv). reflexivity.
  - intros v Hs Hv.
    rewrite Hconf, (truthy_number_unusable _ Hs), (truthy_number_usable _ _ Hv).
    reflexivity.
  - intros Hs Hc.
    rewrite Hconf, (truthy_number_unusable _ Hs), (truthy_number_unusable _ Hc).
    reflexivity.
Qed.

(** *** What every extraction of a run satisfies *)

(** An extraction either has a value, the answer it was parsed from and a
    confidence that is a number, or has none of them, confidence 0, no
    evidence and an explanation; its evidence chunk, if any, is one of
    [documentChunks]. *)
Definition wellFormed (documentChunks : list DocumentChunk.t) (e : MetricExtraction.t)
    : Prop :=
  PrimFloat.is_nan (MetricExtraction.confidence e) = false
  /\ MetricExtraction.isModelled e = false
  /\ MetricExtraction.explanation e <> None
  /\ (forall chunk, MetricExtraction.evidenceChunk e = Some chunk ->
                    In chunk documentChunks)
  /\ ((MetricExtraction.value e <> None /\ MetricExtraction.evidenceSpan e <> None)
      \/ (MetricExtraction.value e = None /\ MetricExtraction.units e = None
          /\ MetricExtraction.evidenceSpan e = None
          /\ MetricExtraction.evidenceChunk e = None
          /\ MetricExtraction.confidence e = 0%float)).

Lemma wellFormed_failed documentChunks metric why :
  wellFormed documentChunks (failed metric why).
Proof.
  unfold wellFormed, failed. cbn. repeat split; try discriminate.
  right. repeat split.
Qed.

Lemma extractMetricValue_wellFormed metric relevantChunks documentChunks w e w' :
  extractMetricValue env metric relevantChunks documentChunks w = (Ok e, w') ->
  wellFormed documentChunks e.
Proof.
  unfold extractMetricValue, bind, try_, ret.
  destruct (initialize env w) as [[[]|err] w1]; [|discriminate].
  destruct (len (trim _) =? 0).
  - intros [= <- _]. apply wellFormed_failed.
  - destruct (extractAnswer env _ _ w1) as [[qa|err] w2] eqn:Hqa.
    + apply extractAnswer_not_nan in Hqa.
      destruct (parseMetricAnswer (QAResult.answer qa) metric) as [value units] eqn:Hp.
      assert (Hv : value <> None).
      { revert Hp. unfold parseMetricAnswer.
        destruct (Regex.match_ re_numeric _); intros [= <- _]; discriminate. }
      intros [= <- _]. unfold wellFormed. cbn.
      repeat split; try assumption; try discriminate.
      * intros chunk. apply findEvidenceChunk_In.
      * left. split; [exact Hv|discriminate].
    + intros [= <- _]. apply wellFormed_failed.
Qed.

Lemma extractFrom_Forall (P : MetricExtraction.t -> Prop)
    total chunkEmbeddings documentChunks onProgress :
  (forall metric error,
     P (failed metric (lit "Extraction failed: " ++ messageOf error))) ->
  (forall metric w relevantChunks w1 e w2,
     findRelevantChunks env metric chunkEmbeddings 3 w = (Ok relevantChunks, w1) ->
     extractMetricValue env metric (map Scored.entry relevantChunks) documentChunks w1
     = (Ok e, w2) ->
     P e) ->
  forall metrics i extractions w l w',
    Forall P extractions ->
    extractFrom env total i metrics chunkEmbeddings documentChunks onProgress
                extractions w = (Ok l, w') ->
    Forall P l.
Proof.
  intros Hfailed Hvalue.
  induction metrics as [|metric rest IH]; intros i extractions w l w' Hacc;
    cbn [extractFrom].
  - intros [= <- _]. exact Hacc.
  - unfold bind at 1.
    destruct (match onProgress with
              | Some callback => notify env (callback (ESRSMetric.label metric) _)
              | None => ret env tt
              end w) as [[[]|err] w0]; [|discriminate].
    unfold bind at 1. unfold try_, bind at 1.
    destruct (findRelevantChunks env metric chunkEmbeddings 3 w0)
      as [[relevantChunks|err] w1] eqn:Hfind.
    + unfold bind at 1.
      destruct (extractMetricValue env metric (map Scored.entry relevantChunks)
                  documentChunks w1) as [[e|err] w2] eqn:He; unfold ret at 1.
      * apply IH. apply Forall_app. split; [exact Hacc|].
        constructor; [eapply Hvalue; eassumption|constructor].
      * apply IH. apply Forall_app. split; [exact Hacc|].
        constructor; [apply Hfailed|constructor].
    + unfold ret at 1. apply IH. apply Forall_app. split; [exact Hacc|].
      constructor; [apply Hfailed|constructor].
Qed.

Lemma extractAllMetrics_inv documentChunks onProgress w r w' :
  extractAllMetrics env documentChunks onProgress w = (Ok r, w') ->
  exists chunkEmbeddings cb w0 w1 w2,
    generateChunkEmbeddings env documentChunks cb w0 = (Ok chunkEmbeddings, w1)
    /\ extractFrom env (List.length (priorityMetrics env)) 0 (priorityMetrics env)
         chunkEmbeddings documentChunks onProgress [] w1
       = (Ok (ExtractionResult.extractions r), w2)
    /\ ExtractionResult.totalChunks r = Z.of_nat (List.length documentChunks).
Proof.
  unfold extractAllMetrics. unfold bind at 1. cbv beta iota.
  unfold bind at 1.
  match goal with
  | |- context [generateChunkEmbeddings env documentChunks ?cb w] =>
      destruct (generateChunkEmbeddings env documentChunks cb w)
        as [[chunkEmbeddings|err] w1] eqn:Hgen; [|discriminate];
      intros H; exists chunkEmbeddings, cb, w, w1
  end.
  revert H. unfold bind at 1.
  destruct (extractFrom env _ 0 (priorityMetrics env) chunkEmbeddings documentChunks
              onProgress [] w1) as [[l|err] w2] eqn:Hloop; [|discriminate].
  unfold bind, ret. simpl. intros [= <- _]. exists w2.
  split; [exact Hgen|]. split; reflexivity.
Qed.

(** Every extraction that [extractAllMetrics] returns is well formed; in
    particular its evidence chunk, if any, is one of the chunks of the
    run. *)
Theorem extractAllMetrics_wellFormed documentChunks onProgress w r w' :
  extractAllMetrics env documentChunks onProgress w = (Ok r, w') ->
  Forall (wellFormed documentChunks) (ExtractionResult.extractions r).
Proof.
  intros H. apply extractAllMetrics_inv in H.
  destruct H as (chunkEmbeddings & cb & w0 & w1 & w2 & _ & Hloop & _).
  eapply extractFrom_Forall; [| |constructor|exact Hloop].
  - intros metric error. apply wellFormed_failed.
  - intros metric v relevantChunks v1 e v2 _ He.
    eapply extractMetricValue_wellFormed. exact He.
Qed.

(** *** The embedding index *)

(** The id and text of a chunk, and of an index entry. *)
Definition chunkTag (chunk : DocumentChunk.t) : jsstring * jsstring :=
  (DocumentChunk.id chunk, DocumentChunk.text chunk).
Definition entryTag (r : EmbeddingResult.t) : jsstring * jsstring :=
  (EmbeddingResult.chunkId r, EmbeddingResult.text r).

(** Whether a call returned. *)
Definition returned {A : Type} (r : result A) : bool :=
  match r with Ok _ => true | Err _ => false end.

(** [isInitialized] is set only after both models were stored. *)
Definition coherent (w : World env) : Prop :=
  isInitialized env (manager env w) = true ->
  embeddingModel env (manager env w) <> None.

Lemma initialize_loaded w u w' :
  coherent w -> initialize env w = (Ok u, w') ->
  embeddingModel env (manager env w') <> None.
Proof.
  unfold coherent, initialize, bind, try_, getManager, setManager, external, ret, throw.
  destruct (isInitialized env (manager env w)) eqn:Hinit.
  - intros Hc [= _ <-]. apply Hc. reflexivity.
  - simpl. intros _.
    destruct (pipeline_feature_extraction env (ext env w)) as [[model|err] x1]; simpl;
      [|discriminate].
    destruct (pipeline_question_answering env x1) as [[model'|err] x2]; simpl;
      [|discriminate].
    intros [= _ <-]. simpl. discriminate.
Qed.

(** The loop pushes an entry for a chunk exactly when the model embeds its
    text, whatever the callback does. *)
Lemma embedFrom_index total onProgress embeds :
  (forall model text x, returned (fst (call_embedding env model text x)) = embeds text) ->
  forall chunks i results w,
    embeddingModel env (manager env w) <> None ->
    exists new w',
      embedFrom env total i chunks onProgress results w = (Ok (results ++ new), w')
      /\ map entryTag new
         = map chunkTag (filter (fun chunk => embeds (DocumentChunk.text chunk)) chunks).
Proof.
  intros Hembeds.
  induction chunks as [|chunk rest IH]; intros i results w Hmodel; cbn [embedFrom].
  - exists [], w. rewrite app_nil_r. split; reflexivity.
  - unfold bind at 1. unfold try_, bind at 1.
    destruct (generateEmbedding env (DocumentChunk.text chunk) w) as [[embedding|err] w1] eqn:He;
      pose proof (generateEmbedding_manager _ _ _ _ _ He) as Hm;
      assert (Hmodel1 : embeddingModel env (manager env w1) <> None)
        by (rewrite Hm; exact Hmodel);
      revert He; unfold generateEmbedding, bind, getManager, external;
      destruct (embeddingModel env (manager env w)) as [model|]; [|contradiction| |contradiction];
      pose proof (Hembeds model (DocumentChunk.text chunk) (ext env w)) as Hdecides;
      destruct (call_embedding env model (DocumentChunk.text chunk) (ext env w)) as [r x];
      intros [= -> _]; simpl in Hdecides; cbn [filter]; rewrite <- Hdecides.
    + set (r := EmbeddingResult.mk embedding (DocumentChunk.text chunk)
                                   (DocumentChunk.id chunk)).
      assert (Hnext : forall w0,
                 embeddingModel env (manager env w0) <> None ->
                 exists new w',
                   embedFrom env total (S i) rest onProgress (results ++ [r]) w0
                   = (Ok (results ++ new), w')
                   /\ map entryTag new
                      = chunkTag chunk
                        :: map chunkTag
                             (filter (fun chunk => embeds (DocumentChunk.text chunk)) rest)).
      { intros w0 H0. destruct (IH (S i) (results ++ [r]) w0 H0) as (new & w' & -> & Hnew).
        exists (r :: new), w'. rewrite <- app_assoc. split; [reflexivity|].
        cbn [map]. rewrite Hnew. reflexivity. }
      destruct onProgress as [callback|];
        unfold try_, bind, notify, external, ret; simpl;
        [destruct (callback _ (ext env w1)) as [[[]|e] x0]; simpl|];
        apply Hnext; simpl; exact Hmodel1.
    + unfold ret. apply IH. exact Hmodel1.
Qed.

(** Once the models are loaded, [generateChunkEmbeddings] returns for every
    chunk list and every callback; when [embeds] tells which texts the
    embedding model can embed, the index holds, in chunk order, exactly one
    entry with the id and text of each chunk whose text it embeds: a chunk
    whose embedding fails is left out and does not end the run. *)
Theorem generateChunkEmbeddings_index chunks onProgress embeds w :
  coherent w ->
  fst (initialize env w) = Ok tt ->
  (forall model text x, returned (fst (call_embedding env model text x)) = embeds text) ->
  exists results w',
    generateChunkEmbeddings env chunks onProgress w = (Ok results, w')
    /\ map entryTag results
       = map chunkTag (filter (fun chunk => embeds (DocumentChunk.text chunk)) chunks).
Proof.
  intros Hc Hinit Hembeds.
  destruct (initialize env w) as [r0 w0] eqn:Hi. simpl in Hinit. subst r0.
  unfold generateChunkEmbeddings, bind. rewrite Hi.
  destruct (embedFrom_index (List.length chunks) onProgress embeds Hembeds chunks 0%nat []
              w0 (initialize_loaded _ _ _ Hc Hi)) as (new & w' & Hrun & Hnew).
  exists new, w'. split; [exact Hrun|exact Hnew].
Qed.

(** *** A run without chunks *)

Definition noContext (e : MetricExtraction.t) : Prop :=
  MetricExtraction.value e = None
  /\ MetricExtraction.confidence e = 0%float
  /\ MetricExtraction.evidenceChunk e = None
  /\ (MetricExtraction.explanation e = Some (lit "No relevant context found")
      \/ exists message,
           MetricExtraction.explanation e = Some (lit "Extraction failed: " ++ message)).

(** With an empty chunk list every extraction is a gap: no value,
    confidence 0, no evidence, and the explanation that no context was
    found (or that the query could not be embedded); [totalChunks] is 0. *)
Theorem extractAllMetrics_no_chunks onProgress w r w' :
  extractAllMetrics env [] onProgress w = (Ok r, w') ->
  ExtractionResult.totalChunks r = 0
  /\ Forall noContext (ExtractionResult.extractions r).
Proof.
  intros H. apply extractAllMetrics_inv in H.
  destruct H as (chunkEmbeddings & cb & w0 & w1 & w2 & Hgen & Hloop & Htotal).
  split; [exact Htotal|].
  assert (chunkEmbeddings = []) as ->.
  { revert Hgen. unfold generateChunkEmbeddings, bind.
    destruct (initialize env w0) as [[[]|err] w3]; [|discriminate].
    cbn. unfold ret. now intros [= <- _]. }
  eapply extractFrom_Forall; [| |constructor|exact Hloop].
  - intros metric error. unfold noContext, failed. cbn. repeat split. right. eauto.
  - intros metric v relevantChunks v1 e v2 Hfind.
    assert (relevantChunks = []) as ->.
    { revert Hfind. unfold findRelevantChunks, bind.
      destruct (initialize env v) as [[[]|err] v0]; [|discriminate].
      destruct (generateEmbedding env _ v0) as [[q|err] v3]; [|discriminate].
      unfold rankChunks. cbn. unfold ret. now intros [= <- _]. }
    unfold extractMetricValue, bind. cbn [map join trim].
    destruct (initialize env v1) as [[[]|err] v0]; [|discriminate].
    cbn. unfold ret. intros [= <- _].
    unfold noContext, failed. cbn. repeat split. now left.
Qed.

End WithEnvironment.

End PipelineFacts.

(** ** The properties above in the sample worlds *)

Module SampleRuns.
Import JS AIProcessor FloatOrder SortFacts RankingProofs PipelineFacts.

(** As [Samples.working], except that the text of [Samples.chunkB] cannot be
    embedded. *)
Definition flaky : Environment :=
  {| Ext := unit;
     EmbeddingModel := unit;
     QAModel := unit;
     pipeline_feature_extraction := fun x => (Ok tt, x);
     pipeline_question_answering := fun x => (Ok tt, x);
     call_embedding := fun _ text x =>
       if JS.eqb text (DocumentChunk.text Samples.chunkB)
       then (Err (Error (lit "out of memory")), x)
       else (Ok [1; 0]%float, x);
     call_qa := fun _ _ _ x => (Ok (QASingle Samples.answer1250), x);
     Date_now := fun _ => 0;
     toFixed1 := fun _ => lit "87.5";
     toLowerCase := map lower;
     ESRS_METRICS := Samples.catalog |}.

Definition start (env : Environment) (x : Ext env) : World env := Samples.fresh env x.

Definition entryOf (name : string) (v : list float) : EmbeddingResult.t :=
  EmbeddingResult.mk v (lit "text of " ++ lit name) (lit name).

(** Similarities to the query [(1, 0)]: about 0.707, 0, 1 and 1. *)
Definition index : list EmbeddingResult.t :=
  [entryOf "a" [1; 1]%float; entryOf "b" [0; 1]%float;
   entryOf "c" [1; 0]%float; entryOf "d" [2; 0]%float].

Definition scoredIndex : list Scored.t :=
  match scoreAll [1; 0]%float index with
  | Ok scored => scored
  | Err _ => []
  end.

Definition names (ranked : list Scored.t) : list jsstring :=
  map (fun s => EmbeddingResult.chunkId (Scored.entry s)) ranked.

Definition okOr {A} (r : result A) (d : A) : A :=
  match r with Ok a => a | Err _ => d end.

Lemma sample_query :
  queryEmbedding Samples.working Samples.scope1 (start Samples.working tt)
  = (Ok [1; 0]%float,
     snd (queryEmbedding Samples.working Samples.scope1 (start Samples.working tt))).
Proof. vm_compute. reflexivity. Qed.

Lemma findRelevantChunks_ranked_witness :
  names (okOr (fst (findRelevantChunks Samples.working Samples.scope1 index 3
                      (start Samples.working tt))) [])
  = [lit "c"; lit "d"; lit "a"].
Proof.
  assert (Hs : scoreAll [1; 0]%float index = Ok scoredIndex) by (vm_compute; reflexivity).
  assert (Hf : Forall (fun s => finite (Scored.similarity s)) scoredIndex)
    by (repeat constructor).
  destruct (findRelevantChunks_ranked Samples.working Samples.scope1 index 3 _ _ _ _
              sample_query Hs Hf ltac:(lia)) as [Hrun _].
  rewrite Hrun. vm_compute. reflexivity.
Defined.

Lemma findRelevantChunks_members_witness :
  Z.of_nat (List.length (okOr (fst (findRelevantChunks Samples.working Samples.scope1
                                      index (-1) (start Samples.working tt))) []))
  = 3.
Proof.
  set (run := findRelevantChunks Samples.working Samples.scope1 index (-1)
                (start Samples.working tt)).
  assert (Hrun : run = (Ok (okOr (fst run) []), snd run)) by (vm_compute; reflexivity).
  subst run.
  destruct (findRelevantChunks_members Samples.working Samples.scope1 index (-1) _ _ _ Hrun)
    as [_ Hlen].
  exact Hlen.
Defined.

Lemma findRelevantChunks_dimensions_witness :
  fst (findRelevantChunks Samples.working Samples.scope1
         [entryOf "a" [1; 1]%float; entryOf "e" [1; 0; 0]%float] 0
         (start Samples.working tt))
  = Err mismatch.
Proof.
  destruct (findRelevantChunks_dimensions Samples.working Samples.scope1
              [entryOf "a" [1; 1]%float; entryOf "e" [1; 0; 0]%float] 0 _ _ _
              sample_query) as [Hthrow _].
  rewrite Hthrow; [reflexivity|].
  apply Exists_cons_tl, Exists_cons_hd. discriminate.
Defined.

Lemma initialize_once_witness :
  initialize Samples.working (snd (initialize Samples.working (start Samples.working tt)))
  = (Ok tt, snd (initialize Samples.working (start Samples.working tt)))
  /\ isInitialized Samples.offline
       (manager Samples.offline
          (snd (initialize Samples.offline (start Samples.offline tt)))) = false.
Proof.
  split.
  - exact (initialize_once Samples.working (start Samples.working tt) (Ok tt) _ eq_refl).
  - exact (initialize_once Samples.offline (start Samples.offline tt)
             (Err (Error (lit "Failed to fetch"))) _ eq_refl).
Defined.

(** The QA model returns an array; the score of its first element is 0
    and its confidence field 0.5. *)
Definition hedged : Environment :=
  {| Ext := unit;
     EmbeddingModel := unit;
     QAModel := unit;
     pipeline_feature_extraction := fun x => (Ok tt, x);
     pipeline_question_answering := fun x => (Ok tt, x);
     call_embedding := fun _ _ x => (Ok [1; 0]%float, x);
     call_qa := fun _ _ _ x =>
       (Ok (QAArray [QARaw.mk (Some (lit "310")) None (Some 0%float) (Some 0.5%float)
                              None None;
                     Samples.answer1250]), x);
     Date_now := fun _ => 0;
     toFixed1 := fun _ => lit "50.0";
     toLowerCase := map lower;
     ESRS_METRICS := Samples.catalog |}.

(** The score 0 is passed over for the confidence field. *)
Lemma extractAnswer_confidence_witness :
  QAResult.confidence
    (okOr (fst (extractAnswer hedged (lit "How many?") (lit "context")
                  (snd (initialize hedged (start hedged tt)))))
          (QAResult.mk [] nan 0 0))
  = 0.5%float.
Proof.
  set (run := extractAnswer hedged (lit "How many?") (lit "context")
                (snd (initialize hedged (start hedged tt)))).
  assert (Hrun : run = (Ok (okOr (fst run) (QAResult.mk [] nan 0 0)), snd run))
    by (vm_compute; reflexivity).
  subst run.
  destruct (extractAnswer_confidence hedged _ _ _ _ _ Hrun)
    as (model & out & x & raw & _ & Hcall & Hread & _ & Hfallback & _).
  injection Hcall as <- _.
  destruct Hread as [Hread|[rest Hread]]; [discriminate Hread|].
  injection Hread as <- _.
  apply Hfallback.
  - right. exists 0%float. split; [reflexivity|]. left. reflexivity.
  - split; [reflexivity|]. split; reflexivity.
Defined.

Definition emptyResult : ExtractionResult.t := ExtractionResult.mk [] 0 0.

Lemma extractAllMetrics_wellFormed_witness :
  Forall (wellFormed [Samples.chunkA; Samples.chunkB])
         (ExtractionResult.extractions
            (okOr (fst (extractAllMetrics Samples.working [Samples.chunkA; Samples.chunkB]
                          None (start Samples.working tt))) emptyResult)).
Proof.
  set (run := extractAllMetrics Samples.working [Samples.chunkA; Samples.chunkB] None
                (start Samples.working tt)).
  assert (Hrun : run = (Ok (okOr (fst run) emptyResult), snd run))
    by (vm_compute; reflexivity).
  subst run.
  exact (extractAllMetrics_wellFormed Samples.working _ _ _ _ _ Hrun).
Defined.

Lemma extractAllMetrics_no_chunks_witness :
  Forall noContext
         (ExtractionResult.extractions
            (okOr (fst (extractAllMetrics Samples.working [] None
                          (start Samples.working tt))) emptyResult)).
Proof.
  set (run := extractAllMetrics Samples.working [] None (start Samples.working tt)).
  assert (Hrun : run = (Ok (okOr (fst run) emptyResult), snd run))
    by (vm_compute; reflexivity).
  subst run.
  exact (proj2 (extractAllMetrics_no_chunks Samples.working _ _ _ _ Hrun)).
Defined.

(** A callback that always throws. *)
Definition noisy : float -> unit -> result unit * unit :=
  fun _ x => (Err (Error (lit "progress bar is gone")), x).

(** Of three chunks the second cannot be embedded: the index holds the
    first and the third, also when the callback throws. *)
Lemma generateChunkEmbeddings_index_witness :
  exists results w',
    generateChunkEmbeddings flaky [Samples.chunkA; Samples.chunkB; Samples.chunkA]
      (Some noisy) (start flaky tt) = (Ok results, w')
    /\ map entryTag results = [chunkTag Samples.chunkA; chunkTag Samples.chunkA].
Proof.
  apply (generateChunkEmbeddings_index flaky
           [Samples.chunkA; Samples.chunkB; Samples.chunkA] (Some noisy)
           (fun text => negb (JS.eqb text (DocumentChunk.text Samples.chunkB)))
           (start flaky tt)).
  - intros H. discriminate H.
  - reflexivity.
  - intros model text x. simpl. destruct (JS.eqb text _); reflexivity.
Defined.

(** Of the four entries of [index], the three most similar ones, the two
    of similarity 1 in index order. *)
Lemma findRelevantChunks_topK_witness :
  exists top,
    findRelevantChunks Samples.working Samples.scope1 index 3 (start Samples.working tt)
    = (Ok top, snd (queryEmbedding Samples.working Samples.scope1
                      (start Samples.working tt)))
    /\ names top = [lit "c"; lit "d"; lit "a"]
    /\ Z.of_nat (List.length top) <= 3
    /\ nonincreasing top.
Proof.
  assert (Hs : scoreAll [1; 0]%float index = Ok scoredIndex) by (vm_compute; reflexivity).
  assert (Hf : Forall (fun s => finite (Scored.similarity s)) scoredIndex)
    by (repeat constructor).
  destruct (findRelevantChunks_topK Samples.working Samples.scope1 index 3 _ _ _ _
              sample_query Hs Hf ltac:(lia))
    as (top & rest & Hrun & _ & Hlen & _ & _ & _ & Hranked & _).
  exists top. split; [exact Hrun|]. split; [|split; [exact Hlen|exact Hranked]].
  revert Hrun. vm_compute. intros [= <-]. reflexivity.
Defined.

(** C6, as stated, fails for a negative [topK]: [slice(0, -1)] drops the
    last entry of the ranking only, and three entries are more than -1.
    It also fails when a similarity is NaN: with the zero vector and one
    other entry in the index there is one pair to compare, the comparator
    gives NaN for it, which counts as 0, and the stable sort leaves the
    zero vector before the entry of similarity 1. *)
Lemma findRelevantChunks_unranked :
  (exists top w',
      findRelevantChunks Samples.working Samples.scope1 index (-1)
        (start Samples.working tt) = (Ok top, w')
      /\ ~ Z.of_nat (List.length top) <= -1)
  /\ (exists first second w',
         findRelevantChunks Samples.working Samples.scope1
           [entryOf "z" [0; 0]%float; entryOf "c" [1; 0]%float] 2
           (start Samples.working tt) = (Ok [first; second], w')
         /\ names [first; second] = [lit "z"; lit "c"]
         /\ (Scored.similarity second <=? Scored.similarity first)%float = false
         /\ ~ nonincreasing [first; second]).
Proof.
  split.
  - eexists _, _. split; [vm_compute; reflexivity|]. vm_compute. intros H. apply H. reflexivity.
  - eexists _, _, _. split; [vm_compute; reflexivity|].
    split; [reflexivity|]. split; [reflexivity|].
    intros H. inversion H as [|? ? _ Hf]. inversion Hf as [|? ? Hle _].
    vm_compute in Hle. discriminate Hle.
Qed.

End SampleRuns.

(** ** What patterns consume, capture and begin with *)

Module RegexClasses.
Import JS Regex RegexFacts.

(** The text between the start of [s] and its suffix [t]. *)
Definition taken (s t : jsstring) : jsstring :=
  firstn (List.length s - List.length t) s.

Lemma taken_app (used t : jsstring) : taken (used ++ t) t = used.
Proof.
  unfold taken. rewrite length_app.
  replace (List.length used + List.length t - List.length t)%nat
    with (List.length used + 0)%nat by lia.
  rewrite firstn_app_2. simpl. apply app_nil_r.
Qed.

(** *** What a pattern consumes *)

(** [r] consumes only characters of class [q]. *)
Inductive within (q : char -> Prop) : regex -> Prop :=
| within_eps : within q Eps
| within_chr p : (forall x, p x = true -> q x) -> within q (Chr p)
| within_seq r1 r2 : within q r1 -> within q r2 -> within q (Seq r1 r2)
| within_alt r1 r2 : within q r1 -> within q r2 -> within q (Alt r1 r2)
| within_star r : within q r -> within q (Star r)
| within_group i r : within q r -> within q (Group i r)
| within_bol : within q Bol.

(** [a] is reached from [s] by consuming characters of class [q]. *)
Definition consumed (q : char -> Prop) (s : jsstring) (a : alt) : Prop :=
  exists used, s = used ++ fst a /\ Forall q used.

Lemma consumed_refl q s c : consumed q s (s, c).
Proof. exists []. split; [reflexivity|constructor]. Qed.

Lemma consumed_trans q s b a :
  consumed q s b -> consumed q (fst b) a -> consumed q s a.
Proof.
  intros (u1 & H1 & Q1) (u2 & H2 & Q2). exists (u1 ++ u2).
  split; [now rewrite <- app_assoc, <- H2|now apply Forall_app].
Qed.

Lemma star_within q (step : jsstring -> captures -> list alt) :
  (forall s c a, In a (step s c) -> consumed q s a) ->
  forall fuel s c a, In a (star step fuel s c) -> consumed q s a.
Proof.
  intros Hstep. induction fuel as [|fuel IH]; intros s c a Hin; simpl in Hin.
  - destruct Hin as [<-|[]]. apply consumed_refl.
  - apply in_app_or in Hin. destruct Hin as [Hin|[<-|[]]]; [|apply consumed_refl].
    apply in_flat_map in Hin. destruct Hin as [b [Hb Hin]].
    destruct (List.length (fst b) <? List.length s)%nat; [|destruct Hin].
    eapply consumed_trans; [apply (Hstep _ _ _ Hb)|apply (IH _ _ _ Hin)].
Qed.

Lemma run_within q n0 r :
  within q r -> forall s c a, In a (run n0 r s c) -> consumed q s a.
Proof.
  induction 1 as [|p Hp|r1 r2 _ IH1 _ IH2|r1 r2 _ IH1 _ IH2|r1 _ IH1|i r1 _ IH1|];
    intros s c a Hin; cbn [run] in Hin.
  - destruct Hin as [<-|[]]. apply consumed_refl.
  - destruct s as [|x t]; [destruct Hin|].
    destruct (p x) eqn:Hx; [|destruct Hin]. destruct Hin as [<-|[]].
    exists [x]. split; [reflexivity|]. constructor; [auto|constructor].
  - apply in_flat_map in Hin. destruct Hin as [b [Hb Hin]].
    eapply consumed_trans; [apply (IH1 _ _ _ Hb)|apply (IH2 _ _ _ Hin)].
  - apply in_app_or in Hin. destruct Hin; eauto.
  - eapply star_within; eauto.
  - apply in_map_iff in Hin. destruct Hin as [b [<- Hb]].
    destruct (IH1 _ _ _ Hb) as (used & Hs & Hq). exists used. split; assumption.
  - destruct (List.length s =? n0)%nat; [|destruct Hin].
    destruct Hin as [<-|[]]. apply consumed_refl.
Qed.

(** *** What the groups capture *)

(** Every capture of group [i] is made of characters of class [Q i]. *)
Definition caps_in (Q : nat -> char -> Prop) (c : captures) : Prop :=
  Forall (fun ic => Forall (Q (fst ic)) (snd ic)) c.

(** The groups of [r] numbered [i] consume only characters of class [Q i]. *)
Inductive groups_within (Q : nat -> char -> Prop) : regex -> Prop :=
| gw_eps : groups_within Q Eps
| gw_chr p : groups_within Q (Chr p)
| gw_seq r1 r2 : groups_within Q r1 -> groups_within Q r2 -> groups_within Q (Seq r1 r2)
| gw_alt r1 r2 : groups_within Q r1 -> groups_within Q r2 -> groups_within Q (Alt r1 r2)
| gw_star r : groups_within Q r -> groups_within Q (Star r)
| gw_group i r : within (Q i) r -> groups_within Q r -> groups_within Q (Group i r)
| gw_bol : groups_within Q Bol.

Lemma star_caps Q (step : jsstring -> captures -> list alt) :
  (forall s c a, In a (step s c) -> caps_in Q c -> caps_in Q (snd a)) ->
  forall fuel s c a, In a (star step fuel s c) -> caps_in Q c -> caps_in Q (snd a).
Proof.
  intros Hstep. induction fuel as [|fuel IH]; intros s c a Hin Hc; simpl in Hin.
  - destruct Hin as [<-|[]]. exact Hc.
  - apply in_app_or in Hin. destruct Hin as [Hin|[<-|[]]]; [|exact Hc].
    apply in_flat_map in Hin. destruct Hin as [b [Hb Hin]].
    destruct (List.length (fst b) <? List.length s)%nat; [|destruct Hin].
    eapply IH; [exact Hin|]. eapply Hstep; eassumption.
Qed.

Lemma run_caps Q n0 r :
  groups_within Q r ->
  forall s c a, In a (run n0 r s c) -> caps_in Q c -> caps_in Q (snd a).
Proof.
  induction 1 as [|p|r1 r2 _ IH1 _ IH2|r1 r2 _ IH1 _ IH2|r1 _ IH1|i r1 Hw _ IH1|];
    intros s c a Hin Hc; cbn [run] in Hin.
  - destruct Hin as [<-|[]]. exact Hc.
  - destruct s as [|x t]; [destruct Hin|].
    destruct (p x); [|destruct Hin]. destruct Hin as [<-|[]]. exact Hc.
  - apply in_flat_map in Hin. destruct Hin as [b [Hb Hin]].
    exact (IH2 _ _ _ Hin (IH1 _ _ _ Hb Hc)).
  - apply in_app_or in Hin. destruct Hin as [Hin|Hin];
      [exact (IH1 _ _ _ Hin Hc)|exact (IH2 _ _ _ Hin Hc)].
  - eapply star_caps; [exact IH1|exact Hin|exact Hc].
  - apply in_map_iff in Hin. destruct Hin as [b [<- Hb]].
    constructor; [|exact (IH1 _ _ _ Hb Hc)]. cbn [fst snd].
    destruct (run_within _ n0 _ Hw _ _ _ Hb) as (used & Hs & Hq).
    fold (taken s (fst b)). rewrite Hs at 1. rewrite taken_app. exact Hq.
  - destruct (List.length s =? n0)%nat; [|destruct Hin].
    destruct Hin as [<-|[]]. exact Hc.
Qed.

Lemma group_in Q (i : nat) (c : captures) (g : jsstring) :
  caps_in Q c -> group i c = Some g -> Forall (Q i) g.
Proof.
  induction c as [|[j s] c IH]; intros H; simpl; [discriminate|].
  inversion H as [|? ? Hs Hc]; subst.
  destruct (Nat.eqb_spec i j) as [->|]; [|auto].
  intros [= <-]. exact Hs.
Qed.

Lemma sub_in Q (i : nat) (c : captures) : caps_in Q c -> Forall (Q i) (sub i c).
Proof.
  intros H. unfold sub. destruct (group i c) as [g|] eqn:Hg; [|constructor].
  eapply group_in; eassumption.
Qed.

(** A match: the text splits into what was matched and the rest, group 0
    is what was matched, the other groups are within their classes. *)
Lemma matchAt_inv Q n0 r s a :
  groups_within Q r -> matchAt n0 r s = Some a ->
  exists whole c,
    s = whole ++ fst a /\ snd a = (0%nat, whole) :: c /\ caps_in Q c
    /\ In (fst a, c) (run n0 r s []).
Proof.
  intros Hr H. apply hd_error_In in H. cbn [run] in H.
  apply in_map_iff in H. destruct H as [b [<- Hb]].
  destruct (run_keeps (fun _ => True) n0 r _ _ _ Hb) as [[pre Hpre] _].
  exists pre, (snd b). cbn [fst snd]. repeat split.
  - exact Hpre.
  - rewrite Hpre at 1 2. fold (taken (pre ++ fst b) (fst b)). now rewrite taken_app.
  - eapply run_caps; [exact Hr|exact Hb|constructor].
  - now destruct b.
Qed.

Lemma within_any (r : regex) : within (fun _ => True) r.
Proof. induction r; constructor; auto. Qed.

Lemma groups_within_any (r : regex) : groups_within (fun _ _ => True) r.
Proof. induction r; constructor; auto. apply within_any. Qed.

(** A match of a pattern within [q] is made of characters of class [q]. *)
Lemma matchAt_within q n0 r s a :
  within q r -> matchAt n0 r s = Some a ->
  exists whole, s = whole ++ fst a /\ Forall q whole.
Proof.
  intros Hr H. apply hd_error_In in H.
  exact (run_within q n0 (Group 0 r) (within_group _ _ _ Hr) _ _ _ H).
Qed.

(** *** How a match begins *)

(** Every match of [r] begins with a character of class [p]. *)
Inductive opens (p : char -> bool) : regex -> Prop :=
| opens_chr q : (forall x, q x = true -> p x = true) -> opens p (Chr q)
| opens_seq r1 r2 : opens p r1 -> opens p (Seq r1 r2)
| opens_alt r1 r2 : opens p r1 -> opens p r2 -> opens p (Alt r1 r2)
| opens_group i r : opens p r -> opens p (Group i r).

Lemma run_opens p n0 r :
  opens p r ->
  forall s c a, In a (run n0 r s c) ->
    exists x t, s = x :: t /\ p x = true /\ suffix (fst a) t.
Proof.
  induction 1 as [q Hq|r1 r2 _ IH|r1 r2 _ IH1 _ IH2|i r _ IH];
    intros s c a Hin; cbn [run] in Hin.
  - destruct s as [|x t]; [destruct Hin|].
    destruct (q x) eqn:Hx; [|destruct Hin]. destruct Hin as [<-|[]].
    exists x, t. split; [reflexivity|]. split; [auto|apply suffix_refl].
  - apply in_flat_map in Hin. destruct Hin as [b [Hb Hin]].
    destruct (IH _ _ _ Hb) as (x & t & -> & Hx & Hs). exists x, t.
    split; [reflexivity|]. split; [exact Hx|].
    eapply suffix_trans; [|exact Hs].
    exact (proj1 (run_keeps (fun _ => True) n0 r2 _ _ _ Hin)).
  - apply in_app_or in Hin. destruct Hin as [Hin|Hin];
      [exact (IH1 _ _ _ Hin)|exact (IH2 _ _ _ Hin)].
  - apply in_map_iff in Hin. destruct Hin as [b [<- Hb]]. exact (IH _ _ _ Hb).
Qed.

Lemma matchAt_opens p n0 r s a :
  opens p r -> matchAt n0 r s = Some a ->
  exists x t, s = x :: t /\ p x = true /\ suffix (fst a) t.
Proof.
  intros Hr H. apply hd_error_In in H.
  eapply run_opens; [|exact H]. now constructor.
Qed.

Lemma matchAt_closed p n0 r s :
  opens p r ->
  match s with x :: _ => p x = false | [] => True end ->
  matchAt n0 r s = None.
Proof.
  intros Hr Hs. destruct (matchAt n0 r s) as [a|] eqn:H; [|reflexivity].
  destruct (matchAt_opens _ _ _ _ _ Hr H) as (x & t & -> & Hx & _). congruence.
Qed.

(** *** Groups that take part *)

(** [r] has no group numbered [i]. *)
Inductive skips (i : nat) : regex -> Prop :=
| skips_eps : skips i Eps
| skips_chr p : skips i (Chr p)
| skips_seq r1 r2 : skips i r1 -> skips i r2 -> skips i (Seq r1 r2)
| skips_alt r1 r2 : skips i r1 -> skips i r2 -> skips i (Alt r1 r2)
| skips_star r : skips i r -> skips i (Star r)
| skips_group j r : j <> i -> skips i r -> skips i (Group j r)
| skips_bol : skips i Bol.

Lemma star_skips i (step : jsstring -> captures -> list alt) :
  (forall s c a, In a (step s c) -> group i (snd a) = group i c) ->
  forall fuel s c a, In a (star step fuel s c) -> group i (snd a) = group i c.
Proof.
  intros Hstep. induction fuel as [|fuel IH]; intros s c a Hin; simpl in Hin.
  - now destruct Hin as [<-|[]].
  - apply in_app_or in Hin. destruct Hin as [Hin|[<-|[]]]; [|reflexivity].
    apply in_flat_map in Hin. destruct Hin as [b [Hb Hin]].
    destruct (List.length (fst b) <? List.length s)%nat; [|destruct Hin].
    rewrite (IH _ _ _ Hin). eauto.
Qed.

Lemma run_skips i n0 r :
  skips i r -> forall s c a, In a (run n0 r s c) -> group i (snd a) = group i c.
Proof.
  induction 1 as [|p|r1 r2 _ IH1 _ IH2|r1 r2 _ IH1 _ IH2|r1 _ IH1|j r1 Hj _ IH1|];
    intros s c a Hin; cbn [run] in Hin.
  - now destruct Hin as [<-|[]].
  - destruct s as [|x t]; [destruct Hin|].
    destruct (p x); [|destruct Hin]. now destruct Hin as [<-|[]].
  - apply in_flat_map in Hin. destruct Hin as [b [Hb Hin]].
    rewrite (IH2 _ _ _ Hin). eauto.
  - apply in_app_or in Hin. destruct Hin; eauto.
  - eapply star_skips; eauto.
  - apply in_map_iff in Hin. destruct Hin as [b [<- Hb]].
    cbn [snd group]. destruct (Nat.eqb_spec i j) as [->|]; [destruct (Hj eq_refl)|eauto].
  - destruct (List.length s =? n0)%nat; [|destruct Hin].
    now destruct Hin as [<-|[]].
Qed.

(** After every match of [r], group [i] holds a non-empty text that starts
    with a character of class [p]. *)
Inductive binds (i : nat) (p : char -> bool) : regex -> Prop :=
| binds_group r : opens p r -> binds i p (Group i r)
| binds_seq_l r1 r2 : binds i p r1 -> skips i r2 -> binds i p (Seq r1 r2)
| binds_seq_r r1 r2 : binds i p r2 -> binds i p (Seq r1 r2)
| binds_alt r1 r2 : binds i p r1 -> binds i p r2 -> binds i p (Alt r1 r2)
| binds_inside j r : j <> i -> binds i p r -> binds i p (Group j r).

Lemma run_binds i p n0 r :
  binds i p r ->
  forall s c a, In a (run n0 r s c) ->
    exists x g, group i (snd a) = Some (x :: g) /\ p x = true.
Proof.
  induction 1 as [r Hr|r1 r2 _ IH Hs|r1 r2 _ IH|r1 r2 _ IH1 _ IH2|j r Hj _ IH];
    intros s c a Hin; cbn [run] in Hin.
  - apply in_map_iff in Hin. destruct Hin as [b [<- Hb]].
    cbn [snd group]. rewrite Nat.eqb_refl.
    destruct (run_opens _ _ _ Hr _ _ _ Hb) as (x & t & -> & Hx & Hsuf).
    pose proof (suffix_length _ _ Hsuf) as Hlen.
    exists x, (firstn (List.length t - List.length (fst b)) t). split; [|exact Hx].
    f_equal. replace (List.length (x :: t) - List.length (fst b))%nat
      with (S (List.length t - List.length (fst b))) by (cbn [List.length]; lia).
    reflexivity.
  - apply in_flat_map in Hin. destruct Hin as [b [Hb Hin]].
    rewrite (run_skips _ _ _ Hs _ _ _ Hin). eauto.
  - apply in_flat_map in Hin. destruct Hin as [b [Hb Hin]]. eauto.
  - apply in_app_or in Hin. destruct Hin; eauto.
  - apply in_map_iff in Hin. destruct Hin as [b [<- Hb]].
    cbn [snd group]. destruct (Nat.eqb_spec i j) as [->|]; [destruct (Hj eq_refl)|eauto].
Qed.

Lemma matchAt_binds i p n0 r s a :
  i <> 0%nat -> binds i p r -> matchAt n0 r s = Some a ->
  exists x g, sub i (snd a) = x :: g /\ p x = true.
Proof.
  intros Hi Hr H. apply hd_error_In in H.
  destruct (run_binds i p n0 (Group 0 r)
              (binds_inside _ _ _ _ (fun E => Hi (eq_sym E)) Hr) _ _ _ H)
    as (x & g & Hg & Hx).
  exists x, g. unfold sub. now rewrite Hg.
Qed.

(** *** Patterns that cannot fail *)

Inductive total : regex -> Prop :=
| total_eps : total Eps
| total_seq r1 r2 : total r1 -> total r2 -> total (Seq r1 r2)
| total_alt_l r1 r2 : total r1 -> total (Alt r1 r2)
| total_alt_r r1 r2 : total r2 -> total (Alt r1 r2)
| total_star r : total (Star r)
| total_group i r : total r -> total (Group i r).






(** *** [exec], [replaceFirst] *)



Lemma exec_none (p : char -> bool) n0 r s :
  mandatory p r -> Forall (fun x => p x = false) s -> exec n0 r s = None.
Proof.
  intros Hr.
  assert (Hm : forall u, Forall (fun x => p x = false) u -> matchAt n0 r u = None).
  { intros u Hu. unfold matchAt. rewrite (run_mandatory p); [reflexivity| |exact Hu].
    now constructor. }
  induction s as [|x t IH]; intros Hs; cbn [exec]; rewrite (Hm _ Hs); [reflexivity|].
  apply IH. now inversion Hs.
Qed.

(** Deleting the leftmost match of a pattern within [q] takes a piece made
    of characters of class [q] out of the text. *)
Lemma replaceFirstFrom_delete q n0 r :
  within q r ->
  forall s, exists pre used post,
    s = pre ++ used ++ post
    /\ replaceFirstFrom n0 r (fun _ => []) s = pre ++ post
    /\ Forall q used.
Proof.
  intros Hr. induction s as [|x t (pre & used & post & Hs & Hrep & Hq)];
    cbn [replaceFirstFrom].
  - destruct (matchAt n0 r []) as [a|] eqn:H.
    + apply hd_error_In in H.
      destruct (run_within q n0 (Group 0 r) (within_group _ _ _ Hr) _ _ _ H)
        as (u & Hu & Hqu).
      exists [], u, (fst a). repeat split; assumption.
    + exists [], [], []. repeat split; constructor.
  - destruct (matchAt n0 r (x :: t)) as [a|] eqn:H.
    + apply hd_error_In in H.
      destruct (run_within q n0 (Group 0 r) (within_group _ _ _ Hr) _ _ _ H)
        as (u & Hu & Hqu).
      exists [], u, (fst a). repeat split; assumption.
    + exists (x :: pre), used, post. cbn [app]. rewrite Hrep, <- Hs.
      repeat split. exact Hq.
Qed.



End RegexClasses.

(** ** The percent rule *)

Module PercentFacts.
Import JS Regex DocumentProcessor RegexFacts NormalizerProofs.

(** The alternatives of [p*] at [s], longest first: every suffix of [s]
    reached by dropping characters of class [p]. *)
Fixpoint alts (p : char -> bool) (s : jsstring) (c : captures) : list alt :=
  match s with
  | [] => [([], c)]
  | y :: t => if p y then alts p t c ++ [(s, c)] else [(s, c)]
  end.

(** [s] starts with a character of class [q]. *)
Definition startsWith (q : char -> bool) (s : jsstring) : Prop :=
  match s with
  | y :: _ => q y = true
  | [] => False
  end.

Lemma star_chr_alts (n0 : nat) (p : char -> bool) :
  forall fuel s c, (List.length s <= fuel)%nat ->
    star (run n0 (Chr p)) fuel s c = alts p s c.
Proof.
  induction fuel as [|fuel IH]; intros s c Hlen.
  - destruct s; [reflexivity|simpl in Hlen; lia].
  - cbn [star]. destruct s as [|x t]; [reflexivity|].
    rewrite run_chr_cons. cbn [alts]. destruct (p x); [|reflexivity].
    cbn [flat_map fst snd]. rewrite app_nil_r.
    replace (List.length t <? List.length (x :: t))%nat with true
      by (symmetry; apply Nat.ltb_lt; simpl; lia).
    rewrite IH by (simpl in Hlen; lia). reflexivity.
Qed.

Lemma run_star_chr (n0 : nat) (p : char -> bool) (s : jsstring) (c : captures) :
  run n0 (Star (Chr p)) s c = alts p s c.
Proof. rewrite run_star. apply star_chr_alts. lia. Qed.

(** The first alternative takes every character of the class; each other
    one stops before a character of the class. *)
Lemma alts_shape (p : char -> bool) (s : jsstring) (c : captures) :
  exists others,
    alts p s c = (dropWhile p s, c) :: others
    /\ Forall (fun a => startsWith p (fst a)) others.
Proof.
  induction s as [|y t (others & IH & Ho)]; cbn [alts dropWhile].
  - exists []. split; [reflexivity|constructor].
  - destruct (p y) eqn:Hy.
    + exists (others ++ [(y :: t, c)]). rewrite IH. split; [reflexivity|].
      apply Forall_app. split; [exact Ho|]. constructor; [exact Hy|constructor].
    + exists []. split; [reflexivity|constructor].
Qed.

Lemma run_plus_chr (n0 : nat) (p : char -> bool) (s : jsstring) (c : captures) :
  run n0 (Plus (Chr p)) s c
  = match s with
    | x :: t => if p x then alts p t c else []
    | [] => []
    end.
Proof.
  unfold Plus. rewrite run_seq. destruct s as [|x t]; [reflexivity|].
  rewrite run_chr_cons. destruct (p x); [|reflexivity].
  cbn [flat_map fst snd]. rewrite app_nil_r. apply run_star_chr.
Qed.

Lemma run_is (n0 : nat) (ch : char) (s : jsstring) (c : captures) :
  run n0 (Is ch) s c
  = match s with
    | x :: t => if N.eqb ch x then [(t, c)] else []
    | [] => []
    end.
Proof. destruct s; reflexivity. Qed.


(** *** Character classes *)

Ltac split_class :=
  repeat match goal with
         | H : context [N.leb ?a ?b] |- _ => destruct (N.leb_spec a b); try lia
         | H : context [N.eqb ?a ?b] |- _ => destruct (N.eqb_spec a b); try lia
         | |- context [N.leb ?a ?b] => destruct (N.leb_spec a b); try lia
         | |- context [N.eqb ?a ?b] => destruct (N.eqb_spec a b); try lia
         end.

Lemma digit_range (y : char) : is_digit y = true -> (48 <= y <= 57)%N.
Proof.
  unfold is_digit, between. intros H. split_class; simpl in H; try discriminate; lia.
Qed.

Lemma digit_not_ws (y : char) : is_digit y = true -> is_ws y = false.
Proof.
  intros H. apply digit_range in H. unfold is_ws, between.
  split_class; reflexivity.
Qed.

Lemma digit_not_percent (y : char) : is_digit y = true -> N.eqb chr_percent y = false.
Proof.
  intros H. apply digit_range in H. unfold chr_percent. split_class; reflexivity.
Qed.

Lemma digit_not_dot (y : char) : is_digit y = true -> N.eqb chr_dot y = false.
Proof.
  intros H. apply digit_range in H. unfold chr_dot. split_class; reflexivity.
Qed.

Lemma dot_not_ws (y : char) : N.eqb chr_dot y = true -> is_ws y = false.
Proof. intros H. apply N.eqb_eq in H. subst y. reflexivity. Qed.

Lemma dot_not_percent (y : char) : N.eqb chr_dot y = true -> N.eqb chr_percent y = false.
Proof. intros H. apply N.eqb_eq in H. subst y. reflexivity. Qed.

Lemma ws_not_percent (y : char) : is_ws y = true -> N.eqb chr_percent y = false.
Proof.
  intros H. destruct (N.eqb_spec chr_percent y) as [<-|]; [discriminate H|reflexivity].
Qed.

Lemma ws_not_digit (y : char) : is_ws y = true -> is_digit y = false.
Proof.
  intros H. destruct (is_digit y) eqn:Hd; [|reflexivity].
  apply digit_not_ws in Hd. congruence.
Qed.

(** *** Numbers *)

Fixpoint takeWhile {A} (p : A -> bool) (l : list A) : list A :=
  match l with
  | [] => []
  | x :: t => if p x then x :: takeWhile p t else []
  end.

Lemma take_drop {A} (p : A -> bool) (l : list A) : l = takeWhile p l ++ dropWhile p l.
Proof.
  induction l as [|x t IH]; simpl; [reflexivity|].
  destruct (p x); simpl; [now f_equal|reflexivity].
Qed.

Lemma takeWhile_Forall {A} (p : A -> bool) (l : list A) :
  Forall (fun x => p x = true) (takeWhile p l).
Proof.
  induction l as [|x t IH]; simpl; [constructor|].
  destruct (p x) eqn:H; constructor; assumption.
Qed.

(** What is left of [s] after the longest [\d+(?:\.\d+)?] at its front. *)
Definition number_rest (s : jsstring) : jsstring :=
  let D := dropWhile is_digit s in
  match D with
  | d :: y :: t' => if (N.eqb chr_dot d && is_digit y)%bool then dropWhile is_digit t' else D
  | _ => D
  end.

(** That longest number. *)
Definition number (s : jsstring) : jsstring :=
  let ds := takeWhile is_digit s in
  match dropWhile is_digit s with
  | d :: y :: t' =>
      if (N.eqb chr_dot d && is_digit y)%bool then ds ++ d :: y :: takeWhile is_digit t' else ds
  | _ => ds
  end.

Lemma number_split (s : jsstring) : s = number s ++ number_rest s.
Proof.
  unfold number, number_rest.
  pose proof (take_drop is_digit s) as H.
  destruct (dropWhile is_digit s) as [|d [|y t']] eqn:HD; try exact H.
  destruct (N.eqb chr_dot d && is_digit y)%bool; [|exact H].
  rewrite <- app_assoc. cbn [app]. rewrite <- (take_drop is_digit t'). exact H.
Qed.

Lemma number_rest_suffix (s : jsstring) : suffix (number_rest s) s.
Proof. exists (number s). apply number_split. Qed.

Lemma number_firstn (s : jsstring) :
  firstn (List.length s - List.length (number_rest s)) s = number s.
Proof.
  rewrite (number_split s) at 1 3. rewrite length_app.
  replace (List.length (number s) + List.length (number_rest s)
           - List.length (number_rest s))%nat with (List.length (number s) + 0)%nat by lia.
  rewrite firstn_app_2. simpl. apply app_nil_r.
Qed.

(** A number is made of digits and dots, starts and ends with a digit. *)
Definition numeric (num : jsstring) : Prop :=
  Forall (fun x => is_ws x = false) num
  /\ startsWith is_digit num
  /\ exists pre d, num = pre ++ [d] /\ is_digit d = true.

Lemma takeWhile_last (p : char -> bool) (x : char) (t : jsstring) :
  p x = true -> exists pre d, takeWhile p (x :: t) = pre ++ [d] /\ p d = true.
Proof.
  revert x. induction t as [|y t IH]; intros x Hx; cbn [takeWhile]; rewrite Hx.
  - exists [], x. split; [reflexivity|exact Hx].
  - destruct (p y) eqn:Hy.
    + destruct (IH y Hy) as (pre & d & Heq & Hd).
      cbn [takeWhile] in Heq. rewrite Hy in Heq.
      exists (x :: pre), d. rewrite Heq. split; [reflexivity|exact Hd].
    + exists [], x. split; [reflexivity|exact Hx].
Qed.

Lemma digits_wsfree (l : jsstring) :
  Forall (fun x => is_digit x = true) l -> Forall (fun x => is_ws x = false) l.
Proof. apply Forall_impl. intros x. apply digit_not_ws. Qed.

Lemma number_numeric (x : char) (t : jsstring) :
  is_digit x = true -> numeric (number (x :: t)).
Proof.
  intros Hx. unfold number.
  pose proof (takeWhile_Forall is_digit (x :: t)) as Hds.
  destruct (takeWhile_last is_digit x t Hx) as (pre & d & Hlast & Hd).
  assert (Hstart : startsWith is_digit (takeWhile is_digit (x :: t)))
    by (cbn [takeWhile]; rewrite Hx; exact Hx).
  assert (Hplain : numeric (takeWhile is_digit (x :: t))).
  { split; [now apply digits_wsfree|]. split; [exact Hstart|]. eauto. }
  destruct (dropWhile is_digit (x :: t)) as [|dt [|y t']]; try exact Hplain.
  destruct (N.eqb chr_dot dt && is_digit y)%bool eqn:Hdot; [|exact Hplain].
  apply andb_true_iff in Hdot. destruct Hdot as [Hdt Hy].
  destruct (takeWhile_last is_digit y t' Hy) as (pre' & d' & Hlast' & Hd').
  pose proof (takeWhile_Forall is_digit (y :: t')) as Hds'.
  cbn [takeWhile] in Hlast', Hds'. rewrite Hy in Hlast', Hds'.
  split; [|split].
  - apply Forall_app. split; [now apply digits_wsfree|].
    constructor; [now apply dot_not_ws|]. now apply digits_wsfree.
  - destruct (takeWhile is_digit (x :: t)); [destruct Hstart|exact Hstart].
  - exists (takeWhile is_digit (x :: t) ++ dt :: pre'), d'.
    rewrite Hlast'. rewrite <- app_assoc. split; [reflexivity|exact Hd'].
Qed.


(** *** The matches of the percent rule *)

(** [\s*%] fails in front of a digit or a dot. *)
Lemma tail_fails (n0 : nat) (s : jsstring) (c : captures) :
  startsWith is_digit s \/ startsWith (N.eqb chr_dot) s ->
  run n0 (Seq (Star ws) (Is chr_percent)) s c = [].
Proof.
  intros H. destruct s as [|y t]; [destruct H as [[]|[]]|].
  assert (Hws : is_ws y = false)
    by (destruct H; [now apply digit_not_ws|now apply dot_not_ws]).
  assert (Hp : N.eqb chr_percent y = false)
    by (destruct H; [now apply digit_not_percent|now apply dot_not_percent]).
  rewrite run_seq. unfold ws. rewrite run_star_chr. cbn [alts]. rewrite Hws.
  cbn [flat_map fst snd]. rewrite run_is, Hp. reflexivity.
Qed.

(** [\s*%] has one match at most: all the white space, then [%]. *)
Lemma run_tail (n0 : nat) (s : jsstring) (c : captures) :
  run n0 (Seq (Star ws) (Is chr_percent)) s c
  = match dropWhile is_ws s with
    | y :: rest => if N.eqb chr_percent y then [(rest, c)] else []
    | [] => []
    end.
Proof.
  rewrite run_seq. unfold ws. rewrite run_star_chr.
  destruct (alts_shape is_ws s c) as (others & -> & Ho).
  cbn [flat_map fst snd]. rewrite run_is.
  rewrite flat_map_nil; [apply app_nil_r|].
  intros a Ha. apply (proj1 (Forall_forall _ _) Ho) in Ha.
  rewrite run_is. destruct (fst a) as [|y t]; [reflexivity|].
  simpl in Ha. now rewrite (ws_not_percent _ Ha).
Qed.

Definition numberish (a : alt) : Prop :=
  startsWith is_digit (fst a) \/ startsWith (N.eqb chr_dot) (fst a).

(** The alternatives of [\d+(?:\.\d+)?] at a digit: the longest number
    first; every other one stops before a digit or a dot. *)
Lemma run_decimal (n0 : nat) (x : char) (t : jsstring) (c : captures) :
  is_digit x = true ->
  exists others,
    run n0 decimal (x :: t) c = (number_rest (x :: t), c) :: others
    /\ Forall numberish others.
Proof.
  intros Hx. unfold decimal, digit. rewrite run_seq.
  rewrite run_plus_chr, Hx.
  destruct (alts_shape is_digit t c) as (o1 & -> & Ho1).
  cbn [flat_map fst snd].
  assert (Hrest : Forall numberish
                    (flat_map (fun a : alt =>
                                 run n0 (Opt (Seq (Is chr_dot) (Plus (Chr is_digit))))
                                     (fst a) (snd a))
                              o1)).
  { clear -Ho1. induction Ho1 as [|a l Ha _ IH]; [constructor|].
    cbn [flat_map]. apply Forall_app. split; [|exact IH].
    unfold Opt. rewrite run_alt, run_seq, run_is, run_eps.
    destruct (fst a) as [|y u] eqn:Hfa; [destruct Ha|]. simpl in Ha.
    rewrite (digit_not_dot _ Ha). cbn [flat_map app].
    constructor; [|constructor]. left. unfold numberish. cbn [fst]. exact Ha. }
  unfold number_rest. cbn [dropWhile]. rewrite Hx.
  set (D := dropWhile is_digit t) in *.
  unfold Opt at 1. rewrite run_alt, run_seq, run_is, run_eps.
  destruct D as [|d [|y t']] eqn:HD.
  - cbn [flat_map app]. eexists. split; [reflexivity|exact Hrest].
  - destruct (N.eqb chr_dot d); cbn [flat_map fst snd app];
      [rewrite run_plus_chr|];
      cbn [app]; (eexists; split; [reflexivity|exact Hrest]).
  - destruct (N.eqb chr_dot d) eqn:Hd; cbn [flat_map fst snd andb].
    + rewrite run_plus_chr, app_nil_r.
      destruct (is_digit y) eqn:Hy.
      * destruct (alts_shape is_digit t' c) as (o2 & -> & Ho2).
        cbn [app]. eexists. split; [reflexivity|].
        apply Forall_app. split.
        -- apply Forall_app. split.
           ++ eapply Forall_impl; [|exact Ho2]. intros a Ha. now left.
           ++ constructor; [|constructor]. right. exact Hd.
        -- exact Hrest.
      * cbn [app]. eexists. split; [reflexivity|exact Hrest].
    + cbn [app]. eexists. split; [reflexivity|exact Hrest].
Qed.

Lemma run_decimal_none (n0 : nat) (s : jsstring) (c : captures) :
  ~ startsWith is_digit s -> run n0 decimal s c = [].
Proof.
  intros H. unfold decimal, digit. rewrite run_seq, run_plus_chr.
  destruct s as [|x t]; [reflexivity|].
  destruct (is_digit x) eqn:Hx; [destruct (H Hx)|reflexivity].
Qed.

(** The percent rule at one position. *)
Lemma matchAt_percent (n0 : nat) (s : jsstring) :
  matchAt n0 re_percent s
  = match s with
    | x :: _ =>
        if is_digit x then
          match dropWhile is_ws (number_rest s) with
          | y :: rest =>
              if N.eqb chr_percent y
              then Some (rest, [(0%nat, firstn (List.length s - List.length rest) s);
                                (1%nat, number s)])
              else None
          | [] => None
          end
        else None
    | [] => None
    end.
Proof.
  unfold matchAt. rewrite run_group. unfold re_percent. rewrite run_seq, run_group.
  destruct s as [|x t]; [reflexivity|].
  destruct (is_digit x) eqn:Hx.
  - destruct (run_decimal n0 x t [] Hx) as (others & -> & Ho).
    cbn [map flat_map fst snd].
    rewrite flat_map_nil.
    + rewrite app_nil_r, run_tail, number_firstn.
      destruct (dropWhile is_ws (number_rest (x :: t))) as [|y rest]; [reflexivity|].
      destruct (N.eqb chr_percent y); reflexivity.
    + intros a Ha. apply in_map_iff in Ha. destruct Ha as (b & <- & Hb).
      cbn [fst snd]. apply tail_fails.
      exact (proj1 (Forall_forall _ _) Ho b Hb).
  - rewrite run_decimal_none; [reflexivity|]. simpl. congruence.
Qed.


(** *** The percent rule as a scan *)

Definition percent_replacement (m : captures) : jsstring := sub 1 m ++ [chr_percent].

Definition percent (fuel n0 : nat) (s : jsstring) : jsstring :=
  replaceAllFrom fuel n0 re_percent percent_replacement s.

Lemma dropWhile_length {A} (p : A -> bool) (l : list A) :
  (List.length (dropWhile p l) <= List.length l)%nat.
Proof.
  induction l as [|x t IH]; simpl; [lia|]. destruct (p x); simpl; lia.
Qed.

Lemma number_rest_shorter (x : char) (t : jsstring) :
  is_digit x = true ->
  (List.length (number_rest (x :: t)) <= List.length t)%nat.
Proof.
  intros Hx. unfold number_rest. cbn [dropWhile]. rewrite Hx.
  pose proof (dropWhile_length is_digit t) as H.
  destruct (dropWhile is_digit t) as [|d [|y t']]; try exact H.
  destruct (N.eqb chr_dot d && is_digit y)%bool; [|exact H].
  pose proof (dropWhile_length is_digit t'). simpl in H. lia.
Qed.

Lemma percent_step (fuel n0 : nat) (s : jsstring) :
  percent (S fuel) n0 s
  = match s with
    | [] => []
    | x :: t =>
        if is_digit x then
          match dropWhile is_ws (number_rest s) with
          | y :: rest =>
              if N.eqb chr_percent y
              then number s ++ chr_percent :: percent fuel n0 rest
              else x :: percent fuel n0 t
          | [] => x :: percent fuel n0 t
          end
        else x :: percent fuel n0 t
    end.
Proof.
  unfold percent. cbn [replaceAllFrom]. rewrite matchAt_percent.
  destruct s as [|x t]; [reflexivity|].
  destruct (is_digit x) eqn:Hx; [|reflexivity].
  pose proof (number_rest_shorter x t Hx) as Hn.
  pose proof (dropWhile_length is_ws (number_rest (x :: t))) as Hd.
  destruct (dropWhile is_ws (number_rest (x :: t))) as [|y rest]; [reflexivity|].
  destruct (N.eqb chr_percent y); [|reflexivity].
  cbn [fst snd]. simpl in Hd.
  replace (List.length rest <? List.length (x :: t))%nat with true
    by (symmetry; apply Nat.ltb_lt; simpl; lia).
  unfold percent_replacement, sub. cbn [group Nat.eqb].
  rewrite <- app_assoc. reflexivity.
Qed.

(** [s] is white space up to a [%]. *)
Definition pctAhead (s : jsstring) : bool :=
  match dropWhile is_ws s with
  | y :: _ => N.eqb chr_percent y
  | [] => false
  end.

(** No digit of [s] is followed by white space and then [%]. *)
Fixpoint nogap (s : jsstring) : bool :=
  match s with
  | [] => true
  | d :: t => (negb (is_digit d && negb (starts_nonws t) && pctAhead t) && nogap t)%bool
  end.

Lemma numeric_starts (num u : jsstring) :
  numeric num -> starts_nonws (num ++ u) = true /\ pctAhead (num ++ u) = false.
Proof.
  intros (_ & Hs & _). destruct num as [|x t]; [destruct Hs|].
  simpl in Hs. unfold pctAhead. cbn [app starts_nonws dropWhile].
  rewrite (digit_not_ws _ Hs). cbn [negb]. split; [reflexivity|].
  now apply digit_not_percent.
Qed.

(** The scan keeps how the text begins. *)
Lemma percent_lead (n0 : nat) :
  forall fuel s,
    starts_nonws (percent fuel n0 s) = starts_nonws s
    /\ pctAhead (percent fuel n0 s) = pctAhead s.
Proof.
  induction fuel as [|fuel IH]; intros s; [split; reflexivity|].
  rewrite percent_step. destruct s as [|x t]; [split; reflexivity|].
  assert (Hskip : starts_nonws (x :: percent fuel n0 t) = starts_nonws (x :: t)
                  /\ pctAhead (x :: percent fuel n0 t) = pctAhead (x :: t)).
  { split; [reflexivity|]. unfold pctAhead. cbn [dropWhile].
    destruct (is_ws x); [apply IH|reflexivity]. }
  destruct (is_digit x) eqn:Hx; [|exact Hskip].
  destruct (dropWhile is_ws (number_rest (x :: t))) as [|y rest]; [exact Hskip|].
  destruct (N.eqb chr_percent y); [|exact Hskip].
  destruct (numeric_starts (number (x :: t)) (chr_percent :: percent fuel n0 rest)
              (number_numeric x t Hx)) as [-> ->].
  unfold pctAhead. cbn [starts_nonws dropWhile]. rewrite (digit_not_ws _ Hx).
  cbn [negb]. now rewrite (digit_not_percent _ Hx).
Qed.

Lemma nogap_solid (num u : jsstring) :
  Forall (fun x => is_ws x = false) num -> starts_nonws u = true ->
  nogap (num ++ u) = nogap u.
Proof.
  intros Hn Hu. induction Hn as [|x t Hx Ht IH]; [reflexivity|].
  cbn [app nogap]. rewrite IH.
  replace (starts_nonws (t ++ u)) with true; [now rewrite andb_false_r|].
  destruct t as [|y t']; [symmetry; exact Hu|].
  inversion Ht as [|? ? Hy _]; subst. simpl. now rewrite Hy.
Qed.

Lemma nogap_app_r (a b : jsstring) : nogap (a ++ b) = true -> nogap b = true.
Proof.
  induction a as [|x a IH]; [tauto|]. cbn [app nogap].
  intros H. apply andb_true_iff in H. tauto.
Qed.

(** A digit in front of white space and [%] starts a match. *)
Lemma gap_matches (x : char) (t : jsstring) :
  is_digit x = true -> starts_nonws t = false -> pctAhead t = true ->
  exists rest, dropWhile is_ws (number_rest (x :: t)) = chr_percent :: rest.
Proof.
  intros Hx Hs Hp. unfold number_rest. cbn [dropWhile]. rewrite Hx.
  destruct t as [|w t']; [discriminate Hs|].
  simpl in Hs. apply negb_false_iff in Hs.
  cbn [dropWhile]. rewrite (ws_not_digit _ Hs).
  assert (Hdot : N.eqb chr_dot w = false).
  { destruct (N.eqb_spec chr_dot w) as [<-|]; [discriminate Hs|reflexivity]. }
  unfold pctAhead in Hp.
  assert (Hgoal : exists rest, dropWhile is_ws (w :: t') = chr_percent :: rest).
  { destruct (dropWhile is_ws (w :: t')) as [|y rest]; [discriminate|].
    apply N.eqb_eq in Hp. subst y. eauto. }
  destruct t' as [|y u]; [exact Hgoal|]. rewrite Hdot. exact Hgoal.
Qed.

(** The output of the scan has no gap left. *)
Lemma percent_nogap (n0 : nat) :
  forall fuel s, (List.length s < fuel)%nat -> nogap (percent fuel n0 s) = true.
Proof.
  induction fuel as [|fuel IH]; intros s Hlen; [lia|].
  rewrite percent_step. destruct s as [|x t]; [reflexivity|].
  simpl in Hlen.
  assert (Hskip : (is_digit x = true -> starts_nonws t = false -> pctAhead t = true -> False) ->
                  nogap (x :: percent fuel n0 t) = true).
  { intros H. cbn [nogap]. rewrite IH by lia. rewrite andb_true_r.
    destruct (percent_lead n0 fuel t) as [-> ->].
    destruct (is_digit x) eqn:Hx; [|reflexivity].
    destruct (starts_nonws t) eqn:Hs; [reflexivity|].
    destruct (pctAhead t) eqn:Hp; [|reflexivity].
    destruct (H eq_refl eq_refl eq_refl). }
  destruct (is_digit x) eqn:Hx; [|apply Hskip; discriminate].
  pose proof (number_rest_shorter x t Hx) as Hn.
  pose proof (dropWhile_length is_ws (number_rest (x :: t))) as Hd.
  destruct (dropWhile is_ws (number_rest (x :: t))) as [|y rest] eqn:Hdrop.
  - apply Hskip. intros _ Hs Hp.
    destruct (gap_matches x t Hx Hs Hp) as [rest H]. congruence.
  - destruct (N.eqb chr_percent y) eqn:Hy.
    + rewrite nogap_solid; [|apply (number_numeric x t Hx)|reflexivity].
      cbn [nogap]. simpl in Hd. rewrite IH by lia. reflexivity.
    + apply Hskip. intros _ Hs Hp.
      destruct (gap_matches x t Hx Hs Hp) as [rest' H].
      rewrite Hdrop in H. injection H as -> _. discriminate Hy.
Qed.

(** Without a gap the scan changes nothing. *)
Lemma percent_id (n0 : nat) :
  forall fuel s, nogap s = true -> percent fuel n0 s = s.
Proof.
  induction fuel as [|fuel IH]; intros s Hs; [reflexivity|].
  rewrite percent_step. destruct s as [|x t]; [reflexivity|].
  assert (Hskip : x :: percent fuel n0 t = x :: t).
  { f_equal. apply IH. cbn [nogap] in Hs. apply andb_true_iff in Hs. tauto. }
  destruct (is_digit x) eqn:Hx; [|exact Hskip].
  destruct (dropWhile is_ws (number_rest (x :: t))) as [|y rest] eqn:Hdrop; [exact Hskip|].
  destruct (N.eqb chr_percent y) eqn:Hy; [|exact Hskip].
  apply N.eqb_eq in Hy. subst y.
  destruct (number_numeric x t Hx) as (_ & _ & pre & d & Hnum & Hd).
  pose proof (number_split (x :: t)) as Hsplit.
  rewrite Hnum, <- app_assoc in Hsplit. cbn [app] in Hsplit.
  assert (Hg : nogap (d :: number_rest (x :: t)) = true)
    by (apply (nogap_app_r pre); rewrite <- Hsplit; exact Hs).
  cbn [nogap] in Hg. apply andb_true_iff in Hg. destruct Hg as [Hg Hrest].
  rewrite Hd in Hg. unfold pctAhead in Hg. rewrite Hdrop, N.eqb_refl in Hg.
  rewrite andb_true_r in Hg. cbn [andb] in Hg. apply negb_true_iff, negb_false_iff in Hg.
  rewrite (dropWhile_nonws _ Hg) in Hdrop.
  rewrite Hdrop in Hrest. cbn [nogap] in Hrest. apply andb_true_iff in Hrest.
  rewrite (IH rest (proj2 Hrest)).
  rewrite <- Hdrop. symmetry. apply number_split.
Qed.

End PercentFacts.

(** ** What the normalizer returns *)

Module NormalizerFacts.
Import JS Regex DocumentProcessor RegexFacts NormalizerProofs ChunkerFacts.
Import RegexClasses PercentFacts.

(** What [trim] strips is white space. *)
Lemma trim_split (s : jsstring) :
  exists a b, s = a ++ trim s ++ b
              /\ Forall (fun x => is_ws x = true) a
              /\ Forall (fun x => is_ws x = true) b.
Proof.
  unfold trim, trimEnd, trimStart.
  exists (takeWhile is_ws s), (rev (takeWhile is_ws (rev (dropWhile is_ws s)))).
  split; [|split].
  - rewrite <- rev_app_distr, <- take_drop, rev_involutive. apply take_drop.
  - apply takeWhile_Forall.
  - apply Forall_rev, takeWhile_Forall.
Qed.

(** *** Classes of characters *)

Definition nonws (x : char) : Prop := is_ws x = false.

Lemma lower_ws (x : char) : is_ws (lower x) = is_ws x.
Proof.
  unfold lower, between. destruct (N.leb_spec 65 x); cbn [andb]; [|reflexivity].
  destruct (N.leb_spec x 90); [|reflexivity].
  unfold is_ws, between. split_class; reflexivity.
Qed.

Lemma folded_nonws (c x : char) :
  is_ws c = false -> N.eqb (lower x) (lower c) = true -> is_ws x = false.
Proof.
  intros Hc H. apply N.eqb_eq in H.
  now rewrite <- (lower_ws x), H, lower_ws.
Qed.

Lemma is_nonws (c x : char) : is_ws c = false -> N.eqb c x = true -> is_ws x = false.
Proof. intros Hc H. apply N.eqb_eq in H. now subst x. Qed.

Ltac class_side :=
  intros ? ?; unfold nonws;
  first [ apply digit_not_ws; assumption
        | apply negb_true_iff, digit_not_ws; assumption
        | eapply is_nonws; [|eassumption]; reflexivity
        | apply negb_true_iff; eapply is_nonws; [|eassumption]; reflexivity
        | eapply folded_nonws; [|eassumption]; reflexivity
        | apply negb_true_iff; eapply folded_nonws; [|eassumption]; reflexivity
        | assumption ].

Ltac regex_class :=
  repeat first [ progress cbv beta
               | apply within_eps | apply within_bol
               | apply within_chr; class_side
               | apply within_seq | apply within_alt | apply within_star
               | apply within_group
               | apply gw_eps | apply gw_bol | apply gw_chr
               | apply gw_seq | apply gw_alt | apply gw_star | apply gw_group
               | apply opens_chr; class_side
               | apply opens_seq | apply opens_alt | apply opens_group ].

Lemma decimal_nonws : within nonws decimal.
Proof. unfold decimal. regex_class. Qed.

Lemma grouped_nonws : within nonws grouped.
Proof. unfold grouped. regex_class. Qed.

Definition not_ws (x : char) : bool := negb (is_ws x).

Lemma percent_groups : groups_within (fun _ => nonws) re_percent.
Proof. unfold re_percent, decimal. regex_class. Qed.

Lemma percent_opens : opens not_ws re_percent.
Proof. unfold re_percent, decimal, not_ws. regex_class. Qed.

Lemma euro_before_groups : groups_within (fun _ => nonws) re_euro_before.
Proof. unfold re_euro_before, grouped. regex_class. Qed.

Lemma euro_before_opens : opens not_ws re_euro_before.
Proof. unfold re_euro_before, not_ws. regex_class. Qed.

Lemma euro_after_groups : groups_within (fun _ => nonws) re_euro_after.
Proof. unfold re_euro_after, grouped. regex_class. Qed.

Lemma euro_after_opens : opens not_ws re_euro_after.
Proof. unfold re_euro_after, grouped, not_ws. regex_class. Qed.

Lemma units_groups : groups_within (fun _ => nonws) re_units.
Proof. unfold re_units. regex_class. Qed.

Lemma units_opens : opens not_ws re_units.
Proof. unfold re_units, not_ws. regex_class. Qed.

Lemma units_binds : binds 4 not_ws re_units.
Proof.
  unfold re_units. do 6 apply binds_seq_r. apply binds_group.
  unfold not_ws. regex_class.
Qed.


(** *** Rewrites that keep a text tidy *)

(** A replacement text that starts with a character other than white space
    and leaves what follows it as tidy as it was. *)
Definition solid (rep : jsstring) : Prop :=
  (exists x t, rep = x :: t /\ is_ws x = false)
  /\ forall u, tidy (rep ++ u) = tidy u.

Lemma tidy_nonws_app (rep u : jsstring) :
  Forall nonws rep -> tidy (rep ++ u) = tidy u.
Proof.
  induction 1 as [|x t Hx _ IH]; [reflexivity|].
  cbn [app tidy]. unfold nonws in Hx. now rewrite Hx, IH.
Qed.

Lemma nonws_solid (rep : jsstring) : rep <> [] -> Forall nonws rep -> solid rep.
Proof.
  intros Hne H. split.
  - destruct rep as [|x t]; [congruence|].
    exists x, t. split; [reflexivity|]. now inversion H.
  - intros u. now apply tidy_nonws_app.
Qed.

Lemma solid_starts (rep u : jsstring) : solid rep -> starts_nonws (rep ++ u) = true.
Proof. intros [(x & t & -> & Hx) _]. simpl. now rewrite Hx. Qed.

Section Tidy.
Variable r : regex.
Variable f : captures -> jsstring.
Variable n0 : nat.
Hypothesis r_opens : opens not_ws r.
Hypothesis f_solid : forall s a, matchAt n0 r s = Some a -> solid (f (snd a)).

Lemma replaceAllFrom_tidy :
  forall fuel s, tidy s = true ->
    tidy (replaceAllFrom fuel n0 r f s) = true
    /\ starts_nonws (replaceAllFrom fuel n0 r f s) = starts_nonws s.
Proof.
  induction fuel as [|fuel IH]; intros s Hs; [now split|].
  cbn [replaceAllFrom].
  destruct (matchAt n0 r s) as [a|] eqn:Hm.
  - destruct (matchAt_opens _ _ _ _ _ r_opens Hm) as (x & t & -> & Hx & Hsuf).
    pose proof (suffix_length _ _ Hsuf) as Hlen.
    replace (List.length (fst a) <? List.length (x :: t))%nat with true
      by (symmetry; apply Nat.ltb_lt; simpl; lia).
    pose proof (f_solid _ _ Hm) as Hf. split.
    + rewrite (proj2 Hf). apply IH.
      eapply tidy_suffix; [|exact Hs]. eapply suffix_trans; [exact Hsuf|].
      exists [x]. reflexivity.
    + rewrite (solid_starts _ _ Hf). simpl. unfold not_ws in Hx. now rewrite Hx.
  - destruct s as [|x t]; [now split|].
    cbn [tidy] in Hs. apply andb_true_iff in Hs. destruct Hs as [Hx Ht].
    destruct (IH t Ht) as [IHt IHs]. split; [|reflexivity].
    cbn [tidy]. now rewrite IHt, IHs, Hx.
Qed.

End Tidy.

Lemma replaceAll_tidy (r : regex) (f : captures -> jsstring) (s : jsstring) :
  opens not_ws r ->
  (forall u a, matchAt (List.length s) r u = Some a -> solid (f (snd a))) ->
  tidy s = true -> tidy (replaceAll r f s) = true.
Proof.
  intros Hr Hf Hs. unfold replaceAll.
  now apply replaceAllFrom_tidy.
Qed.

Lemma sub_nonws n0 r s a (i : nat) :
  groups_within (fun _ => nonws) r -> matchAt n0 r s = Some a -> i <> 0%nat ->
  Forall nonws (sub i (snd a)).
Proof.
  intros Hr Hm Hi.
  destruct (matchAt_inv _ _ _ _ _ Hr Hm) as (whole & c & _ & -> & Hc & _).
  unfold sub. cbn [group]. destruct i as [|i]; [congruence|]. cbn [Nat.eqb].
  apply (sub_in _ (S i) c Hc).
Qed.

Lemma percent_tidy (s : jsstring) :
  tidy s = true ->
  tidy (replaceAll re_percent (fun m => sub 1 m ++ [chr_percent]) s) = true.
Proof.
  apply replaceAll_tidy; [apply percent_opens|].
  intros u a Hm.
  pose proof (sub_nonws _ _ _ _ 1 percent_groups Hm (Nat.neq_succ_0 0)) as H.
  apply nonws_solid.
  - intros E. apply app_eq_nil in E. destruct E as [_ E]. discriminate.
  - apply Forall_app. split; [exact H|]. repeat constructor.
Qed.

Lemma euro_tidy (r : regex) (s : jsstring) :
  opens not_ws r -> groups_within (fun _ => nonws) r ->
  tidy s = true ->
  tidy (replaceAll r (fun m => chr_euro :: sub 1 m) s) = true.
Proof.
  intros Ho Hg. apply replaceAll_tidy; [exact Ho|].
  intros u a Hm. apply nonws_solid; [discriminate|]. constructor; [reflexivity|].
  exact (sub_nonws _ _ _ _ 1 Hg Hm (Nat.neq_succ_0 0)).
Qed.

Lemma digitsOf_cons (fuel : nat) (n : N) (acc : jsstring) :
  exists d ds, digitsOf (S fuel) n acc = d :: ds.
Proof.
  revert n acc. induction fuel as [|fuel IH]; intros n acc.
  - cbn [digitsOf]. destruct (n / 10 =? 0)%N; eauto.
  - change (digitsOf (S (S fuel)) n acc)
      with (if (n / 10 =? 0)%N then (48 + n mod 10)%N :: acc
            else digitsOf (S fuel) (n / 10)%N ((48 + n mod 10)%N :: acc)).
    destruct (n / 10 =? 0)%N; eauto.
Qed.

Lemma units_replacement_solid n0 s a :
  matchAt n0 re_units s = Some a -> solid (units_replacement (snd a)).
Proof.
  intros Hm. unfold units_replacement. cbv zeta.
  set (value := (parseInt (sub 1 (snd a)) * 1000 + parseInt (sub 2 (snd a)))%N).
  assert (Hd : Forall nonws (toString value)).
  { unfold toString. apply digitsOf_Forall; [|constructor].
    intros d Hd. unfold nonws, is_ws, between. split_class; reflexivity. }
  destruct (digitsOf_cons (N.to_nat (N.log2 value)) value []) as (d & ds & Hds).
  fold (toString value) in Hds.
  match goal with |- solid (_ ++ _ ++ ?u) => set (unit := u) end.
  assert (Hunit : exists y rest, unit = y :: rest /\ Forall nonws (y :: rest)).
  { subst unit. destruct (JS.eqb _ _).
    - eexists _, _. split; [reflexivity|]. repeat constructor.
    - destruct (matchAt_binds 4 not_ws _ _ _ _ (Nat.neq_succ_0 3) units_binds Hm)
        as (y & g & Hg & _).
      exists y, g. split; [exact Hg|]. rewrite <- Hg.
      exact (sub_nonws _ _ _ _ 4 units_groups Hm (Nat.neq_succ_0 3)). }
  destruct Hunit as (y & rest & -> & Hu). split.
  - rewrite Hds. exists d, (ds ++ [chr_space] ++ y :: rest). split; [reflexivity|].
    rewrite Hds in Hd. now inversion Hd.
  - intros u. rewrite <- !app_assoc. rewrite (tidy_nonws_app _ _ Hd).
    cbn [app tidy starts_nonws]. inversion Hu as [|? ? Hy Hrest]; subst.
    unfold nonws in Hy. rewrite Hy. cbn [negb].
    replace (is_ws chr_space) with true by reflexivity.
    rewrite N.eqb_refl. cbn [andb]. now apply tidy_nonws_app.
Qed.

Lemma units_tidy (s : jsstring) :
  tidy s = true -> tidy (replaceAll re_units units_replacement s) = true.
Proof.
  apply replaceAll_tidy; [apply units_opens|].
  intros u a. apply units_replacement_solid.
Qed.

(** *** The output of the normalizer *)

Lemma normalizeText_tidy (text : jsstring) : tidy (normalizeText text) = true.
Proof.
  unfold normalizeText.
  set (t1 := replaceAll re_hyphenation _ text).
  set (t2 := replaceAll re_whitespace _ t1).
  assert (H2 : tidy t2 = true) by apply whitespace_tidy.
  rewrite (replaceAll_no_match _ _ _ t2 mand_linebreaks (tidy_no_linebreak _ H2)).
  apply tidy_trim.
  apply euro_tidy; [apply euro_after_opens|apply euro_after_groups|].
  apply euro_tidy; [apply euro_before_opens|apply euro_before_groups|].
  apply percent_tidy, units_tidy, H2.
Qed.

Lemma normalizeText_trimmed (text : jsstring) :
  trim (normalizeText text) = normalizeText text.
Proof. unfold normalizeText. apply trim_trim. Qed.


(** Where the white space of the output is: each white-space character is
    a space, and has a character other than white space on either side. *)
Lemma spacing (out pre post : jsstring) (x : char) :
  tidy out = true -> trim out = out -> out = pre ++ x :: post -> is_ws x = true ->
  x = chr_space
  /\ (exists a pre', pre = pre' ++ [a] /\ is_ws a = false)
  /\ (exists b post', post = b :: post' /\ is_ws b = false).
Proof.
  intros Ht Htrim -> Hx.
  pose proof (tidy_app_r _ _ Ht) as Hxp. cbn [tidy] in Hxp. rewrite Hx in Hxp.
  apply andb_true_iff in Hxp. destruct Hxp as [Hxp _].
  apply andb_true_iff in Hxp. destruct Hxp as [Hsp Hpost].
  split; [now apply N.eqb_eq|]. split.
  - destruct pre as [|p0 pre0] using rev_ind.
    + pose proof (starts_nonws_trim (x :: post)) as H.
      cbn [app] in Htrim. rewrite Htrim in H. simpl in H. now rewrite Hx in H.
    + clear IHpre0. exists p0, pre0. split; [reflexivity|].
      rewrite <- app_assoc in Ht. apply tidy_app_r in Ht. cbn [app tidy] in Ht.
      destruct (is_ws p0); [|reflexivity].
      apply andb_true_iff in Ht. destruct Ht as [Ht _].
      apply andb_true_iff in Ht. destruct Ht as [_ Ht].
      simpl in Ht. now rewrite Hx in Ht.
  - destruct post as [|b post'].
    + assert (H : starts_nonws (rev (trim (pre ++ [x]))) = true).
      { unfold trim, trimEnd. rewrite rev_involutive. apply starts_nonws_dropWhile. }
      rewrite Htrim, rev_app_distr in H. simpl in H. now rewrite Hx in H.
    + exists b, post'. split; [reflexivity|]. simpl in Hpost.
      now apply negb_true_iff.
Qed.

(** *** Texts without comma and euro sign *)

Definition lacks (ch : char) (s : jsstring) : Prop :=
  Forall (fun x => N.eqb ch x = false) s.

Lemma lacks_In (ch : char) (s : jsstring) : ~ In ch s -> lacks ch s.
Proof.
  intros H. apply Forall_forall. intros x Hx.
  apply N.eqb_neq. intros <-. exact (H Hx).
Qed.

Lemma lacks_rewrites (ch : char) (text : jsstring) :
  N.eqb ch chr_space = false -> N.eqb ch chr_percent = false ->
  lacks ch text ->
  lacks ch (replaceAll re_percent (fun m => sub 1 m ++ [chr_percent])
              (replaceAll re_whitespace (fun _ => [chr_space])
                 (replaceAll re_hyphenation (fun m => sub 1 m ++ sub 2 m) text))).
Proof.
  intros Hsp Hpc H. unfold lacks.
  apply replaceAll_Forall.
  { intros c Hc. apply Forall_app. split; [now apply sub_ok|].
    constructor; [exact Hpc|constructor]. }
  apply replaceAll_Forall.
  { intros c Hc. constructor; [exact Hsp|constructor]. }
  apply replaceAll_Forall; [|exact H].
  intros c Hc. apply Forall_app. split; now apply sub_ok.
Qed.

(** Without comma and euro sign only three rewrites can apply. *)
Lemma normalizeText_plain (text : jsstring) :
  lacks chr_comma text -> lacks chr_euro text ->
  normalizeText text
  = trim (replaceAll re_percent (fun m => sub 1 m ++ [chr_percent])
            (replaceAll re_whitespace (fun _ => [chr_space])
               (replaceAll re_hyphenation (fun m => sub 1 m ++ sub 2 m) text))).
Proof.
  intros Hc He. unfold normalizeText.
  set (t1 := replaceAll re_hyphenation _ text).
  set (t2 := replaceAll re_whitespace _ t1).
  assert (H2 : tidy t2 = true) by apply whitespace_tidy.
  rewrite (replaceAll_no_match _ _ _ t2 mand_linebreaks (tidy_no_linebreak _ H2)).
  assert (Hc2 : lacks chr_comma t2).
  { apply replaceAll_Forall; [intros c _; now repeat constructor|].
    apply replaceAll_Forall; [|exact Hc].
    intros c Hcaps. apply Forall_app. split; now apply sub_ok. }
  rewrite (replaceAll_no_match _ _ _ t2 mand_units Hc2).
  pose proof (lacks_rewrites chr_euro text eq_refl eq_refl He) as He5.
  fold t1 t2 in He5.
  rewrite (replaceAll_no_match _ _ _ _ mand_euro_before He5).
  rewrite (replaceAll_no_match _ _ _ _ mand_euro_after He5).
  reflexivity.
Qed.

Lemma nogap_app_l (a b : jsstring) : nogap (a ++ b) = true -> nogap a = true.
Proof.
  induction a as [|x a IH]; [reflexivity|]. cbn [app nogap].
  intros H. apply andb_true_iff in H. destruct H as [Hx Ha].
  rewrite (IH Ha), andb_true_r.
  destruct (is_digit x); [|reflexivity]. cbn [andb] in *.
  destruct a as [|w a']; [reflexivity|].
  cbn [app starts_nonws] in *.
  destruct (is_ws w) eqn:Hw; [|reflexivity]. cbn [negb andb] in *.
  unfold pctAhead in *. cbn [app dropWhile] in *. rewrite Hw in *.
  clear -Hx. induction a' as [|z a' IH]; [reflexivity|].
  cbn [app dropWhile] in *. destruct (is_ws z); [auto|exact Hx].
Qed.

Lemma nogap_factor (p s : jsstring) : factor p s -> nogap s = true -> nogap p = true.
Proof.
  intros (a & b & ->) H. apply nogap_app_r in H. now apply nogap_app_l in H.
Qed.

(** A text the normalizer has nothing to do on. *)
Definition normal (s : jsstring) : Prop :=
  trim s = s /\ tidy s = true /\ nogap s = true.

Lemma normalizeText_normal (text : jsstring) :
  lacks chr_comma text -> lacks chr_euro text -> normal (normalizeText text).
Proof.
  intros Hc He. split; [apply normalizeText_trimmed|].
  split; [apply normalizeText_tidy|].
  rewrite (normalizeText_plain text Hc He).
  eapply nogap_factor; [apply factor_trim|].
  unfold replaceAll at 1. apply (percent_nogap _ (S _)). lia.
Qed.

Lemma normal_fixed (s : jsstring) :
  normal s -> lacks chr_comma s -> lacks chr_euro s -> normalizeText s = s.
Proof.
  intros (Htrim & Ht & Hg) Hc He.
  rewrite (normalizeText_plain s Hc He).
  rewrite (replaceAll_no_match _ _ _ s mand_hyphenation (tidy_no_linebreak _ Ht)).
  rewrite (whitespace_id s Ht).
  change (trim (percent (S (List.length s)) (List.length s) s) = s).
  rewrite (percent_id _ _ s Hg). exact Htrim.
Qed.

Lemma normalizeText_lacks (ch : char) (text : jsstring) :
  N.eqb ch chr_space = false -> N.eqb ch chr_percent = false ->
  lacks chr_comma text -> lacks chr_euro text -> lacks ch text ->
  lacks ch (normalizeText text).
Proof.
  intros Hsp Hpc Hc He H. rewrite (normalizeText_plain text Hc He).
  apply trim_Forall. now apply lacks_rewrites.
Qed.

(** Normalizing a text without comma and euro sign a second time changes
    nothing. *)
Theorem normalizeText_idempotent (text : jsstring) :
  ~ In chr_comma text -> ~ In chr_euro text ->
  normalizeText (normalizeText text) = normalizeText text.
Proof.
  intros Hc He. apply lacks_In in Hc, He.
  apply normal_fixed.
  - now apply normalizeText_normal.
  - now apply normalizeText_lacks.
  - now apply normalizeText_lacks.
Qed.


(** A text without comma and euro sign that is trimmed, whose white space
    is single spaces and that has no white space between a number and a
    [%] is returned as it is. *)
Theorem normalizeText_fixed_point (s : jsstring) :
  trim s = s -> tidy s = true -> nogap s = true ->
  ~ In chr_comma s -> ~ In chr_euro s ->
  normalizeText s = s.
Proof.
  intros Htrim Ht Hg Hc He. apply normal_fixed; [now repeat split| |];
    now apply lacks_In.
Qed.

(** In every output of [normalizeText], each white-space character is a
    space with a character other than white space on either side: no
    line break or tab is left, no two spaces in a row, no space at either
    end. *)
Theorem normalizeText_spacing (text pre post : jsstring) (x : char) :
  normalizeText text = pre ++ x :: post -> is_ws x = true ->
  x = chr_space
  /\ (exists a pre', pre = pre' ++ [a] /\ is_ws a = false)
  /\ (exists b post', post = b :: post' /\ is_ws b = false).
Proof.
  intros Hout Hx.
  exact (spacing _ pre post x (normalizeText_tidy text) (normalizeText_trimmed text)
           Hout Hx).
Qed.

(** *** Blank text *)

Lemma mand_hyphen : mandatory (N.eqb chr_hyphen) re_hyphenation.
Proof. unfold re_hyphenation. apply mand_seq_r, mand_seq_l, mand_is. Qed.

Lemma dropWhile_all {A} (p : A -> bool) (l : list A) :
  Forall (fun x => p x = true) l -> dropWhile p l = [].
Proof. induction 1 as [|x t Hx _ IH]; simpl; [reflexivity|now rewrite Hx]. Qed.

Lemma whitespace_blank (x : char) (t : jsstring) :
  Forall (fun y => is_ws y = true) (x :: t) ->
  replaceAll re_whitespace (fun _ => [chr_space]) (x :: t) = [chr_space].
Proof.
  intros H. inversion H as [|? ? Hx Ht]; subst.
  unfold replaceAll. fold (collapse (S (List.length (x :: t))) (List.length (x :: t)) (x :: t)).
  rewrite collapse_cons, Hx, (dropWhile_all _ _ Ht), collapse_nil. reflexivity.
Qed.

Lemma normalizeText_of_blank (text : jsstring) :
  Forall (fun x => is_ws x = true) text -> normalizeText text = [].
Proof.
  intros H. unfold normalizeText.
  assert (Hh : lacks chr_hyphen text).
  { eapply Forall_impl; [|exact H]. intros x Hx. simpl in Hx.
    destruct (N.eqb_spec chr_hyphen x) as [<-|]; [discriminate Hx|reflexivity]. }
  rewrite (replaceAll_no_match _ _ _ text mand_hyphen Hh).
  destruct text as [|x t]; [reflexivity|].
  rewrite (whitespace_blank x t H). reflexivity.
Qed.

(** *** Ink: characters other than white space *)

Definition inked (s : jsstring) : Prop := Exists (fun x => is_ws x = false) s.

Lemma inked_or_blank (s : jsstring) :
  inked s \/ Forall (fun x => is_ws x = true) s.
Proof.
  induction s as [|x t [IH|IH]].
  - right. constructor.
  - left. now apply Exists_cons_tl.
  - destruct (is_ws x) eqn:Hx; [right; now constructor|left; now apply Exists_cons_hd].
Qed.

Lemma blank_not_inked (s : jsstring) :
  Forall (fun x => is_ws x = true) s -> inked s -> False.
Proof.
  intros Hb Hi. apply Exists_exists in Hi. destruct Hi as (x & Hin & Hx).
  apply (proj1 (Forall_forall _ _) Hb) in Hin. congruence.
Qed.

Section Ink.
Variable r : regex.
Variable f : captures -> jsstring.
Variable n0 : nat.
(** Each match is white space only, or is replaced by a text with ink. *)
Hypothesis f_inked :
  forall s a whole, matchAt n0 r s = Some a -> s = whole ++ fst a ->
    inked (f (snd a)) \/ Forall (fun x => is_ws x = true) whole.

Lemma replaceAllFrom_inked :
  forall fuel s, (List.length s < fuel)%nat -> inked s ->
    inked (replaceAllFrom fuel n0 r f s).
Proof.
  induction fuel as [|fuel IH]; intros s Hlen Hs; [lia|].
  cbn [replaceAllFrom].
  assert (Hskip : inked match s with
                        | [] => []
                        | x :: t => x :: replaceAllFrom fuel n0 r f t
                        end).
  { destruct s as [|x t]; [exact Hs|]. simpl in Hlen.
    inversion Hs as [? ? Hx|? ? Ht]; subst;
      [now apply Exists_cons_hd|apply Exists_cons_tl, IH; [lia|exact Ht]]. }
  destruct (matchAt n0 r s) as [a|] eqn:Hm; [|exact Hskip].
  destruct (matchAt_within (fun _ => True) _ _ _ _ (within_any r) Hm) as (whole & Hw & _).
  destruct (f_inked _ _ _ Hm Hw) as [Hf|Hb].
  - destruct (List.length (fst a) <? List.length s)%nat;
      apply Exists_app; now left.
  - destruct (List.length (fst a) <? List.length s)%nat eqn:Hlt;
      apply Exists_app; right; [|exact Hskip].
    apply Nat.ltb_lt in Hlt. apply IH; [lia|].
    rewrite Hw in Hs. apply Exists_app in Hs.
    destruct Hs as [Hs|Hs]; [destruct (blank_not_inked _ Hb Hs)|exact Hs].
Qed.

End Ink.

Lemma replaceAll_inked (r : regex) (f : captures -> jsstring) (s : jsstring) :
  (forall u a whole, matchAt (List.length s) r u = Some a -> u = whole ++ fst a ->
     inked (f (snd a)) \/ Forall (fun x => is_ws x = true) whole) ->
  inked s -> inked (replaceAll r f s).
Proof.
  intros Hf Hs. unfold replaceAll. apply replaceAllFrom_inked; [exact Hf|lia|exact Hs].
Qed.

Lemma solid_inked (rep : jsstring) : solid rep -> inked rep.
Proof. intros [(x & t & -> & Hx) _]. now apply Exists_cons_hd. Qed.

Lemma blank_match (r : regex) n0 u a whole :
  within (fun x => is_ws x = true) r ->
  matchAt n0 r u = Some a -> u = whole ++ fst a ->
  Forall (fun x => is_ws x = true) whole.
Proof.
  intros Hr Hm Hu. destruct (matchAt_within _ _ _ _ _ Hr Hm) as (whole' & Hw & Hq).
  rewrite Hu in Hw. apply app_inv_tail in Hw. now subst.
Qed.

Lemma trim_inked (s : jsstring) : inked s -> inked (trim s).
Proof.
  intros H. destruct (trim_split s) as (a & b & Hs & Ha & Hb).
  rewrite Hs in H. apply Exists_app in H.
  destruct H as [H|H]; [destruct (blank_not_inked _ Ha H)|].
  apply Exists_app in H. destruct H as [H|H]; [exact H|destruct (blank_not_inked _ Hb H)].
Qed.

Lemma hyphenation_binds : binds 1 not_ws re_hyphenation.
Proof.
  unfold re_hyphenation. apply binds_seq_l.
  - apply binds_group, opens_seq, opens_chr. intros x Hx. unfold not_ws.
    apply negb_true_iff. unfold word, is_word, is_alpha, is_digit, is_ws, between in *.
    split_class; simpl in Hx; try discriminate; reflexivity.
  - repeat first [ apply skips_eps | apply skips_chr | apply skips_seq
                 | apply skips_alt | apply skips_star
                 | apply skips_group; [discriminate|] ].
Qed.

Lemma normalizeText_inked (text : jsstring) : inked text -> inked (normalizeText text).
Proof.
  intros H. unfold normalizeText. apply trim_inked.
  apply replaceAll_inked.
  { intros u a whole Hm _. left. now apply Exists_cons_hd. }
  apply replaceAll_inked.
  { intros u a whole Hm _. left. now apply Exists_cons_hd. }
  apply replaceAll_inked.
  { intros u a whole Hm _. left. apply Exists_app. right. now apply Exists_cons_hd. }
  apply replaceAll_inked.
  { intros u a whole Hm _. left. eapply solid_inked, units_replacement_solid, Hm. }
  apply replaceAll_inked.
  { intros u a whole Hm Hu. right. eapply blank_match; [|exact Hm|exact Hu].
    unfold re_linebreaks, ws.
    repeat first [ apply within_seq | apply within_star
                 | apply within_chr; intros x Hx;
                   first [exact Hx|apply N.eqb_eq in Hx; now subst x] ]. }
  apply replaceAll_inked.
  { intros u a whole Hm Hu. right. eapply blank_match; [|exact Hm|exact Hu].
    unfold re_whitespace, ws, Plus.
    repeat first [ apply within_seq | apply within_star
                 | apply within_chr; intros x Hx; exact Hx ]. }
  apply replaceAll_inked; [|exact H].
  intros u a whole Hm _. left.
  destruct (matchAt_binds 1 not_ws _ _ _ _ (Nat.neq_succ_0 0) hyphenation_binds Hm)
    as (x & g & -> & Hx).
  apply Exists_cons_hd. now apply negb_true_iff.
Qed.

Lemma normalizeText_nil (text : jsstring) :
  normalizeText text = [] -> Forall (fun x => is_ws x = true) text.
Proof.
  intros H. destruct (inked_or_blank text) as [Hi|Hb]; [|exact Hb].
  apply normalizeText_inked in Hi. rewrite H in Hi. inversion Hi.
Qed.

(** [normalizeText] returns the empty string exactly for the texts made of
    white space only (the empty text among them). *)
Theorem normalizeText_blank (text : jsstring) :
  normalizeText text = [] <-> Forall (fun x => is_ws x = true) text.
Proof. split; [apply normalizeText_nil|apply normalizeText_of_blank]. Qed.

(** *** Sample texts *)

Definition spaced_percent : jsstring := lit "Renewable share:  45 %  of energy".
Definition tight_percent : jsstring := lit "Renewable share: 45% of energy".

Ltac absent :=
  vm_compute; intros H; repeat destruct H as [H|H]; first [discriminate H|destruct H].

Lemma normalizeText_idempotent_witness :
  normalizeText (normalizeText spaced_percent) = normalizeText spaced_percent.
Proof. apply normalizeText_idempotent; absent. Defined.



Lemma normalizeText_fixed_point_witness : normalizeText tight_percent = tight_percent.
Proof.
  apply normalizeText_fixed_point; try (vm_compute; reflexivity); absent.
Defined.

Lemma normalizeText_spacing_witness :
  chr_space = chr_space
  /\ (exists a pre', lit "45%" = pre' ++ [a] /\ is_ws a = false)
  /\ (exists b post', lit "of" = b :: post' /\ is_ws b = false).
Proof.
  apply (normalizeText_spacing (lit " 45 %  of ") (lit "45%") (lit "of") chr_space);
    vm_compute; reflexivity.
Defined.

End NormalizerFacts.

(** ** Two rewrites, worked out *)

Module RewriteFacts.
Import JS Regex DocumentProcessor RegexFacts NormalizerProofs ChunkerFacts.
Import RegexClasses PercentFacts NormalizerFacts.

(** *** The preferred match *)

(** The match that [r] prefers at the front of [s]. *)
Definition first (n0 : nat) (r : regex) (s : jsstring) (c : captures) : option alt :=
  hd_error (run n0 r s c).

Lemma first_seq n0 r1 r2 s c a b :
  first n0 r1 s c = Some a -> first n0 r2 (fst a) (snd a) = Some b ->
  first n0 (Seq r1 r2) s c = Some b.
Proof.
  unfold first. rewrite run_seq.
  destruct (run n0 r1 s c) as [|a' l]; [discriminate|]. intros [= ->] H.
  cbn [flat_map]. now apply hd_error_app_some.
Qed.

Lemma first_group n0 i r s c a :
  first n0 r s c = Some a ->
  first n0 (Group i r) s c = Some (fst a, (i, taken s (fst a)) :: snd a).
Proof.
  unfold first. rewrite run_group.
  destruct (run n0 r s c) as [|a' l]; [discriminate|]. now intros [= ->].
Qed.

Lemma first_alt_l n0 r1 r2 s c a :
  first n0 r1 s c = Some a -> first n0 (Alt r1 r2) s c = Some a.
Proof. unfold first. rewrite run_alt. apply hd_error_app_some. Qed.

Lemma first_chr n0 (p : char -> bool) x t c :
  p x = true -> first n0 (Chr p) (x :: t) c = Some (t, c).
Proof. intros H. unfold first. now rewrite run_chr_cons, H. Qed.

Lemma first_star_chr n0 (p : char -> bool) s c :
  first n0 (Star (Chr p)) s c = Some (dropWhile p s, c).
Proof.
  unfold first. rewrite run_star_chr.
  now destruct (alts_shape p s c) as (others & -> & _).
Qed.

Lemma first_plus_chr n0 (p : char -> bool) x t c :
  p x = true -> first n0 (Plus (Chr p)) (x :: t) c = Some (dropWhile p t, c).
Proof.
  intros H. unfold first. rewrite run_plus_chr, H.
  now destruct (alts_shape p t c) as (others & -> & _).
Qed.

Lemma dropWhile_app_stop {A} (p : A -> bool) (l : list A) (y : A) (t : list A) :
  Forall (fun x => p x = true) l -> p y = false -> dropWhile p (l ++ y :: t) = y :: t.
Proof.
  intros Hl Hy. induction Hl as [|x l Hx _ IH]; simpl; [now rewrite Hy|now rewrite Hx].
Qed.

(** A run of [p] in front of a character outside [p] is what [(p+)]
    captures. *)
Lemma first_run n0 (p : char -> bool) i x l y t c :
  Forall (fun z => p z = true) (x :: l) -> p y = false ->
  first n0 (Group i (Plus (Chr p))) ((x :: l) ++ y :: t) c
  = Some (y :: t, (i, x :: l) :: c).
Proof.
  intros Hl Hy. inversion Hl as [|? ? Hx Hl']; subst.
  rewrite (first_group _ _ _ _ _ (y :: t, c)).
  - cbn [fst snd]. now rewrite taken_app.
  - cbn [app]. rewrite (first_plus_chr _ _ _ _ _ Hx).
    now rewrite (dropWhile_app_stop _ _ _ _ Hl' Hy).
Qed.

(** The same at the end of the text. *)
Lemma first_run_end n0 (p : char -> bool) i x l c :
  Forall (fun z => p z = true) (x :: l) ->
  first n0 (Group i (Plus (Chr p))) (x :: l) c = Some ([], (i, x :: l) :: c).
Proof.
  intros Hl. inversion Hl as [|? ? Hx Hl']; subst.
  rewrite (first_group _ _ _ _ _ ([], c)).
  - cbn [fst snd]. rewrite <- (app_nil_r (x :: l)) at 1. now rewrite taken_app.
  - rewrite (first_plus_chr _ _ _ _ _ Hx). now rewrite (dropWhile_all _ _ Hl').
Qed.

(** One global replace whose pattern matches at the very start. *)
Lemma replaceAll_at_start r f s a :
  s <> [] -> matchAt (List.length s) r s = Some a ->
  (List.length (fst a) < List.length s)%nat ->
  replaceAll r f s
  = f (snd a) ++ replaceAllFrom (List.length s) (List.length s) r f (fst a).
Proof.
  intros Hs Hm Hlen. unfold replaceAll. cbn [replaceAllFrom]. rewrite Hm.
  now rewrite (proj2 (Nat.ltb_lt _ _) Hlen).
Qed.

Lemma matchAt_first n0 r s a :
  first n0 r s [] = Some a ->
  matchAt n0 r s = Some (fst a, (0%nat, taken s (fst a)) :: snd a).
Proof. intros H. unfold matchAt. now apply first_group. Qed.


(** *** Trimming a text that has no white space at its ends *)

Lemma trim_id (s : jsstring) :
  starts_nonws s = true -> starts_nonws (rev s) = true -> trim s = s.
Proof.
  intros Hs Hr. unfold trim, trimStart, trimEnd.
  rewrite (dropWhile_nonws _ Hs), (dropWhile_nonws _ Hr). apply rev_involutive.
Qed.

Lemma trim_nonws (s : jsstring) : Forall nonws s -> trim s = s.
Proof.
  intros H. apply trim_id.
  - destruct H as [|x t Hx _]; [reflexivity|]. simpl. unfold nonws in Hx. now rewrite Hx.
  - apply Forall_rev in H. destruct H as [|x t Hx _]; [reflexivity|].
    simpl. unfold nonws in Hx. now rewrite Hx.
Qed.

(** *** The unit rule on [<digits>,<digits>k tCO2] *)

Lemma alpha_class (x : char) :
  is_alpha x = true ->
  is_ws x = false /\ is_digit x = false /\ N.eqb chr_percent x = false
  /\ N.eqb chr_euro x = false /\ N.eqb chr_nl x = false /\ N.eqb chr_comma x = false.
Proof.
  unfold is_alpha, is_ws, is_digit, between, chr_percent, chr_euro, chr_nl, chr_comma.
  intros H. split_class; simpl in H; try discriminate; repeat split; reflexivity.
Qed.

Lemma digit_class (x : char) :
  is_digit x = true ->
  is_ws x = false /\ N.eqb chr_percent x = false
  /\ N.eqb chr_euro x = false /\ N.eqb chr_nl x = false /\ N.eqb chr_comma x = false.
Proof.
  intros H. apply digit_range in H.
  unfold is_ws, between, chr_percent, chr_euro, chr_nl, chr_comma.
  split_class; repeat split; reflexivity.
Qed.

Definition kilo : jsstring := lit "k tCO2".

Lemma units_first n0 (x1 x2 : char) (l1 l2 rest : jsstring) :
  Forall (fun z => is_digit z = true) (x1 :: l1) ->
  Forall (fun z => is_digit z = true) (x2 :: l2) ->
  first n0 re_units ((x1 :: l1) ++ chr_comma :: (x2 :: l2) ++ kilo ++ rest) []
  = Some (rest, [(4%nat, lit "tCO2"); (3%nat, lit "k");
                 (2%nat, x2 :: l2); (1%nat, x1 :: l1)]).
Proof.
  intros H1 H2. unfold re_units, digit, ws.
  eapply first_seq; [apply (first_run _ _ _ _ _ _ _ _ H1); reflexivity|].
  cbn [fst snd].
  eapply first_seq; [apply first_chr, N.eqb_refl|]. cbn [fst snd].
  change (kilo ++ rest) with (107%N :: [32%N] ++ lit "tCO2" ++ rest).
  eapply first_seq; [apply (first_run _ _ _ _ _ _ _ _ H2); reflexivity|].
  cbn [fst snd].
  eapply first_seq; [apply first_star_chr|]. cbn [fst snd].
  eapply first_seq.
  { change (dropWhile is_ws (107%N :: [32%N] ++ lit "tCO2" ++ rest))
      with ([107%N] ++ [32%N] ++ lit "tCO2" ++ rest).
    apply first_group, first_alt_l, first_chr. reflexivity. }
  cbn [fst snd]. rewrite taken_app.
  eapply first_seq; [apply first_star_chr|]. cbn [fst snd].
  change (dropWhile is_ws ([32%N] ++ lit "tCO2" ++ rest)) with (lit "tCO2" ++ rest).
  etransitivity; [apply first_group, first_alt_l; reflexivity|].
  cbn [fst snd]. now rewrite taken_app.
Qed.

Lemma mand_percent : mandatory (N.eqb chr_percent) re_percent.
Proof. unfold re_percent. apply mand_seq_r, mand_seq_r, mand_is. Qed.

Lemma mand_units_digit : mandatory is_digit re_units.
Proof.
  unfold re_units, digit, Plus. apply mand_seq_l, mand_group, mand_seq_l, mand_chr. auto.
Qed.

Lemma toString_digits (n : N) :
  exists d ds, toString n = d :: ds /\ Forall (fun z => is_digit z = true) (d :: ds).
Proof.
  destruct (digitsOf_cons (N.to_nat (N.log2 n)) n []) as (d & ds & H).
  exists d, ds. split; [exact H|]. rewrite <- H.
  apply digitsOf_Forall; [|constructor].
  intros z Hz. unfold is_digit, between.
  apply andb_true_iff. split; apply N.leb_le; lia.
Qed.

(** [<p1>,<p2>k tCO2] becomes [<p1 * 1000 + p2> tCO2e], the comma read as
    a thousands separator whatever the number of digits behind it; letters
    that follow the unit stay where they are, so [tCO2e] becomes
    [tCO2ee].  The numbers are small enough for [parseInt] to be exact. *)
Ltac pick := intros ? Hpick; cbv beta in Hpick; tauto.

Theorem normalizeText_kilo_units (p1 p2 rest : jsstring) :
  p1 <> [] -> p2 <> [] ->
  Forall (fun z => is_digit z = true) p1 ->
  Forall (fun z => is_digit z = true) p2 ->
  (List.length p1 <= 12)%nat -> (List.length p2 <= 15)%nat ->
  Forall (fun z => is_alpha z = true) rest ->
  normalizeText (p1 ++ [chr_comma] ++ p2 ++ lit "k tCO2" ++ rest)
  = toString (parseInt p1 * 1000 + parseInt p2) ++ lit " tCO2e" ++ rest.
Proof.
  intros N1 N2 H1 H2 _ _ Hrest.
  destruct p1 as [|x1 l1]; [congruence|]. destruct p2 as [|x2 l2]; [congruence|].
  clear N1 N2. fold kilo.
  set (s := (x1 :: l1) ++ [chr_comma] ++ (x2 :: l2) ++ kilo ++ rest).
  set (value := (parseInt (x1 :: l1) * 1000 + parseInt (x2 :: l2))%N).
  assert (Hr : Forall (fun x => is_ws x = false /\ is_digit x = false
                                /\ N.eqb chr_percent x = false /\ N.eqb chr_euro x = false
                                /\ N.eqb chr_nl x = false /\ N.eqb chr_comma x = false) rest).
  { eapply Forall_impl; [|exact Hrest]. apply alpha_class. }
  assert (Hd : forall l, Forall (fun z => is_digit z = true) l ->
                 Forall (fun x => is_ws x = false /\ N.eqb chr_percent x = false
                                  /\ N.eqb chr_euro x = false /\ N.eqb chr_nl x = false
                                  /\ N.eqb chr_comma x = false) l).
  { intros l. apply Forall_impl. apply digit_class. }
  (* the text is tidy and has no line break *)
  assert (Hnl : lacks chr_nl s).
  { subst s. unfold lacks. rewrite !Forall_app. repeat split.
    - eapply Forall_impl; [|exact (Hd _ H1)]. pick.
    - now repeat constructor.
    - eapply Forall_impl; [|exact (Hd _ H2)]. pick.
    - now repeat constructor.
    - eapply Forall_impl; [|exact Hr]. pick. }
  assert (Htidy : tidy s = true).
  { subst s. rewrite tidy_nonws_app
      by (eapply Forall_impl; [|exact (Hd _ H1)]; unfold nonws; pick).
    cbn [app tidy].
    replace (is_ws chr_comma) with false by reflexivity. cbn [andb].
    change (tidy ((x2 :: l2) ++ kilo ++ rest) = true).
    rewrite tidy_nonws_app
      by (eapply Forall_impl; [|exact (Hd _ H2)]; unfold nonws; pick).
    change (tidy (107%N :: 32%N :: lit "tCO2" ++ rest) = true).
    change (tidy (lit "tCO2" ++ rest) = true).
    rewrite tidy_nonws_app by now repeat constructor.
    rewrite <- (app_nil_r rest). apply tidy_nonws_app.
    eapply Forall_impl; [|exact Hr]. unfold nonws. pick. }
  unfold normalizeText. fold s.
  rewrite (replaceAll_no_match _ _ _ s mand_hyphenation Hnl).
  rewrite (whitespace_id s Htidy).
  rewrite (replaceAll_no_match _ _ _ s mand_linebreaks Hnl).
  (* the unit rule *)
  pose proof (matchAt_first _ _ _ _ (units_first (List.length s) x1 x2 l1 l2 rest H1 H2))
    as Hm.
  change ((x1 :: l1) ++ chr_comma :: (x2 :: l2) ++ kilo ++ rest) with s in Hm.
  cbn [fst snd] in Hm.
  assert (Hne : s <> []) by (unfold s; discriminate).
  rewrite (replaceAll_at_start _ _ _ _ Hne Hm);
    [|unfold s; cbn [fst]; rewrite !length_app; simpl; lia].
  cbn [fst snd].
  rewrite (replaceAllFrom_no_match is_digit _ _ mand_units_digit);
    [|eapply Forall_impl; [|exact Hr]; pick].
  change (units_replacement _) with (toString value ++ lit " tCO2e").
  rewrite <- app_assoc.
  set (out := toString value ++ lit " tCO2e" ++ rest).
  destruct (toString_digits value) as (d & ds & Hv & Hds).
  assert (Hout : forall ch, N.eqb ch chr_space = false ->
                   (forall x, is_digit x = true -> N.eqb ch x = false) ->
                   Forall (fun x => N.eqb ch x = false) (lit "tCO2e") ->
                   Forall (fun x => N.eqb ch x = false) rest ->
                   lacks ch out).
  { intros ch Hsp Hdig Hunit Hrs. subst out. unfold lacks. rewrite !Forall_app.
    split; [|split; [|exact Hrs]].
    - rewrite Hv. eapply Forall_impl; [|exact Hds]. exact Hdig.
    - constructor; [exact Hsp|exact Hunit]. }
  assert (Hpct : lacks chr_percent out).
  { apply Hout; [reflexivity| |now repeat constructor|].
    - intros x Hx. now apply digit_class in Hx.
    - eapply Forall_impl; [|exact Hr]. pick. }
  assert (Heur : lacks chr_euro out).
  { apply Hout; [reflexivity| |now repeat constructor|].
    - intros x Hx. now apply digit_class in Hx.
    - eapply Forall_impl; [|exact Hr]. pick. }
  rewrite (replaceAll_no_match _ _ _ out mand_percent Hpct).
  rewrite (replaceAll_no_match _ _ _ out mand_euro_before Heur).
  rewrite (replaceAll_no_match _ _ _ out mand_euro_after Heur).
  apply trim_id.
  - subst out. rewrite Hv. simpl. inversion Hds as [|? ? Hdd _]; subst.
    now rewrite (digit_not_ws _ Hdd).
  - subst out. rewrite !rev_app_distr.
    destruct (rev rest) as [|z t] eqn:Hrev; [reflexivity|].
    assert (Hz : In z rest) by (apply in_rev; rewrite Hrev; now left).
    apply (proj1 (Forall_forall _ _) Hr) in Hz. simpl. now rewrite (proj1 Hz).
Qed.

Lemma normalizeText_kilo_units_witness :
  normalizeText (lit "1,5k tCO2e") = lit "1005 tCO2ee".
Proof.
  apply (normalizeText_kilo_units (lit "1") (lit "5") (lit "e"));
    try discriminate; try (simpl; lia); repeat constructor.
Defined.


(** *** A word broken across two lines *)

Lemma alts_app (p : char -> bool) (w X : jsstring) (c : captures) :
  Forall (fun x => p x = true) w -> exists more, alts p (w ++ X) c = alts p X c ++ more.
Proof.
  induction 1 as [|x w Hx _ (more & IH)]; [exists []; now rewrite app_nil_r|].
  cbn [app alts]. rewrite Hx, IH, <- app_assoc. eauto.
Qed.

Lemma alts_suffix (p : char -> bool) (s : jsstring) (c : captures) (a : alt) :
  In a (alts p s c) -> suffix (fst a) s.
Proof.
  induction s as [|x t IH]; cbn [alts].
  - intros [<-|[]]. apply suffix_refl.
  - destruct (p x).
    + intros H. apply in_app_or in H. destruct H as [H|[<-|[]]]; [|apply suffix_refl].
      eapply suffix_trans; [exact (IH H)|]. exists [x]. reflexivity.
    + intros [<-|[]]. apply suffix_refl.
Qed.

(** [p*] gives back characters until what follows can match. *)
Lemma first_star_backtrack n0 (p : char -> bool) (K : regex) w y Y c b :
  Forall (fun x => p x = true) w -> p y = true ->
  (forall a, In a (alts p Y c) -> run n0 K (fst a) (snd a) = []) ->
  first n0 K (y :: Y) c = Some b ->
  first n0 (Seq (Star (Chr p)) K) (w ++ y :: Y) c = Some b.
Proof.
  intros Hw Hy Hfail Hb. unfold first. rewrite run_seq, run_star_chr.
  destruct (alts_app p w (y :: Y) c Hw) as (more & ->).
  cbn [alts]. rewrite Hy, !flat_map_app.
  rewrite (flat_map_nil _ _ Hfail). cbn [app flat_map fst snd].
  now apply hd_error_app_some, hd_error_app_some.
Qed.

(** White space other than a line break. *)
Definition blank (x : char) : Prop := is_ws x = true /\ x <> chr_nl.

Lemma word_class (x : char) :
  is_word x = true ->
  is_ws x = false /\ N.eqb chr_hyphen x = false /\ N.eqb chr_nl x = false
  /\ N.eqb chr_comma x = false /\ N.eqb chr_euro x = false.
Proof.
  unfold is_word, is_alpha, is_digit, is_ws, between, chr_hyphen, chr_nl, chr_comma,
    chr_euro.
  intros H. split_class; simpl in H; try discriminate; repeat split; reflexivity.
Qed.

Lemma hyphenation_first n0 (x y : char) (u v w1 w2 : jsstring) :
  Forall (fun z => is_word z = true) (x :: u) ->
  Forall (fun z => is_word z = true) (y :: v) ->
  Forall blank w1 -> Forall blank w2 ->
  first n0 re_hyphenation
        ((x :: u) ++ chr_hyphen :: w1 ++ chr_nl :: w2 ++ y :: v) []
  = Some ([], [(2%nat, y :: v); (1%nat, x :: u)]).
Proof.
  intros Hu Hv H1 H2. unfold re_hyphenation, word, ws.
  eapply first_seq; [apply (first_run _ _ _ _ _ _ _ _ Hu); reflexivity|].
  cbn [fst snd].
  eapply first_seq; [apply first_chr, N.eqb_refl|]. cbn [fst snd].
  assert (Hy : is_ws y = false) by (inversion Hv; subst; now apply word_class).
  apply first_star_backtrack.
  - eapply Forall_impl; [|exact H1]. now intros z [Hz _].
  - reflexivity.
  - intros a Ha. rewrite run_seq, run_is.
    apply alts_suffix in Ha. destruct Ha as [pre Hpre].
    destruct (fst a) as [|z t]; [reflexivity|].
    assert (Hz : In z (w2 ++ y :: v)) by (rewrite Hpre; apply in_elt).
    destruct (N.eqb_spec chr_nl z) as [<-|]; [|reflexivity].
    apply in_app_or in Hz. destruct Hz as [Hz|Hz].
    + apply (proj1 (Forall_forall _ _) H2) in Hz. now destruct Hz.
    + apply (proj1 (Forall_forall _ _) Hv) in Hz. discriminate Hz.
  - eapply first_seq; [apply first_chr, N.eqb_refl|]. cbn [fst snd].
    eapply first_seq; [apply first_star_chr|]. cbn [fst snd].
    rewrite dropWhile_app_stop;
      [|eapply Forall_impl; [|exact H2]; now intros z [Hz _]|exact Hy].
    now apply first_run_end.
Qed.

Lemma nogap_nonws (s : jsstring) : Forall nonws s -> nogap s = true.
Proof.
  induction 1 as [|x t Hx Ht IH]; [reflexivity|]. cbn [nogap]. rewrite IH.
  destruct Ht as [|y t' Hy _]; cbn [starts_nonws negb];
    [now rewrite andb_false_r|].
  unfold nonws in Hy. rewrite Hy. cbn [negb]. now rewrite andb_false_r.
Qed.

(** A word broken by a hyphen at the end of a line is joined again, the
    hyphen dropped. *)
Theorem normalizeText_joins_hyphenated (u v w1 w2 : jsstring) :
  u <> [] -> v <> [] ->
  Forall (fun z => is_word z = true) u -> Forall (fun z => is_word z = true) v ->
  Forall blank w1 -> Forall blank w2 ->
  normalizeText (u ++ [chr_hyphen] ++ w1 ++ [chr_nl] ++ w2 ++ v) = u ++ v.
Proof.
  intros Nu Nv Hu Hv H1 H2.
  destruct u as [|x u]; [congruence|]. destruct v as [|y v]; [congruence|].
  clear Nu Nv.
  set (s := (x :: u) ++ [chr_hyphen] ++ w1 ++ [chr_nl] ++ w2 ++ y :: v).
  set (joined := (x :: u) ++ y :: v).
  assert (Hj : Forall (fun z => is_word z = true) joined)
    by (apply Forall_app; now split).
  assert (Hclass : forall P : char -> Prop,
             (forall z, is_word z = true -> P z) -> Forall P joined).
  { intros P HP. eapply Forall_impl; [|exact Hj]. exact HP. }
  pose proof (matchAt_first _ _ _ _
                (hyphenation_first (List.length s) x y u v w1 w2 Hu Hv H1 H2)) as Hm.
  change ((x :: u) ++ chr_hyphen :: w1 ++ chr_nl :: w2 ++ y :: v) with s in Hm.
  cbn [fst snd] in Hm.
  assert (Hne : s <> []) by (unfold s; discriminate).
  assert (Hs : replaceAll re_hyphenation (fun m => sub 1 m ++ sub 2 m) s = joined).
  { rewrite (replaceAll_at_start _ _ _ _ Hne Hm); [|unfold s; simpl; lia].
    cbn [fst snd].
    rewrite (replaceAllFrom_no_match _ _ _ mand_hyphenation) by constructor.
    unfold sub. cbn [group Nat.eqb]. now rewrite app_nil_r. }
  transitivity (normalizeText joined).
  - unfold normalizeText. rewrite Hs.
    rewrite (replaceAll_no_match _ _ _ joined mand_hyphenation); [reflexivity|].
    apply Hclass. intros z Hz. now apply word_class in Hz.
  - apply normal_fixed.
    + assert (Hn : Forall nonws joined)
        by (apply Hclass; intros z Hz; now apply word_class in Hz).
      split; [now apply trim_nonws|]. split; [|now apply nogap_nonws].
      rewrite <- (app_nil_r joined). now rewrite tidy_nonws_app.
    + apply Hclass. intros z Hz. now apply word_class in Hz.
    + apply Hclass. intros z Hz. now apply word_class in Hz.
Qed.

Lemma normalizeText_joins_hyphenated_witness :
  normalizeText (lit "sustain" ++ [chr_hyphen] ++ [chr_space] ++ [chr_nl] ++ []
                 ++ lit "ability")
  = lit "sustainability".
Proof.
  apply (normalizeText_joins_hyphenated (lit "sustain") (lit "ability") [chr_space] []);
    try discriminate; repeat constructor; discriminate.
Defined.

End RewriteFacts.

(** ** What the answer parser returns *)

Module ParserFacts.
Import JS Regex DocumentProcessor AIProcessor RegexFacts ChunkerFacts.
Import RegexClasses PercentFacts NormalizerFacts RewriteFacts.

(** *** Classes of characters *)

Definition nondigit (x : char) : Prop := is_digit x = false.

Lemma lower_digit (x : char) : is_digit (lower x) = is_digit x.
Proof.
  unfold lower, between. destruct (N.leb_spec 65 x); cbn [andb]; [|reflexivity].
  destruct (N.leb_spec x 90); [|reflexivity].
  unfold is_digit, between. split_class; reflexivity.
Qed.

Lemma folded_nondigit (c x : char) :
  is_digit c = false -> N.eqb (lower x) (lower c) = true -> is_digit x = false.
Proof.
  intros Hc H. apply N.eqb_eq in H.
  now rewrite <- (lower_digit x), H, lower_digit.
Qed.

Lemma prefix_nondigit : within nondigit re_prefix.
Proof.
  unfold re_prefix.
  repeat first [ apply within_bol | apply within_seq | apply within_alt
               | apply within_star | apply within_group
               | apply within_chr; intros x Hx; unfold nondigit;
                 first [ now apply ws_not_digit
                       | eapply folded_nondigit; [|exact Hx]; reflexivity ] ].
Qed.



Lemma numeric_mandatory : mandatory is_digit re_numeric.
Proof.
  unfold re_numeric, grouped.
  apply mand_seq_l, mand_group, mand_seq_l, mand_seq_l, mand_chr. auto.
Qed.



(** *** The cleaned answer *)


Definition cleanAnswer (answer : jsstring) : jsstring :=
  trim (replaceFirst re_prefix (fun _ => []) answer).


Lemma cleanAnswer_nondigit (answer : jsstring) :
  Forall nondigit answer -> Forall nondigit (cleanAnswer answer).
Proof.
  intros H. unfold cleanAnswer, replaceFirst. apply trim_Forall.
  destruct (replaceFirstFrom_delete nondigit (List.length answer) re_prefix
              prefix_nondigit answer) as (pre & used & post & Hs & -> & _).
  rewrite Hs in H. apply Forall_app in H. destruct H as [Hpre H].
  apply Forall_app in H. apply Forall_app. tauto.
Qed.

(** *** The leading word *)

(** What follows the word [cs] at the front of [s], letters compared
    without regard to case. *)
Fixpoint afterWord (cs s : jsstring) : option jsstring :=
  match cs, s with
  | [], _ => Some s
  | c :: cs', x :: t => if N.eqb (lower x) (lower c) then afterWord cs' t else None
  | _ :: _, [] => None
  end.

Lemma run_wordI n0 cs :
  forall s c,
    run n0 (WordI cs) s c
    = match afterWord cs s with Some t => [(t, c)] | None => [] end.
Proof.
  induction cs as [|ch cs' IH]; intros s c; [reflexivity|].
  destruct cs' as [|c2 cs2].
  - destruct s as [|x t]; [reflexivity|].
    cbn [WordI afterWord]. unfold IsI. rewrite run_chr_cons.
    destruct (N.eqb (lower x) (lower ch)); reflexivity.
  - change (WordI (ch :: c2 :: cs2)) with (Seq (IsI ch) (WordI (c2 :: cs2))).
    rewrite run_seq. destruct s as [|x t]; [reflexivity|].
    unfold IsI. rewrite run_chr_cons.
    change (afterWord (ch :: c2 :: cs2) (x :: t))
      with (if N.eqb (lower x) (lower ch) then afterWord (c2 :: cs2) t else None).
    destruct (N.eqb (lower x) (lower ch)); [|reflexivity].
    cbn [flat_map fst snd]. rewrite app_nil_r. apply IH.
Qed.

Lemma afterWord_split cs :
  forall s t, afterWord cs s = Some t ->
              exists word, s = word ++ t /\ map lower word = map lower cs.
Proof.
  induction cs as [|ch cs' IH]; intros s t.
  - intros [= <-]. exists []. split; reflexivity.
  - destruct s as [|x s']; [discriminate|]. cbn [afterWord].
    destruct (N.eqb_spec (lower x) (lower ch)) as [E|]; [|discriminate].
    intros H. destruct (IH _ _ H) as (word & -> & Hw).
    exists (x :: word). split; [reflexivity|]. cbn [map]. now rewrite E, Hw.
Qed.

Lemma afterWord_app cs :
  forall word t, map lower word = map lower cs -> afterWord cs (word ++ t) = Some t.
Proof.
  induction cs as [|ch cs' IH]; intros word t H.
  - destruct word; [reflexivity|discriminate].
  - destruct word as [|x word']; [discriminate|]. cbn [map] in H.
    injection H as Hx Hw. cbn [app afterWord]. rewrite Hx, N.eqb_refl. now apply IH.
Qed.

(** What is left of [s] after the word [cs] and all the white space behind
    it, of which there is some. *)
Definition filler (cs s : jsstring) : option jsstring :=
  match afterWord cs s with
  | Some (x :: t) => if is_ws x then Some (dropWhile is_ws t) else None
  | _ => None
  end.

Lemma first_filler n0 cs s c :
  first n0 (Seq (WordI cs) (Plus (Chr is_ws))) s c
  = option_map (fun rest => (rest, c)) (filler cs s).
Proof.
  unfold first, filler. rewrite run_seq, run_wordI.
  destruct (afterWord cs s) as [[|x t]|]; [reflexivity| |reflexivity].
  cbn [flat_map fst snd]. rewrite app_nil_r, run_plus_chr.
  destruct (is_ws x); [|reflexivity].
  now destruct (alts_shape is_ws t c) as (others & -> & _).
Qed.

Lemma first_alt n0 r1 r2 s c :
  first n0 (Alt r1 r2) s c
  = match first n0 r1 s c with
    | Some a => Some a
    | None => first n0 r2 s c
    end.
Proof. unfold first. rewrite run_alt. now destruct (run n0 r1 s c). Qed.

(** A letter that no white space is taken for under the [i] flag. *)
Definition plain (c : char) : Prop :=
  forall x, is_ws x = true -> N.eqb (lower x) (lower c) = false.

Lemma ws_range (x : char) : is_ws x = true -> (x < 48 \/ 123 <= x)%N.
Proof.
  unfold is_ws, between. intros H.
  destruct (N.ltb_spec x 48) as [|H1]; [now left|].
  destruct (N.leb_spec 123 x) as [|H2]; [now right|].
  exfalso. split_class; simpl in H; discriminate.
Qed.

Lemma alpha_range (c : char) :
  is_alpha c = true -> (97 <= lower c <= 122)%N.
Proof.
  unfold is_alpha, lower, between. intros H.
  destruct (N.leb_spec 65 c), (N.leb_spec c 90), (N.leb_spec 97 c), (N.leb_spec c 122);
    simpl in H; try discriminate; cbn [andb]; lia.
Qed.

Lemma alpha_plain (c : char) : is_alpha c = true -> plain c.
Proof.
  intros Hc x Hx. apply N.eqb_neq. intros E.
  apply alpha_range in Hc. apply ws_range in Hx.
  assert (lower x = x).
  { unfold lower, between.
    destruct (N.leb_spec 65 x), (N.leb_spec x 90); cbn [andb]; try reflexivity. lia. }
  lia.
Qed.

(** Two words of letters that are both followed by white space at the
    front of [s] leave the same rest. *)
Lemma afterWord_agree cs :
  forall cs' s x t x' t',
    Forall plain cs -> Forall plain cs' ->
    afterWord cs s = Some (x :: t) -> is_ws x = true ->
    afterWord cs' s = Some (x' :: t') -> is_ws x' = true ->
    x :: t = x' :: t'.
Proof.
  induction cs as [|ch cs1 IH]; intros cs' s x t x' t' Hcs Hcs' H Hx H' Hx'.
  - injection H as ->. destruct cs' as [|ch' cs1']; [now injection H' as <- <-|].
    cbn [afterWord] in H'. inversion Hcs' as [|? ? Hp _]; subst.
    rewrite (Hp x Hx) in H'. discriminate H'.
  - destruct s as [|y s1]; [discriminate H|]. cbn [afterWord] in H.
    destruct (N.eqb (lower y) (lower ch)) eqn:Hy; [|discriminate H].
    inversion Hcs as [|? ? Hp Hcs1]; subst.
    destruct cs' as [|ch' cs1'].
    + injection H' as <- <-. rewrite (Hp y Hx') in Hy. discriminate Hy.
    + cbn [afterWord] in H'.
      destruct (N.eqb (lower y) (lower ch')); [|discriminate H'].
      inversion Hcs' as [|? ? _ Hcs1']; subst.
      exact (IH _ _ _ _ _ _ Hcs1 Hcs1' H Hx H' Hx').
Qed.

Lemma filler_agree cs cs' s rest rest' :
  Forall plain cs -> Forall plain cs' ->
  filler cs s = Some rest -> filler cs' s = Some rest' -> rest = rest'.
Proof.
  unfold filler. intros Hcs Hcs'.
  destruct (afterWord cs s) as [[|x t]|] eqn:H; try discriminate.
  destruct (is_ws x) eqn:Hx; [|discriminate]. intros [= <-].
  destruct (afterWord cs' s) as [[|x' t']|] eqn:H'; try discriminate.
  destruct (is_ws x') eqn:Hx'; [|discriminate]. intros [= <-].
  now injection (afterWord_agree _ _ _ _ _ _ _ Hcs Hcs' H Hx H' Hx') as _ ->.
Qed.

(** The words that [parseMetricAnswer] removes from the front of an
    answer. *)
Definition fillers : list jsstring :=
  [lit "the"; lit "total"; lit "approximately"; lit "about"].

(** [answer] is one of the words, in any case, then white space, then
    [rest]. *)
Definition introduced (answer rest : jsstring) : Prop :=
  exists word gap,
    answer = word ++ gap ++ rest
    /\ In (map lower word) fillers
    /\ gap <> []
    /\ Forall (fun x => is_ws x = true) gap.

Lemma fillers_plain : Forall (Forall plain) fillers.
Proof. repeat constructor; apply alpha_plain; reflexivity. Qed.

Lemma fillers_lower : Forall (fun cs => map lower cs = cs) fillers.
Proof. repeat constructor. Qed.

Lemma dropWhile_app_all {A} (p : A -> bool) (l t : list A) :
  Forall (fun x => p x = true) l -> dropWhile p (l ++ t) = dropWhile p t.
Proof. induction 1 as [|x l Hx _ IH]; [reflexivity|]. cbn [app dropWhile]. now rewrite Hx. Qed.

Lemma trim_dropWhile (s : jsstring) : trim (dropWhile is_ws s) = trim s.
Proof. unfold trim, trimStart. now rewrite dropWhile_idem. Qed.

Lemma dropWhile_split {A} (p : A -> bool) (l : list A) :
  exists gap, l = gap ++ dropWhile p l /\ Forall (fun x => p x = true) gap.
Proof.
  induction l as [|x t (gap & Ht & Hgap)].
  - exists []. split; [reflexivity|constructor].
  - cbn [dropWhile]. destruct (p x) eqn:Hx.
    + exists (x :: gap). split; [cbn [app]; now rewrite <- Ht|now constructor].
    + exists []. split; [reflexivity|constructor].
Qed.

Lemma filler_introduced cs s rest :
  In cs fillers -> filler cs s = Some rest -> introduced s rest.
Proof.
  unfold filler. intros Hin.
  destruct (afterWord cs s) as [[|x t]|] eqn:H; try discriminate.
  destruct (is_ws x) eqn:Hx; [|discriminate]. intros [= <-].
  destruct (afterWord_split _ _ _ H) as (word & -> & Hw).
  destruct (dropWhile_split is_ws t) as (gap & Ht & Hgap).
  exists word, (x :: gap). rewrite Hw.
  rewrite (proj1 (Forall_forall _ _) fillers_lower cs Hin).
  split; [|split; [exact Hin|split; [discriminate|now constructor]]].
  cbn [app]. now rewrite <- Ht.
Qed.

Lemma introduced_filler s rest :
  introduced s rest ->
  exists cs, In cs fillers /\ filler cs s = Some (dropWhile is_ws rest).
Proof.
  intros (word & gap & -> & Hin & Hne & Hgap).
  exists (map lower word). split; [exact Hin|].
  unfold filler. rewrite afterWord_app.
  - destruct gap as [|x g]; [contradiction|]. inversion Hgap as [|? ? Hx Hg]; subst.
    cbn [app]. rewrite Hx. now rewrite (dropWhile_app_all _ _ _ Hg).
  - rewrite (proj1 (Forall_forall _ _) fillers_lower _ Hin). reflexivity.
Qed.

(** *** What the prefix pattern removes *)

(** The rest after the first of the words that is at the front of [s], in
    the order of the pattern. *)
Definition stripped (s : jsstring) : option jsstring :=
  match filler (lit "the") s with
  | Some rest => Some rest
  | None =>
      match filler (lit "total") s with
      | Some rest => Some rest
      | None =>
          match filler (lit "approximately") s with
          | Some rest => Some rest
          | None => filler (lit "about") s
          end
      end
  end.

Lemma first_group_rest n0 i r s c :
  option_map fst (first n0 (Group i r) s c) = option_map fst (first n0 r s c).
Proof. unfold first. rewrite run_group. now destruct (run n0 r s c). Qed.

Lemma first_bol n0 r s c :
  first n0 (Seq Bol r) s c = if (List.length s =? n0)%nat then first n0 r s c else None.
Proof.
  unfold first. rewrite run_seq. cbn [run].
  destruct (List.length s =? n0)%nat; [|reflexivity].
  cbn [flat_map fst snd]. now rewrite app_nil_r.
Qed.

Lemma prefix_first (s : jsstring) :
  option_map fst (matchAt (List.length s) re_prefix s) = stripped s.
Proof.
  unfold matchAt. fold (first (List.length s) (Group 0 re_prefix) s []).
  rewrite first_group_rest. unfold re_prefix. cbv zeta.
  rewrite first_bol, Nat.eqb_refl, first_group_rest, !first_alt, !first_filler.
  unfold stripped.
  destruct (filler (lit "the") s); [reflexivity|].
  destruct (filler (lit "total") s); [reflexivity|].
  destruct (filler (lit "approximately") s); [reflexivity|].
  destruct (filler (lit "about") s); reflexivity.
Qed.

(** A pattern that begins with [^] matches nowhere but at the start. *)
Lemma replaceFirstFrom_bol n0 r f :
  forall s, (List.length s < n0)%nat -> replaceFirstFrom n0 (Seq Bol r) f s = s.
Proof.
  induction s as [|x t IH]; intros Hlen; cbn [replaceFirstFrom].
  - unfold matchAt. fold (first n0 (Group 0 (Seq Bol r)) [] []).
    destruct (first n0 (Group 0 (Seq Bol r)) [] []) as [a|] eqn:Ha; [|reflexivity].
    pose proof (first_group_rest n0 0 (Seq Bol r) [] []) as Hg.
    rewrite Ha, first_bol in Hg.
    replace (List.length (@nil char) =? n0)%nat with false in Hg
      by (symmetry; apply Nat.eqb_neq; simpl in *; lia).
    discriminate Hg.
  - unfold matchAt. fold (first n0 (Group 0 (Seq Bol r)) (x :: t) []).
    destruct (first n0 (Group 0 (Seq Bol r)) (x :: t) []) as [a|] eqn:Ha.
    + pose proof (first_group_rest n0 0 (Seq Bol r) (x :: t) []) as Hg.
      rewrite Ha, first_bol in Hg.
      replace (List.length (x :: t) =? n0)%nat with false in Hg
        by (symmetry; apply Nat.eqb_neq; lia).
      discriminate Hg.
    + rewrite IH by (simpl in Hlen; lia). reflexivity.
Qed.

Lemma prefix_removed (s : jsstring) :
  replaceFirst re_prefix (fun _ => []) s
  = match stripped s with Some rest => rest | None => s end.
Proof.
  unfold replaceFirst. pose proof (prefix_first s) as H.
  destruct s as [|x t]; [reflexivity|].
  cbn [replaceFirstFrom].
  destruct (matchAt (List.length (x :: t)) re_prefix (x :: t)) as [a|];
    cbn [option_map] in H; rewrite <- H; [reflexivity|].
  unfold re_prefix. cbv zeta. rewrite replaceFirstFrom_bol by (simpl; lia). reflexivity.
Qed.

Lemma stripped_some s rest :
  stripped s = Some rest -> exists cs, In cs fillers /\ filler cs s = Some rest.
Proof.
  unfold stripped, fillers.
  destruct (filler (lit "the") s) eqn:H1; [intros [= <-]; eexists; split; [|exact H1]; simpl; tauto|].
  destruct (filler (lit "total") s) eqn:H2; [intros [= <-]; eexists; split; [|exact H2]; simpl; tauto|].
  destruct (filler (lit "approximately") s) eqn:H3;
    [intros [= <-]; eexists; split; [|exact H3]; simpl; tauto|].
  intros H4. eexists; split; [|exact H4]. simpl; tauto.
Qed.

Lemma stripped_none s cs : stripped s = None -> In cs fillers -> filler cs s = None.
Proof.
  unfold stripped, fillers.
  destruct (filler (lit "the") s) eqn:H1; [discriminate|].
  destruct (filler (lit "total") s) eqn:H2; [discriminate|].
  destruct (filler (lit "approximately") s) eqn:H3; [discriminate|].
  intros H4 [<-|[<-|[<-|[<-|[]]]]]; assumption.
Qed.

(** The cleaned answer is the answer without its leading word, if it has
    one, trimmed. *)
Lemma cleanAnswer_introduced (answer : jsstring) :
  (forall rest, introduced answer rest -> cleanAnswer answer = trim rest)
  /\ ((forall rest, ~ introduced answer rest) -> cleanAnswer answer = trim answer).
Proof.
  unfold cleanAnswer. rewrite prefix_removed. split.
  - intros rest Hi. destruct (introduced_filler _ _ Hi) as (cs & Hin & Hf).
    destruct (stripped answer) as [rest'|] eqn:Hs.
    + destruct (stripped_some _ _ Hs) as (cs' & Hin' & Hf').
      rewrite (filler_agree cs' cs answer rest' _
                 (proj1 (Forall_forall _ _) fillers_plain _ Hin')
                 (proj1 (Forall_forall _ _) fillers_plain _ Hin) Hf' Hf).
      apply trim_dropWhile.
    + rewrite (stripped_none _ _ Hs Hin) in Hf. discriminate Hf.
  - intros Hno. destruct (stripped answer) as [rest'|] eqn:Hs; [|reflexivity].
    destruct (stripped_some _ _ Hs) as (cs & Hin & Hf).
    destruct (Hno _ (filler_introduced _ _ _ Hin Hf)).
Qed.

(** *** No digit in the answer *)

(** An answer without a digit is returned as the value and the units are
    left undefined, whatever unit the metric has.  The value is the answer
    trimmed, after its leading [the], [total], [approximately] or [about]
    (in any case) and the white space behind that word are removed, if
    the answer begins so. *)
Theorem parseMetricAnswer_no_digit (answer : jsstring) (metric : ESRSMetric.t) :
  Forall (fun x => is_digit x = false) answer ->
  (forall rest, introduced answer rest ->
                parseMetricAnswer answer metric = (Some (trim rest), None))
  /\ ((forall rest, ~ introduced answer rest) ->
      parseMetricAnswer answer metric = (Some (trim answer), None)).
Proof.
  intros H.
  assert (Hparse : parseMetricAnswer answer metric = (Some (cleanAnswer answer), None)).
  { unfold parseMetricAnswer. fold (cleanAnswer answer). unfold match_.
    now rewrite (exec_none is_digit _ _ _ numeric_mandatory (cleanAnswer_nondigit _ H)). }
  rewrite Hparse. destruct (cleanAnswer_introduced answer) as [H1 H2]. split.
  - intros rest Hi. now rewrite (H1 rest Hi).
  - intros Hno. now rewrite (H2 Hno).
Qed.

(** *** A digit in the answer *)



(** A leading word in capitals is removed with the white space behind it;
    a word that is not at the very start stays. *)
Lemma parseMetricAnswer_no_digit_witness :
  parseMetricAnswer (lit "About  none") Samples.scope1 = (Some (lit "none"), None)
  /\ parseMetricAnswer (lit " the same ") Samples.scope1 = (Some (lit "the same"), None).
Proof.
  split.
  - apply (proj1 (parseMetricAnswer_no_digit (lit "About  none") Samples.scope1
                    ltac:(repeat constructor)) (lit " none")).
    exists (lit "About"), (lit " "). repeat split.
    + simpl. tauto.
    + discriminate.
    + repeat constructor.
  - apply (proj2 (parseMetricAnswer_no_digit (lit " the same ") Samples.scope1
                    ltac:(repeat constructor))).
    intros rest (word & gap & Heq & Hin & Hne & Hgap).
    destruct Hin as [Hw|[Hw|[Hw|[Hw|[]]]]];
      (destruct word as [|x word]; [discriminate Hw|]);
      injection Heq as <- _; injection Hw as Hw _; vm_compute in Hw; discriminate Hw.
Defined.


End ParserFacts.

(** ** The evidence chunk *)

Module EvidenceFacts.
Import JS AIProcessor ExtractionProofs.

Lemma firstContaining_app answer documentChunks before after :
  noneContains answer documentChunks before ->
  firstContaining answer documentChunks (before ++ after)
  = firstContaining answer documentChunks after.
Proof.
  unfold noneContains.
  induction before as [|r rest IH]; intros H; [reflexivity|].
  cbn [app firstContaining].
  destruct (find _ documentChunks) as [sourceChunk|] eqn:Hfind.
  - rewrite (H r sourceChunk (or_introl eq_refl) Hfind).
    apply IH. intros r' sc Hin. apply H. now right.
  - apply IH. intros r' sc Hin. apply H. now right.
Qed.

(** The evidence is the chunk of the first retrieved entry whose chunk
    contains the answer, when there is one: an entry that names no chunk,
    or a chunk without the answer, is passed over. *)
Theorem findEvidenceChunk_first_containing answer documentChunks before r after chunk :
  noneContains answer documentChunks before ->
  find (hasId (EmbeddingResult.chunkId r)) documentChunks = Some chunk ->
  includes (DocumentChunk.text chunk) answer = true ->
  findEvidenceChunk answer documentChunks (before ++ r :: after) = Some chunk.
Proof.
  intros Hnone Hfind Hinc. unfold findEvidenceChunk.
  rewrite (firstContaining_app _ _ _ _ Hnone). cbn [firstContaining].
  now rewrite Hfind, Hinc.
Qed.

Lemma findEvidenceChunk_first_containing_witness :
  findEvidenceChunk (lit "310 people") [Samples.chunkA; Samples.chunkB]
    ([Samples.embedded Samples.chunkA [1; 0]%float]
     ++ Samples.embedded Samples.chunkB [1; 0]%float :: [])
  = Some Samples.chunkB.
Proof.
  apply findEvidenceChunk_first_containing.
  - intros r sourceChunk [<-|[]]. vm_compute. intros [= <-]. reflexivity.
  - vm_compute. reflexivity.
  - vm_compute. reflexivity.
Defined.

End EvidenceFacts.

(** ** document-processor.ts: hashing, the five formats and the dispatch *)

From Stdlib Require Strings.Byte.

Module DocumentPipeline.
Import JS Regex DocumentProcessor AIProcessor.

Module ProcessedDocument.
Record t : Type := mk {
  id : jsstring;
  filename : jsstring;
  mimeType : jsstring;
  sha256 : jsstring;
  chunks : list DocumentChunk.t;
  totalPages : option Z;
  totalChars : Z
}.
End ProcessedDocument.

(** An item of [textContent.items]: its [str] when that is a string,
    [None] when it is missing or something else. *)
Module TextItem.
Record t : Type := mk { str : option jsstring }.
End TextItem.

(** Everything outside the program: the [File] handed in, the Web Crypto
    digest, pdf.js, mammoth and SheetJS.  [Ext] is the state of that outside
    world; every call may change it and may throw (or reject). *)
Record Platform : Type := {
  Ext : Type;
  File : Type;
  Pdf : Type;
  Page : Type;
  Workbook : Type;
  name : File -> jsstring;
  type_ : File -> jsstring;
  file_arrayBuffer : File -> Ext -> result (list Byte.byte) * Ext;
  file_text : File -> Ext -> result jsstring * Ext;
  crypto_subtle_digest : list Byte.byte -> Ext -> result (list Byte.byte) * Ext;
  pdfjs_version : option jsstring;
  pdfjs_getDocument : list Byte.byte -> jsstring -> Ext -> result Pdf * Ext;
  numPages : Pdf -> Z;
  getPage : Pdf -> Z -> Ext -> result Page * Ext;
  getTextContent : Page -> Ext -> result (list TextItem.t) * Ext;
  mammoth_extractRawText : list Byte.byte -> Ext -> result jsstring * Ext;
  XLSX_read : list Byte.byte -> Ext -> result Workbook * Ext;
  SheetNames : Workbook -> list jsstring;
  sheet_to_csv : Workbook -> jsstring -> Ext -> result jsstring * Ext;
  toLowerCase : jsstring -> jsstring
}.

(** *** Pure helpers *)

(** One hexadecimal digit, lower case. *)
Definition hexDigit (d : N) : char := if (d <? 10)%N then (48 + d)%N else (87 + d)%N.

(** [b.toString(16)] for a byte. *)
Definition toString16 (b : N) : jsstring :=
  if (b <? 16)%N then [hexDigit b] else [hexDigit (b / 16); hexDigit (b mod 16)].

(** [s.padStart(n, '0')] *)
Definition padStart (n : nat) (s : jsstring) : jsstring :=
  repeat 48%N (n - List.length s) ++ s.

(** [Array.from(new Uint8Array(hashBuffer)).map(b => b.toString(16).padStart(2, '0')).join('')] *)
Definition hex (hashBuffer : list Byte.byte) : jsstring :=
  join [] (map (fun b => padStart 2 (toString16 (Byte.to_N b))) hashBuffer).

(** [s.split(c)] for a one-character separator. *)
Fixpoint split (c : char) (s : jsstring) : list jsstring :=
  match s with
  | [] => [[]]
  | x :: t =>
      if N.eqb x c then [] :: split c t
      else match split c t with
           | seg :: rest => (x :: seg) :: rest
           | [] => [[x]]
           end
  end.

(** [arr.pop()]: the last element, [None] for [undefined]. *)
Fixpoint pop {A} (l : list A) : option A :=
  match l with
  | [] => None
  | [x] => Some x
  | _ :: t => pop t
  end.

(** [x === 'literal'] for a value that may be [undefined]. *)
Definition equals (x : option jsstring) (s : jsstring) : bool :=
  match x with
  | Some v => JS.eqb v s
  | None => false
  end.

(** A value that may be [undefined] inside a template literal. *)
Definition shown (x : option jsstring) : jsstring :=
  match x with
  | Some v => v
  | None => lit "undefined"
  end.

(** [textContent.items.filter(item => item.str && typeof item.str === 'string')
      .map(item => item.str).join(' ')] *)
Definition joinItems (items : list TextItem.t) : jsstring :=
  join [chr_space]
       (flat_map (fun item => match TextItem.str item with
                              | Some (c :: s) => [c :: s]
                              | _ => []
                              end) items).

(** The [pageChunks.forEach] of [processPDF]: one chunk pushed per text,
    [totalChars] moved on by its length. *)
Fixpoint pushPageChunks (sha256 source : jsstring) (pageNum : Z) (index : nat)
    (pageChunks : list jsstring) (chunks : list DocumentChunk.t) (totalChars : Z)
    : list DocumentChunk.t * Z :=
  match pageChunks with
  | [] => (chunks, totalChars)
  | chunkText :: rest =>
      pushPageChunks sha256 source pageNum (S index) rest
        (chunks ++ [DocumentChunk.mk
                      (sha256 ++ lit "-page-" ++ toString (Z.to_N pageNum)
                       ++ lit "-chunk-" ++ toString (N.of_nat index))
                      (Some pageNum) (Some totalChars) (Some (totalChars + len chunkText))
                      chunkText source])
        (totalChars + len chunkText)
  end.

(** The [sheetChunks.forEach] of [processXLSX]. *)
Fixpoint pushSheetChunks (sha256 source : jsstring) (sheetIndex : nat) (index : nat)
    (sheetChunks : list jsstring) (chunks : list DocumentChunk.t) (totalChars : Z)
    : list DocumentChunk.t * Z :=
  match sheetChunks with
  | [] => (chunks, totalChars)
  | chunkText :: rest =>
      pushSheetChunks sha256 source sheetIndex (S index) rest
        (chunks ++ [DocumentChunk.mk
                      (sha256 ++ lit "-sheet-" ++ toString (N.of_nat sheetIndex)
                       ++ lit "-chunk-" ++ toString (N.of_nat index))
                      (Some (Z.of_nat sheetIndex + 1)) (Some totalChars)
                      (Some (totalChars + len chunkText))
                      chunkText source])
        (totalChars + len chunkText)
  end.

(** [textChunks.map((chunkText, index) => ({...}))] of [processDOCX],
    [processCSV] and [processTXT], from [index] on. *)
Fixpoint mapTextChunks (sha256 source : jsstring) (index : nat)
    (textChunks : list jsstring) : list DocumentChunk.t :=
  match textChunks with
  | [] => []
  | chunkText :: rest =>
      DocumentChunk.mk (sha256 ++ lit "-chunk-" ++ toString (N.of_nat index))
                       None (Some (Z.of_nat index * 600))
                       (Some ((Z.of_nat index + 1) * 600))
                       chunkText source
      :: mapTextChunks sha256 source (S index) rest
  end.

(** The page numbers [1 .. numPages] of the [for] loop. *)
Definition pageNumbers (numPages : Z) : list Z :=
  map Z.of_nat (seq 1 (Z.to_nat numPages)).

Section WithPlatform.
Variable P : Platform.

(** A computation on the outside world that returns or throws. *)
Definition IO (A : Type) : Type := Ext P -> result A * Ext P.

Definition ret {A} (a : A) : IO A := fun x => (Ok a, x).
Definition throw {A} (e : thrown) : IO A := fun x => (Err e, x).
Definition bind {A B} (m : IO A) (k : A -> IO B) : IO B :=
  fun x => match m x with
           | (Ok a, x') => k a x'
           | (Err e, x') => (Err e, x')
           end.
(** [try { body } catch (error) { handler }] *)
Definition try_ {A} (body : IO A) (handler : thrown -> IO A) : IO A :=
  fun x => match body x with
           | (Ok a, x') => (Ok a, x')
           | (Err e, x') => handler e x'
           end.

Notation "x <- m ;; k" := (bind m (fun x => k))
  (at level 61, m at next level, right associativity).

(** Calculate SHA-256 hash of file. *)
Definition calculateFileHash (file : File P) : IO jsstring :=
  buffer <- file_arrayBuffer P file ;;
  hashBuffer <- crypto_subtle_digest P buffer ;;
  ret (hex hashBuffer).

(** The [for] loop of [processPDF] over the pages still to do. *)
Fixpoint processPages (pdf : Pdf P) (sha256 source : jsstring) (pageNums : list Z)
    (chunks : list DocumentChunk.t) (totalChars : Z)
    : IO (list DocumentChunk.t * Z) :=
  match pageNums with
  | [] => ret (chunks, totalChars)
  | pageNum :: rest =>
      state <- try_
                 (page <- getPage P pdf pageNum ;;
                  textContent <- getTextContent P page ;;
                  let pageText := normalizeText (joinItems textContent) in
                  if 0 <? len (trim pageText) then
                    let pageChunks := chunkText pageText 800 200 in
                    ret (pushPageChunks sha256 source pageNum 0 pageChunks
                                        chunks totalChars)
                  else ret (chunks, totalChars))
                 (fun pageError => ret (chunks, totalChars)) ;;
      processPages pdf sha256 source rest (fst state) (snd state)
  end.

(** PDF Processing. *)
Definition processPDF (file : File P) : IO ProcessedDocument.t :=
  try_
    (arrayBuffer <- file_arrayBuffer P file ;;
     let pdfjsVersion := orElse (truthy_string (pdfjs_version P)) (lit "5.4.54") in
     pdf <- pdfjs_getDocument P arrayBuffer
              (lit "https://cdn.jsdelivr.net/npm/pdfjs-dist@" ++ pdfjsVersion
               ++ lit "/cmaps/") ;;
     sha256 <- calculateFileHash file ;;
     state <- processPages pdf sha256 (name P file) (pageNumbers (numPages P pdf)) [] 0 ;;
     let chunks := fst state in
     let totalChars := snd state in
     if (List.length chunks =? 0)%nat then
       throw (Error (lit "No text could be extracted from PDF: " ++ name P file
                     ++ lit ". The PDF might be image-based or corrupted."))
     else
       ret (ProcessedDocument.mk sha256 (name P file) (type_ P file) sha256 chunks
                                 (Some (numPages P pdf)) totalChars))
    (fun error =>
       throw (Error (lit "Failed to process PDF " ++ name P file ++ lit ": "
                     ++ messageOf error))).

(** DOCX Processing. *)
Definition processDOCX (file : File P) : IO ProcessedDocument.t :=
  arrayBuffer <- file_arrayBuffer P file ;;
  result <- mammoth_extractRawText P arrayBuffer ;;
  sha256 <- calculateFileHash file ;;
  let normalizedText := normalizeText result in
  let textChunks := chunkText normalizedText 800 200 in
  let chunks := mapTextChunks sha256 (name P file) 0 textChunks in
  ret (ProcessedDocument.mk sha256 (name P file) (type_ P file) sha256 chunks
                            None (len normalizedText)).

(** The [workbook.SheetNames.forEach] of [processXLSX]. *)
Fixpoint processSheets (workbook : Workbook P) (sha256 source : jsstring)
    (sheetNames : list jsstring) (sheetIndex : nat)
    (chunks : list DocumentChunk.t) (totalChars : Z)
    : IO (list DocumentChunk.t * Z) :=
  match sheetNames with
  | [] => ret (chunks, totalChars)
  | sheetName :: rest =>
      csvData <- sheet_to_csv P workbook sheetName ;;
      let state :=
        if 0 <? len (trim csvData) then
          let normalizedText :=
            normalizeText (lit "Sheet: " ++ sheetName ++ [chr_nl] ++ csvData) in
          let sheetChunks := chunkText normalizedText 800 200 in
          pushSheetChunks sha256 source sheetIndex 0 sheetChunks chunks totalChars
        else (chunks, totalChars) in
      processSheets workbook sha256 source rest (S sheetIndex) (fst state) (snd state)
  end.

(** XLSX Processing. *)
Definition processXLSX (file : File P) : IO ProcessedDocument.t :=
  arrayBuffer <- file_arrayBuffer P file ;;
  workbook <- XLSX_read P arrayBuffer ;;
  sha256 <- calculateFileHash file ;;
  state <- processSheets workbook sha256 (name P file) (SheetNames P workbook) 0 [] 0 ;;
  ret (ProcessedDocument.mk sha256 (name P file) (type_ P file) sha256 (fst state)
                            (Some (Z.of_nat (List.length (SheetNames P workbook))))
                            (snd state)).

(** CSV Processing. *)
Definition processCSV (file : File P) : IO ProcessedDocument.t :=
  text <- file_text P file ;;
  sha256 <- calculateFileHash file ;;
  let normalizedText := normalizeText text in
  let textChunks := chunkText normalizedText 800 200 in
  let chunks := mapTextChunks sha256 (name P file) 0 textChunks in
  ret (ProcessedDocument.mk sha256 (name P file) (type_ P file) sha256 chunks
                            None (len normalizedText)).

(** TXT Processing. *)
Definition processTXT (file : File P) : IO ProcessedDocument.t :=
  text <- file_text P file ;;
  sha256 <- calculateFileHash file ;;
  let normalizedText := normalizeText text in
  let textChunks := chunkText normalizedText 800 200 in
  let chunks := mapTextChunks sha256 (name P file) 0 textChunks in
  ret (ProcessedDocument.mk sha256 (name P file) (type_ P file) sha256 chunks
                            None (len normalizedText)).

(** Main processing function. *)
Definition processDocument (file : File P) : IO ProcessedDocument.t :=
  let mimeType := toLowerCase P (type_ P file) in
  let extension := pop (split chr_dot (toLowerCase P (name P file))) in
  try_
    (if (JS.eqb mimeType (lit "application/pdf") || equals extension (lit "pdf"))%bool then
       processPDF file
     else if (JS.eqb mimeType
                (lit "application/vnd.openxmlformats-officedocument.wordprocessingml.document")
              || equals extension (lit "docx"))%bool then
       processDOCX file
     else if (JS.eqb mimeType
                (lit "application/vnd.openxmlformats-officedocument.spreadsheetml.sheet")
              || equals extension (lit "xlsx"))%bool then
       processXLSX file
     else if (JS.eqb mimeType (lit "text/csv") || equals extension (lit "csv"))%bool then
       processCSV file
     else if (JS.eqb mimeType (lit "text/plain") || equals extension (lit "txt"))%bool then
       processTXT file
     else
       throw (Error (lit "Unsupported file type: " ++ mimeType ++ lit " ("
                     ++ shown extension
                     ++ lit "). Supported formats: PDF, DOCX, XLSX, CSV, TXT")))
    (fun error => throw error).

End WithPlatform.

End DocumentPipeline.

(** ** What the document processors return *)

Module DocumentFacts.
Import JS Regex DocumentProcessor AIProcessor RegexFacts ChunkerProofs ChunkerFacts.
Import PercentFacts NormalizerFacts DocumentPipeline.

(** *** The hash string *)

(** [[0-9a-f]] *)
Definition is_hex (c : char) : bool := (between 48 57 c || between 97 102 c)%bool.

Definition hexValue (c : char) : N := if (c <? 58)%N then (c - 48)%N else (c - 87)%N.

(** Reading the two-digit groups of a hash string back. *)
Fixpoint unhex (s : jsstring) : option (list Byte.byte) :=
  match s with
  | [] => Some []
  | h :: l :: t =>
      match Byte.of_N (16 * hexValue h + hexValue l), unhex t with
      | Some b, Some bs => Some (b :: bs)
      | _, _ => None
      end
  | [_] => None
  end.

Lemma join_nil (parts : list jsstring) : join [] parts = List.concat parts.
Proof.
  induction parts as [|p [|q rest] IH]; [reflexivity|simpl; now rewrite app_nil_r|].
  change (join [] (p :: q :: rest)) with (p ++ [] ++ join [] (q :: rest)).
  rewrite IH. reflexivity.
Qed.

Lemma byte_digits (b : Byte.byte) :
  exists h l,
    padStart 2 (toString16 (Byte.to_N b)) = [h; l]
    /\ is_hex h = true /\ is_hex l = true
    /\ Byte.of_N (16 * hexValue h + hexValue l) = Some b.
Proof.
  destruct b; eexists _, _; (split; [reflexivity|]); repeat split; reflexivity.
Qed.

Lemma hex_cons (b : Byte.byte) (bs : list Byte.byte) :
  hex (b :: bs) = padStart 2 (toString16 (Byte.to_N b)) ++ hex bs.
Proof. unfold hex. rewrite !join_nil. reflexivity. Qed.

Lemma unhex_hex (bytes : list Byte.byte) : unhex (hex bytes) = Some bytes.
Proof.
  induction bytes as [|b bs IH]; [reflexivity|].
  rewrite hex_cons. destruct (byte_digits b) as (h & l & -> & _ & _ & Hb).
  cbn [app unhex]. now rewrite Hb, IH.
Qed.

Lemma hex_digits (hashBuffer : list Byte.byte) :
  len (hex hashBuffer) = 2 * Z.of_nat (List.length hashBuffer)
  /\ Forall (fun c => is_hex c = true) (hex hashBuffer)
  /\ forall other, hex other = hex hashBuffer -> other = hashBuffer.
Proof.
  split; [|split].
  - unfold len. induction hashBuffer as [|b bs IH]; [reflexivity|].
    rewrite hex_cons. destruct (byte_digits b) as (h & l & -> & _).
    cbn [app List.length]. lia.
  - induction hashBuffer as [|b bs IH]; [constructor|].
    rewrite hex_cons. destruct (byte_digits b) as (h & l & -> & Hh & Hl & _).
    cbn [app]. now repeat constructor.
  - intros other H. apply (f_equal unhex) in H. rewrite !unhex_hex in H. congruence.
Qed.


(** *** The first window of a long text *)

Lemma chunkLoop_acc (text : jsstring) (maxChars overlap : Z) :
  forall fuel start acc,
    chunkLoop fuel text maxChars overlap start acc
    = option_map (app acc) (chunkLoop fuel text maxChars overlap start []).
Proof.
  induction fuel as [|fuel IH]; intros start acc; cbn [chunkLoop].
  - destruct (start <? len text); [reflexivity|]. simpl. now rewrite app_nil_r.
  - destruct (start <? len text); [|simpl; now rewrite app_nil_r].
    rewrite IH. rewrite (IH _ ([] ++ _)).
    destruct (chunkLoop fuel text maxChars overlap _ []) as [l|]; [|reflexivity].
    simpl. now rewrite <- app_assoc.
Qed.

Lemma tidy_pair (a : jsstring) (y z : char) :
  tidy (a ++ [y; z]) = true -> is_ws y = true -> is_ws z = false.
Proof.
  intros H Hy. apply tidy_app_r in H. cbn [tidy] in H. rewrite Hy in H.
  apply andb_true_iff in H. destruct H as [H _].
  apply andb_true_iff in H. destruct H as [_ H]. simpl in H.
  now apply negb_true_iff.
Qed.

(** Trimming a tidy text takes at most one space off each end. *)
Lemma tidy_trim_length (s : jsstring) : tidy s = true -> len s - 2 <= len (trim s).
Proof.
  intros Hs. unfold trim, trimStart, trimEnd, len.
  set (u := dropWhile is_ws s).
  assert (Hu : tidy u = true) by (eapply tidy_suffix; [apply dropWhile_suffix|exact Hs]).
  assert (Hlu : (List.length s <= S (List.length u))%nat).
  { subst u. destruct s as [|x t]; [simpl; lia|]. cbn [dropWhile tidy] in *.
    destruct (is_ws x); [|simpl; lia].
    apply andb_true_iff in Hs. destruct Hs as [Hx _].
    apply andb_true_iff in Hx. destruct Hx as [_ Hn].
    rewrite (dropWhile_nonws _ Hn). simpl. lia. }
  assert (Hlr : (List.length u <= S (List.length (dropWhile is_ws (rev u))))%nat).
  { rewrite <- (length_rev u). destruct (rev u) as [|z r] eqn:Hrev; [simpl; lia|].
    cbn [dropWhile]. destruct (is_ws z) eqn:Hz; [|simpl; lia].
    destruct r as [|y r']; [simpl; lia|].
    assert (Hyz : u = rev r' ++ [y; z]).
    { rewrite <- (rev_involutive u), Hrev. cbn [rev]. now rewrite <- app_assoc. }
    rewrite Hyz in Hu. cbn [dropWhile].
    destruct (is_ws y) eqn:Hy; [|simpl; lia].
    pose proof (tidy_pair _ _ _ Hu Hy). congruence. }
  rewrite length_rev. lia.
Qed.

Lemma factor_tidy (p s : jsstring) : factor p s -> tidy s = true -> tidy p = true.
Proof. intros (a & b & ->) H. apply tidy_app_r in H. now apply tidy_app_l in H. Qed.

Lemma slice_from_start (s : jsstring) (e : Z) :
  0 <= e <= len s -> len (slice s 0 e) = e.
Proof.
  intros He. unfold slice, len in *. cbv zeta.
  replace (0 <? 0) with false by reflexivity.
  replace (e <? 0) with false by (symmetry; apply Z.ltb_ge; lia).
  replace (Z.min 0 (Z.of_nat (List.length s))) with 0 by lia.
  cbn [skipn Z.to_nat]. rewrite length_firstn. lia.
Qed.

(** A tidy text longer than [maxChars] gives at least one chunk, when
    [maxChars] is at least 104. *)
Lemma chunkText_tidy_nonempty (text : jsstring) (maxChars overlap : Z) :
  104 <= maxChars -> tidy text = true -> chunkText text maxChars overlap <> [].
Proof.
  intros Hm Ht.
  pose proof (chunkTextFuel_enough text maxChars overlap _ (le_n _)) as H.
  unfold chunkTextFuel in H.
  destruct (len text <=? maxChars) eqn:Hle; [injection H as <-; discriminate|].
  apply Z.leb_gt in Hle.
  destruct (List.length text) as [|fuel] eqn:Hlen; [unfold len in Hle; lia|].
  cbn [chunkLoop] in H.
  replace (0 <? len text) with true in H by (symmetry; apply Z.ltb_lt; lia).
  rewrite chunkLoop_acc in H. cbn [app] in H.
  destruct (chunkLoop fuel text maxChars overlap _ []) as [l|]; [|discriminate].
  simpl in H.
  set (c0 := trim (slice text 0 (windowEnd text maxChars 0))) in H.
  assert (Hc0 : 50 < len c0).
  { pose proof (windowEnd_bounds text maxChars 0 ltac:(lia) ltac:(lia)) as [Hw Hw'].
    assert (Hlow : 53 <= windowEnd text maxChars 0).
    { unfold windowEnd. cbv zeta.
      destruct (Z.min (0 + maxChars) (len text) <? len text); [|lia].
      destruct (2 * 0 + maxChars <? 2 * _) eqn:Hb; [apply Z.ltb_lt in Hb|]; lia. }
    pose proof (tidy_trim_length (slice text 0 (windowEnd text maxChars 0))
                  (factor_tidy _ _ (factor_slice text 0 _) Ht)).
    rewrite slice_from_start in H0 by lia. subst c0. lia. }
  apply Z.ltb_lt in Hc0. rewrite Hc0 in H. injection H as <-. discriminate.
Qed.

(** *** Placing the chunks *)

(** The chunks lie end to end from offset [from] to offset [to]. *)
Fixpoint contiguous (from : Z) (chunks : list DocumentChunk.t) (to : Z) : Prop :=
  match chunks with
  | [] => from = to
  | chunk :: rest =>
      DocumentChunk.startChar chunk = Some from
      /\ DocumentChunk.endChar chunk = Some (from + len (DocumentChunk.text chunk))
      /\ contiguous (from + len (DocumentChunk.text chunk)) rest to
  end.

Lemma contiguous_app a l1 b l2 c :
  contiguous a l1 b -> contiguous b l2 c -> contiguous a (l1 ++ l2) c.
Proof.
  revert a. induction l1 as [|x l1 IH]; intros a; cbn [contiguous app].
  - now intros ->.
  - intros (Hs & He & H) H2. auto.
Qed.

(** What the chunks of a document have: a text that is not empty, and the
    file name as their source. *)
Definition placed (source : jsstring) (chunk : DocumentChunk.t) : Prop :=
  DocumentChunk.text chunk <> [] /\ DocumentChunk.source chunk = source.

Definition laidOut (source : jsstring) (chunks : list DocumentChunk.t) (totalChars : Z)
    : Prop :=
  contiguous 0 chunks totalChars /\ Forall (placed source) chunks.

Lemma pushPageChunks_laidOut sha256 source pageNum :
  forall pageChunks index chunks totalChars,
    Forall (fun chunk => chunk <> []) pageChunks ->
    laidOut source chunks totalChars ->
    laidOut source
      (fst (pushPageChunks sha256 source pageNum index pageChunks chunks totalChars))
      (snd (pushPageChunks sha256 source pageNum index pageChunks chunks totalChars)).
Proof.
  induction pageChunks as [|c rest IH]; intros index chunks totalChars Hne [Hc Hp];
    cbn [pushPageChunks]; [now split|].
  inversion Hne as [|? ? Hc0 Hrest]; subst. apply IH; [exact Hrest|]. split.
  - eapply contiguous_app; [exact Hc|]. cbn. auto.
  - apply Forall_app. split; [exact Hp|]. repeat constructor. exact Hc0.
Qed.

Lemma pushSheetChunks_laidOut sha256 source sheetIndex :
  forall sheetChunks index chunks totalChars,
    Forall (fun chunk => chunk <> []) sheetChunks ->
    laidOut source chunks totalChars ->
    laidOut source
      (fst (pushSheetChunks sha256 source sheetIndex index sheetChunks chunks totalChars))
      (snd (pushSheetChunks sha256 source sheetIndex index sheetChunks chunks totalChars)).
Proof.
  induction sheetChunks as [|c rest IH]; intros index chunks totalChars Hne [Hc Hp];
    cbn [pushSheetChunks]; [now split|].
  inversion Hne as [|? ? Hc0 Hrest]; subst. apply IH; [exact Hrest|]. split.
  - eapply contiguous_app; [exact Hc|]. cbn. auto.
  - apply Forall_app. split; [exact Hp|]. repeat constructor. exact Hc0.
Qed.

Lemma chunkText_of_nonempty (text : jsstring) (maxChars overlap : Z) :
  text <> [] -> Forall (fun chunk => chunk <> []) (chunkText text maxChars overlap).
Proof.
  intros Htext.
  destruct (chunkText_cases text maxChars overlap) as [[_ ->]|[_ [candidates ->]]].
  - constructor; [assumption|constructor].
  - apply Forall_forall. intros chunk Hin.
    apply filter_In in Hin. destruct Hin as [_ Hlen].
    intros ->. discriminate Hlen.
Qed.

Lemma trim_nonempty (s : jsstring) : (0 <? len (trim s)) = true -> s <> [].
Proof. intros H ->. discriminate H. Qed.

Section WithPlatform.
Variable P : Platform.

(** *** PDF *)

(** The page loop never throws, and keeps the chunks laid out. *)
Lemma processPages_laidOut pdf sha256 source :
  forall pageNums chunks totalChars x,
    laidOut source chunks totalChars ->
    exists chunks' totalChars' x',
      processPages P pdf sha256 source pageNums chunks totalChars x
      = (Ok (chunks', totalChars'), x')
      /\ laidOut source chunks' totalChars'.
Proof.
  induction pageNums as [|pageNum rest IH]; intros chunks totalChars x Hl;
    cbn [processPages].
  - unfold ret. eauto.
  - unfold bind at 1. unfold try_, bind at 1.
    destruct (getPage P pdf pageNum x) as [[page|e] x1]; [|unfold ret; now apply IH].
    unfold bind at 1.
    destruct (getTextContent P page x1) as [[textContent|e] x2];
      [|unfold ret; now apply IH].
    destruct (0 <? len (trim (normalizeText (joinItems textContent)))) eqn:Htext;
      unfold ret; [|now apply IH].
    apply IH. apply pushPageChunks_laidOut; [|exact Hl].
    apply chunkText_of_nonempty. now apply trim_nonempty.
Qed.

Definition noText (file : File P) : thrown :=
  Error (lit "Failed to process PDF " ++ name P file ++ lit ": "
         ++ lit "No text could be extracted from PDF: " ++ name P file
         ++ lit ". The PDF might be image-based or corrupted.").

(** What [processPDF] does once the file is read, the document opened and
    the hash computed. *)
Lemma processPDF_loaded file x arrayBuffer x1 pdf x2 sha256 x3 :
  file_arrayBuffer P file x = (Ok arrayBuffer, x1) ->
  pdfjs_getDocument P arrayBuffer
    (lit "https://cdn.jsdelivr.net/npm/pdfjs-dist@"
     ++ orElse (truthy_string (pdfjs_version P)) (lit "5.4.54") ++ lit "/cmaps/") x1
  = (Ok pdf, x2) ->
  calculateFileHash P file x2 = (Ok sha256, x3) ->
  exists chunks totalChars x',
    laidOut (name P file) chunks totalChars
    /\ processPDF P file x
       = (if (List.length chunks =? 0)%nat then Err (noText file)
          else Ok (ProcessedDocument.mk sha256 (name P file) (type_ P file) sha256
                                        chunks (Some (numPages P pdf)) totalChars),
          x').
Proof.
  intros Hbuf Hdoc Hhash.
  destruct (processPages_laidOut pdf sha256 (name P file)
              (pageNumbers (numPages P pdf)) [] 0 x3)
    as (chunks & totalChars & x' & Hpages & Hl); [split; [reflexivity|constructor]|].
  exists chunks, totalChars, x'. split; [exact Hl|].
  unfold processPDF, try_. unfold bind at 1. rewrite Hbuf. cbv zeta.
  unfold bind at 1. rewrite Hdoc.
  unfold bind at 1. rewrite Hhash.
  unfold bind at 1. rewrite Hpages. cbn [fst snd].
  destruct (List.length chunks =? 0)%nat; unfold throw, ret; [|reflexivity].
  reflexivity.
Qed.

(** A document returned by [processPDF] has at least one chunk; its chunks
    lie end to end from offset 0 to [totalChars], each with a text that is
    not empty and the file name as its source. *)
Theorem processPDF_offsets file x doc x' :
  processPDF P file x = (Ok doc, x') ->
  ProcessedDocument.chunks doc <> []
  /\ contiguous 0 (ProcessedDocument.chunks doc) (ProcessedDocument.totalChars doc)
  /\ Forall (placed (name P file)) (ProcessedDocument.chunks doc).
Proof.
  intros H.
  destruct (file_arrayBuffer P file x) as [[arrayBuffer|e] x1] eqn:Hbuf;
    [|unfold processPDF, try_ in H; unfold bind at 1 in H; rewrite Hbuf in H;
      discriminate H].
  destruct (pdfjs_getDocument P arrayBuffer
              (lit "https://cdn.jsdelivr.net/npm/pdfjs-dist@"
               ++ orElse (truthy_string (pdfjs_version P)) (lit "5.4.54")
               ++ lit "/cmaps/") x1) as [[pdf|e] x2] eqn:Hdoc;
    [|unfold processPDF, try_ in H; unfold bind at 1 in H; rewrite Hbuf in H;
      cbv zeta in H; unfold bind at 1 in H; rewrite Hdoc in H; discriminate H].
  destruct (calculateFileHash P file x2) as [[sha256|e] x3] eqn:Hhash;
    [|unfold processPDF, try_ in H; unfold bind at 1 in H; rewrite Hbuf in H;
      cbv zeta in H; unfold bind at 1 in H; rewrite Hdoc in H;
      unfold bind at 1 in H; rewrite Hhash in H; discriminate H].
  destruct (processPDF_loaded _ _ _ _ _ _ _ _ Hbuf Hdoc Hhash)
    as (chunks & totalChars & x4 & [Hc Hp] & Hrun).
  rewrite Hrun in H.
  destruct (List.length chunks =? 0)%nat eqn:Hn; [discriminate H|].
  injection H as <- _. cbn. repeat split; try assumption.
  intros ->. discriminate Hn.
Qed.

(** A page that cannot be read does not fail the document: once the file
    is read, the document opened and the hash computed, [processPDF]
    returns a document or throws that no text could be extracted, whatever
    the pages do. *)
Theorem processPDF_page_errors file x arrayBuffer x1 pdf x2 sha256 x3 :
  file_arrayBuffer P file x = (Ok arrayBuffer, x1) ->
  pdfjs_getDocument P arrayBuffer
    (lit "https://cdn.jsdelivr.net/npm/pdfjs-dist@"
     ++ orElse (truthy_string (pdfjs_version P)) (lit "5.4.54") ++ lit "/cmaps/") x1
  = (Ok pdf, x2) ->
  calculateFileHash P file x2 = (Ok sha256, x3) ->
  exists x',
    processPDF P file x = (Err (noText file), x')
    \/ exists doc, processPDF P file x = (Ok doc, x')
                   /\ ProcessedDocument.sha256 doc = sha256
                   /\ ProcessedDocument.totalPages doc = Some (numPages P pdf).
Proof.
  intros Hbuf Hdoc Hhash.
  destruct (processPDF_loaded _ _ _ _ _ _ _ _ Hbuf Hdoc Hhash)
    as (chunks & totalChars & x4 & _ & Hrun).
  exists x4. rewrite Hrun.
  destruct (List.length chunks =? 0)%nat; [now left|right; eauto].
Qed.

(** *** The hash *)

(** The hash string that [calculateFileHash] returns has two lower-case
    hexadecimal digits for each byte of the digest, and no other digest
    gives the same string. *)
Theorem calculateFileHash_hex file x sha256 x' :
  calculateFileHash P file x = (Ok sha256, x') ->
  exists buffer x1 hashBuffer,
    file_arrayBuffer P file x = (Ok buffer, x1)
    /\ crypto_subtle_digest P buffer x1 = (Ok hashBuffer, x')
    /\ len sha256 = 2 * Z.of_nat (List.length hashBuffer)
    /\ Forall (fun c => is_hex c = true) sha256
    /\ forall other, hex other = sha256 -> other = hashBuffer.
Proof.
  unfold calculateFileHash, bind, ret.
  destruct (file_arrayBuffer P file x) as [[buffer|e] x1] eqn:Hbuf; [|discriminate].
  destruct (crypto_subtle_digest P buffer x1) as [[hashBuffer|e] x2] eqn:Hdig;
    [|discriminate].
  intros [= <- <-]. exists buffer, x1, hashBuffer.
  split; [reflexivity|]. split; [exact Hdig|]. apply hex_digits.
Qed.

(** *** TXT, CSV and DOCX *)

(** The document that [processTXT], [processCSV] and [processDOCX] build
    from the text they have read. *)
Definition textDocument (file : File P) (sha256 content : jsstring)
    : ProcessedDocument.t :=
  ProcessedDocument.mk sha256 (name P file) (type_ P file) sha256
    (mapTextChunks sha256 (name P file) 0 (chunkText (normalizeText content) 800 200))
    None (len (normalizeText content)).

Definition textual (f : File P -> IO P ProcessedDocument.t) : Prop :=
  f = processTXT P \/ f = processCSV P \/ f = processDOCX P.

Lemma textual_inv f file x doc x' :
  textual f -> f file x = (Ok doc, x') ->
  exists sha256 content, doc = textDocument file sha256 content.
Proof.
  intros [-> | [-> | ->]].
  - unfold processTXT, bind, ret.
    destruct (file_text P file x) as [[content|e] x1]; [|discriminate].
    destruct (calculateFileHash P file x1) as [[sha256|e] x2]; [|discriminate].
    intros H. exists sha256, content. unfold textDocument. congruence.
  - unfold processCSV, bind, ret.
    destruct (file_text P file x) as [[content|e] x1]; [|discriminate].
    destruct (calculateFileHash P file x1) as [[sha256|e] x2]; [|discriminate].
    intros H. exists sha256, content. unfold textDocument. congruence.
  - unfold processDOCX, bind, ret.
    destruct (file_arrayBuffer P file x) as [[buffer|e] x1]; [|discriminate].
    destruct (mammoth_extractRawText P buffer x1) as [[content|e] x2]; [|discriminate].
    destruct (calculateFileHash P file x2) as [[sha256|e] x3]; [|discriminate].
    intros H. exists sha256, content. unfold textDocument. congruence.
Qed.

Lemma mapTextChunks_texts sha256 source :
  forall textChunks index,
    map DocumentChunk.text (mapTextChunks sha256 source index textChunks) = textChunks.
Proof.
  induction textChunks as [|c rest IH]; intros index; cbn [mapTextChunks map];
    [reflexivity|]. now rewrite IH.
Qed.

Lemma Forall_texts (Q : jsstring -> Prop) (chunks : list DocumentChunk.t) :
  Forall Q (map DocumentChunk.text chunks) ->
  Forall (fun chunk => Q (DocumentChunk.text chunk)) chunks.
Proof.
  induction chunks as [|c l IH]; intros H; [constructor|].
  inversion H; subst. constructor; auto.
Qed.

(** A document built by [processTXT], [processCSV] or [processDOCX] always
    has a chunk, and no chunk text is longer than 801 characters.  When the
    text read is blank ([totalChars] is 0) it has exactly one chunk, whose
    text is empty; otherwise no chunk text is empty. *)
Theorem text_document_chunks f file x doc x' :
  textual f -> f file x = (Ok doc, x') ->
  ProcessedDocument.chunks doc <> []
  /\ Forall (fun chunk => len (DocumentChunk.text chunk) <= 801)
            (ProcessedDocument.chunks doc)
  /\ (ProcessedDocument.totalChars doc = 0 ->
      exists chunk, ProcessedDocument.chunks doc = [chunk]
                    /\ DocumentChunk.text chunk = [])
  /\ (0 < ProcessedDocument.totalChars doc ->
      Forall (fun chunk => DocumentChunk.text chunk <> [])
             (ProcessedDocument.chunks doc)).
Proof.
  intros Hf H. destruct (textual_inv _ _ _ _ _ Hf H) as (sha256 & content & ->).
  unfold textDocument. cbn [ProcessedDocument.chunks ProcessedDocument.totalChars].
  set (normalizedText := normalizeText content).
  pose proof (mapTextChunks_texts sha256 (name P file)
                (chunkText normalizedText 800 200) 0) as Htexts.
  repeat split.
  - intros E. rewrite E in Htexts. symmetry in Htexts. revert Htexts.
    apply chunkText_tidy_nonempty; [lia|apply normalizeText_tidy].
  - apply (Forall_texts (fun t => len t <= 801)). rewrite Htexts.
    apply (chunkText_bounded normalizedText 800 200). lia.
  - intros Hlen. assert (Hn : normalizedText = [])
      by (destruct normalizedText; [reflexivity|unfold len in Hlen; simpl in Hlen; lia]).
    rewrite Hn. eexists. split; reflexivity.
  - intros Hlen. apply (Forall_texts (fun t => t <> [])). rewrite Htexts.
    apply chunkText_of_nonempty. intros E. rewrite E in Hlen. discriminate Hlen.
Qed.

(** *** XLSX *)

Lemma processSheets_laidOut workbook sha256 source :
  forall sheetNames sheetIndex chunks totalChars x chunks' totalChars' x',
    laidOut source chunks totalChars ->
    processSheets P workbook sha256 source sheetNames sheetIndex chunks totalChars x
    = (Ok (chunks', totalChars'), x') ->
    laidOut source chunks' totalChars'.
Proof.
  induction sheetNames as [|sheetName rest IH];
    intros sheetIndex chunks totalChars x chunks' totalChars' x' Hl;
    cbn [processSheets].
  - unfold ret. now intros [= <- <- _].
  - unfold bind at 1.
    destruct (sheet_to_csv P workbook sheetName x) as [[csvData|e] x1]; [|discriminate].
    apply IH. destruct (0 <? len (trim csvData)) eqn:Hcsv; [|exact Hl].
    apply pushSheetChunks_laidOut; [|exact Hl].
    apply chunkText_of_nonempty.
    intros E. apply normalizeText_nil in E.
    apply Forall_app in E. destruct E as [E _]. inversion E as [|? ? HS _]. discriminate HS.
Qed.

(** The chunks of a document returned by [processXLSX] lie end to end from
    offset 0 to [totalChars], each with a text that is not empty and the
    file name as its source.  For a workbook without sheets, read from a
    file that can be read and hashed, [processXLSX] returns the document
    without chunks, with 0 pages and 0 characters, and does not throw. *)
Theorem processXLSX_offsets file x :
  (forall doc x',
      processXLSX P file x = (Ok doc, x') ->
      contiguous 0 (ProcessedDocument.chunks doc) (ProcessedDocument.totalChars doc)
      /\ Forall (placed (name P file)) (ProcessedDocument.chunks doc))
  /\ (forall arrayBuffer x1 workbook x2 sha256 x3,
         file_arrayBuffer P file x = (Ok arrayBuffer, x1) ->
         XLSX_read P arrayBuffer x1 = (Ok workbook, x2) ->
         calculateFileHash P file x2 = (Ok sha256, x3) ->
         SheetNames P workbook = [] ->
         processXLSX P file x
         = (Ok (ProcessedDocument.mk sha256 (name P file) (type_ P file) sha256 []
                                     (Some 0) 0), x3)).
Proof.
  split.
  - intros doc x'. unfold processXLSX. unfold bind at 1.
    destruct (file_arrayBuffer P file x) as [[arrayBuffer|e] x1]; [|discriminate].
    unfold bind at 1.
    destruct (XLSX_read P arrayBuffer x1) as [[workbook|e] x2]; [|discriminate].
    unfold bind at 1.
    destruct (calculateFileHash P file x2) as [[sha256|e] x3]; [|discriminate].
    unfold bind at 1.
    destruct (processSheets P workbook sha256 (name P file) (SheetNames P workbook) 0 [] 0 x3)
      as [[[chunks totalChars]|e] x4] eqn:Hsheets; [|discriminate].
    unfold ret. intros [= <- _]. cbn.
    assert (Hinit : laidOut (name P file) [] 0) by (split; [reflexivity|constructor]).
    exact (processSheets_laidOut _ _ _ _ _ _ _ _ _ _ _ Hinit Hsheets).
  - intros arrayBuffer x1 workbook x2 sha256 x3 Hbuffer Hread Hhash Hnames.
    unfold processXLSX. unfold bind at 1. rewrite Hbuffer.
    unfold bind at 1. rewrite Hread.
    unfold bind at 1. rewrite Hhash.
    rewrite Hnames. reflexivity.
Qed.

(** *** The dispatch *)

Lemma eqb_false (s t : jsstring) : s <> t -> JS.eqb s t = false.
Proof. intros H. unfold JS.eqb. destruct (list_eq_dec N.eq_dec s t); congruence. Qed.

Lemma eqb_true (s : jsstring) : JS.eqb s s = true.
Proof. unfold JS.eqb. destruct (list_eq_dec N.eq_dec s s); congruence. Qed.

Definition supportedTypes : list jsstring :=
  [ lit "application/pdf";
    lit "application/vnd.openxmlformats-officedocument.wordprocessingml.document";
    lit "application/vnd.openxmlformats-officedocument.spreadsheetml.sheet";
    lit "text/csv";
    lit "text/plain" ].

Definition supportedExtensions : list jsstring :=
  [lit "pdf"; lit "docx"; lit "xlsx"; lit "csv"; lit "txt"].

(** The lower-cased text behind the last dot of the file name (all of the
    name when it has no dot). *)
Definition extensionOf (file : File P) : option jsstring :=
  pop (split chr_dot (toLowerCase P (name P file))).

(** A file whose type and extension are both unknown is rejected before
    anything is read from it. *)
Theorem processDocument_unsupported file x :
  ~ In (toLowerCase P (type_ P file)) supportedTypes ->
  (forall extension, extensionOf file = Some extension ->
                     ~ In extension supportedExtensions) ->
  processDocument P file x
  = (Err (Error (lit "Unsupported file type: " ++ toLowerCase P (type_ P file)
                 ++ lit " (" ++ shown (extensionOf file)
                 ++ lit "). Supported formats: PDF, DOCX, XLSX, CSV, TXT")), x).
Proof.
  intros Ht He. unfold processDocument, try_. fold (extensionOf file).
  assert (Hmime : forall t, In t supportedTypes ->
                            JS.eqb (toLowerCase P (type_ P file)) t = false).
  { intros t Hin. apply eqb_false. intros E. apply Ht. now rewrite E. }
  assert (Hext : forall e, In e supportedExtensions -> equals (extensionOf file) e = false).
  { intros e Hin. unfold equals. destruct (extensionOf file) as [v|] eqn:Hv; [|reflexivity].
    apply eqb_false. intros E. apply (He v eq_refl). now rewrite E. }
  rewrite !Hmime, !Hext by (simpl; tauto). reflexivity.
Qed.

Lemma split_last (c : char) (a b : jsstring) :
  ~ In c b -> pop (split c (a ++ c :: b)) = Some b.
Proof.
  intros Hb.
  assert (Hsplit_b : split c b = [b]).
  { induction b as [|y b IH]; [reflexivity|]. cbn [split].
    destruct (N.eqb_spec y c) as [->|]; [destruct Hb; now left|].
    rewrite IH; [reflexivity|]. intros H. apply Hb. now right. }
  assert (H : exists seg s2 more,
             split c (a ++ c :: b) = seg :: s2 :: more /\ pop (s2 :: more) = Some b).
  { induction a as [|x a (seg & s2 & more & IH & Hpop)]; cbn [app split].
    - rewrite N.eqb_refl, Hsplit_b. now exists [], b, [].
    - rewrite IH. destruct (N.eqb x c); eauto 6. }
  destruct H as (seg & s2 & more & -> & Hpop). exact Hpop.
Qed.

Lemma try_rethrow {A} (m : IO P A) (x : Ext P) :
  try_ P m (fun error => throw P error) x = m x.
Proof. unfold try_, throw. now destruct (m x) as [[a|e] x']. Qed.

(** A file whose lower-cased name ends in [.pdf] is processed as a PDF,
    whatever its type. *)
Theorem processDocument_pdf_extension file stem x :
  toLowerCase P (name P file) = stem ++ lit ".pdf" ->
  processDocument P file x = processPDF P file x.
Proof.
  intros Hname. unfold processDocument. rewrite try_rethrow, Hname.
  change (stem ++ lit ".pdf") with (stem ++ chr_dot :: lit "pdf").
  rewrite (split_last chr_dot stem (lit "pdf")).
  - cbn [equals]. rewrite eqb_true, orb_true_r. reflexivity.
  - vm_compute. intros H. repeat destruct H as [H|H]; first [discriminate H|destruct H].
Qed.

End WithPlatform.

(** *** Sample files *)

Module SampleFile.
Record t : Type := mk { name : jsstring; type_ : jsstring; content : jsstring }.
End SampleFile.

(** Files hold text; every PDF has a first page with two text items and a
    second page that cannot be read; every workbook has one sheet; the
    digest is the two bytes [00 ab]. *)
Definition desk : Platform :=
  {| Ext := unit;
     File := SampleFile.t;
     Pdf := unit;
     Page := unit;
     Workbook := unit;
     name := SampleFile.name;
     type_ := SampleFile.type_;
     file_arrayBuffer := fun _ x => (Ok [], x);
     file_text := fun file x => (Ok (SampleFile.content file), x);
     crypto_subtle_digest := fun _ x => (Ok [Byte.x00; Byte.xab], x);
     pdfjs_version := None;
     pdfjs_getDocument := fun _ _ x => (Ok tt, x);
     numPages := fun _ => 2;
     getPage := fun _ pageNum x =>
       if pageNum =? 1 then (Ok tt, x) else (Err (Error (lit "Invalid page")), x);
     getTextContent := fun _ x =>
       (Ok [TextItem.mk (Some (lit "Scope 1")); TextItem.mk None;
            TextItem.mk (Some (lit "emissions:  12 %"))], x);
     mammoth_extractRawText := fun _ x => (Ok (lit "  "), x);
     XLSX_read := fun _ x => (Ok tt, x);
     SheetNames := fun _ => [lit "Data"];
     sheet_to_csv := fun _ _ x => (Ok (lit "year,value"), x);
     toLowerCase := map lower |}.

Definition report : SampleFile.t :=
  SampleFile.mk (lit "Report.PDF") (lit "") (lit "Total emissions").

Definition notes : SampleFile.t :=
  SampleFile.mk (lit "notes.txt") (lit "text/plain") (lit "  ").

Definition picture : SampleFile.t :=
  SampleFile.mk (lit "logo.png") (lit "image/png") [].

Definition noDocument : ProcessedDocument.t :=
  ProcessedDocument.mk [] [] [] [] [] None 0.

Definition docOf (run : result ProcessedDocument.t * unit) : ProcessedDocument.t :=
  match fst run with Ok doc => doc | Err _ => noDocument end.

Lemma calculateFileHash_hex_witness :
  exists buffer x1 hashBuffer,
    file_arrayBuffer desk report tt = (Ok buffer, x1)
    /\ crypto_subtle_digest desk buffer x1 = (Ok hashBuffer, tt)
    /\ len (lit "00ab") = 2 * Z.of_nat (List.length hashBuffer)
    /\ Forall (fun c => is_hex c = true) (lit "00ab")
    /\ forall other, hex other = lit "00ab" -> other = hashBuffer.
Proof. apply (calculateFileHash_hex desk report tt). vm_compute. reflexivity. Defined.

Lemma text_document_chunks_witness :
  ProcessedDocument.chunks (docOf (processTXT desk notes tt)) <> []
  /\ Forall (fun chunk => len (DocumentChunk.text chunk) <= 801)
            (ProcessedDocument.chunks (docOf (processTXT desk notes tt)))
  /\ (ProcessedDocument.totalChars (docOf (processTXT desk notes tt)) = 0 ->
      exists chunk, ProcessedDocument.chunks (docOf (processTXT desk notes tt)) = [chunk]
                    /\ DocumentChunk.text chunk = [])
  /\ (0 < ProcessedDocument.totalChars (docOf (processTXT desk notes tt)) ->
      Forall (fun chunk => DocumentChunk.text chunk <> [])
             (ProcessedDocument.chunks (docOf (processTXT desk notes tt)))).
Proof.
  apply (text_document_chunks desk (processTXT desk) notes tt _ tt).
  - now left.
  - vm_compute. reflexivity.
Defined.

Lemma processPDF_offsets_witness :
  ProcessedDocument.chunks (docOf (processPDF desk report tt)) <> []
  /\ contiguous 0 (ProcessedDocument.chunks (docOf (processPDF desk report tt)))
                  (ProcessedDocument.totalChars (docOf (processPDF desk report tt)))
  /\ Forall (placed (lit "Report.PDF"))
            (ProcessedDocument.chunks (docOf (processPDF desk report tt))).
Proof.
  apply (processPDF_offsets desk report tt _ tt). vm_compute. reflexivity.
Defined.

Lemma processPDF_page_errors_witness :
  exists x',
    processPDF desk report tt = (Err (noText desk report), x')
    \/ exists doc, processPDF desk report tt = (Ok doc, x')
                   /\ ProcessedDocument.sha256 doc = lit "00ab"
                   /\ ProcessedDocument.totalPages doc = Some 2.
Proof.
  apply (processPDF_page_errors desk report tt [] tt tt tt (lit "00ab") tt);
    vm_compute; reflexivity.
Defined.

(** As [desk], except that every workbook is without sheets. *)
Definition blank : Platform :=
  {| Ext := unit;
     File := SampleFile.t;
     Pdf := unit;
     Page := unit;
     Workbook := unit;
     name := SampleFile.name;
     type_ := SampleFile.type_;
     file_arrayBuffer := fun _ x => (Ok [], x);
     file_text := fun file x => (Ok (SampleFile.content file), x);
     crypto_subtle_digest := fun _ x => (Ok [Byte.x00; Byte.xab], x);
     pdfjs_version := None;
     pdfjs_getDocument := fun _ _ x => (Ok tt, x);
     numPages := fun _ => 2;
     getPage := fun _ _ x => (Ok tt, x);
     getTextContent := fun _ x => (Ok [], x);
     mammoth_extractRawText := fun _ x => (Ok (lit "  "), x);
     XLSX_read := fun _ x => (Ok tt, x);
     SheetNames := fun _ => [];
     sheet_to_csv := fun _ _ x => (Err (Error (lit "no such sheet")), x);
     toLowerCase := map lower |}.

Definition ledger : SampleFile.t :=
  SampleFile.mk (lit "ledger.xlsx") (lit "application/vnd.ms-excel") [].

(** The one sheet of a workbook of [desk] gives one chunk, from 0 to 22;
    a workbook of [blank] gives the document without chunks. *)
Lemma processXLSX_offsets_witness :
  (map (fun chunk => (DocumentChunk.startChar chunk, DocumentChunk.endChar chunk))
       (ProcessedDocument.chunks (docOf (processXLSX desk ledger tt)))
   = [(Some 0, Some 22)]
   /\ contiguous 0 (ProcessedDocument.chunks (docOf (processXLSX desk ledger tt)))
                   (ProcessedDocument.totalChars (docOf (processXLSX desk ledger tt)))
   /\ Forall (placed (lit "ledger.xlsx"))
             (ProcessedDocument.chunks (docOf (processXLSX desk ledger tt))))
  /\ processXLSX blank ledger tt
     = (Ok (ProcessedDocument.mk (lit "00ab") (lit "ledger.xlsx")
                                 (lit "application/vnd.ms-excel") (lit "00ab") []
                                 (Some 0) 0), tt).
Proof.
  split; [split; [vm_compute; reflexivity|]|].
  - apply (proj1 (processXLSX_offsets desk ledger tt) _ tt). vm_compute. reflexivity.
  - apply (proj2 (processXLSX_offsets blank ledger tt) [] tt tt tt (lit "00ab") tt);
      vm_compute; reflexivity.
Defined.

Lemma processDocument_unsupported_witness :
  processDocument desk picture tt
  = (Err (Error (lit "Unsupported file type: image/png (png). Supported formats: PDF, DOCX, XLSX, CSV, TXT")),
     tt).
Proof.
  apply (processDocument_unsupported desk picture tt).
  - vm_compute. intros H. repeat destruct H as [H|H]; first [discriminate H|destruct H].
  - intros extension. vm_compute. intros [= <-] H.
    repeat destruct H as [H|H]; first [discriminate H|destruct H].
Defined.

Lemma processDocument_pdf_extension_witness :
  processDocument desk report tt = processPDF desk report tt.
Proof.
  apply (processDocument_pdf_extension desk report (lit "report")).
  vm_compute. reflexivity.
Defined.


End DocumentFacts.
